(** * Reviewer Assignment Engine of pull_request_manager

    A shallow embedding of [internal/service/service.go] (the engine),
    [internal/repository/postgres/repo.go] (the storage contract's only
    implementation), [internal/models] and the [Repository] interface,
    followed by the properties of the engine.

    Conventions.
    - Go's [int] is [Z].  Every integer the engine computes is a slice
      length, a loop counter bounded by one, or an identifier read back from
      storage, so no arithmetic leaves the 64-bit range and no wrap-around
      is written out.
    - A Go function returning [(T, error)] returns an [outcome T]; a Go
      panic (index out of range, [make] with a negative length,
      [rand.Intn] with a non-positive bound) is the third outcome [Panic].
    - Stateful code is a function from the state to an outcome and the next
      state: the state is kept when an error is returned, as in Go.
    - [context.Context] and the [slog] logger carry no data the engine
      reads back; they are left out. *)

From stdpp Require Import base tactics option list numbers strings pretty.

Open Scope Z_scope.

(** ** Errors: [errors.New], [fmt.Errorf] with [%w], [errors.Is] *)

Inductive error : Type :=
  | errors_New (text : string)
  | fmt_Errorf (before : string) (wrapped : error) (after : string).

#[global] Instance error_eq_dec : EqDecision error.
Proof. solve_decision. Defined.

(** [err.Error()] *)
Fixpoint Error (e : error) : string :=
  match e with
  | errors_New text => text
  | fmt_Errorf before wrapped after => before +:+ Error wrapped +:+ after
  end.

(** [errors.Unwrap] and [errors.Is]: walk the chain of wrapped errors.  Go
    compares the errors of the chain with the target by identity, the model
    by structure: two [errors.New] of the same text are one error here.  The
    sentinels of the engine have different texts. *)
Definition errors_Unwrap (e : error) : option error :=
  match e with
  | errors_New _ => None
  | fmt_Errorf _ wrapped _ => Some wrapped
  end.

Fixpoint errors_Is (e target : error) : bool :=
  if decide (e = target) then true
  else match e with
       | errors_New _ => false
       | fmt_Errorf _ wrapped _ => errors_Is wrapped target
       end.

(** ** Outcomes and the state monad of the engine *)

Inductive outcome (A : Type) : Type :=
  | Ok (a : A)
  | Err (e : error)
  | Panic.
Arguments Ok {A} a.
Arguments Err {A} e.
Arguments Panic {A}.

Definition M (S A : Type) : Type := S → outcome A * S.

Definition ret {S A} (a : A) : M S A := λ s, (Ok a, s).
Definition fail {S A} (e : error) : M S A := λ s, (Err e, s).
Definition panic {S A} : M S A := λ s, (Panic, s).

(** [x, err := c; if err != nil { return zero, err }; k x] *)
Definition bind {S A B} (c : M S A) (k : A → M S B) : M S B :=
  λ s, match c s with
       | (Ok a, s') => k a s'
       | (Err e, s') => (Err e, s')
       | (Panic, s') => (Panic, s')
       end.

(** [x, err := c; if err != nil { return zero, h err }; k x] *)
Definition bind_or {S A B} (c : M S A) (h : error → error) (k : A → M S B)
  : M S B :=
  λ s, match c s with
       | (Ok a, s') => k a s'
       | (Err e, s') => (Err (h e), s')
       | (Panic, s') => (Panic, s')
       end.

(** [x, _ := c; k x]: the error is dropped and [x] is the value the callee
    returned beside it. *)
Definition bind_ignoring {S A B} (c : M S A) (on_error : A) (k : A → M S B)
  : M S B :=
  λ s, match c s with
       | (Ok a, s') => k a s'
       | (Err _, s') => k on_error s'
       | (Panic, s') => (Panic, s')
       end.

Notation "'let*' x := c 'in' k" := (bind c (λ x, k))
  (at level 10, x pattern, c at level 100, k at level 200, only parsing).
Notation "'let*' x := c 'or_return' h 'in' k" := (bind_or c h (λ x, k))
  (at level 10, x pattern, c at level 100, h at level 9, k at level 200,
   only parsing).

(** ** [internal/models] *)

Module models.

Record Team : Type := mkTeam {
  Team_ID : Z;
  Team_Name : string;
  Team_CreatedAt : Z
}.

Record User : Type := mkUser {
  ID : Z;
  TeamID : option Z;
  Name : string;
  IsActive : bool;
  CreatedAt : Z
}.

(** [type PRStatus string] *)
Definition PRStatus : Type := string.
Definition PRStatusOpen : PRStatus := "OPEN".
Definition PRStatusMerged : PRStatus := "MERGED".

Record PR : Type := mkPR {
  PR_ID : Z;
  Title : string;
  AuthorID : Z;
  Status : PRStatus;
  PR_CreatedAt : Z
}.

Record PRWithReviewers : Type := mkPRWithReviewers {
  PR_of : PR;
  Reviewers : list User
}.

#[global] Instance Team_eq_dec : EqDecision Team.
Proof. solve_decision. Defined.
#[global] Instance User_eq_dec : EqDecision User.
Proof. solve_decision. Defined.
#[global] Instance PR_eq_dec : EqDecision PR.
Proof. solve_decision. Defined.

(** The zero values Go returns beside an error. *)
Definition zero_Team : Team := mkTeam 0 "" 0.
Definition zero_User : User := mkUser 0 None "" false 0.
Definition zero_PR : PR := mkPR 0 "" 0 "" 0.

End models.
Import models.

(** ** The pseudorandom source ([math/rand]) *)

(** [math/rand] is not part of the repository: the engine needs of
    [rand.Rand.Intn] only that a draw with a positive bound lands below
    the bound and advances the source. *)
Class RandSource (Rng : Type) : Type := {
  Intn_draw : Z → Rng → Z * Rng;
  Intn_draw_range : ∀ n g, 0 < n → 0 ≤ (Intn_draw n g).1 < n
}.

(** [rand.Intn(n)]: panics when [n <= 0]. *)
Definition rand_Intn `{RandSource Rng} (n : Z) (g : Rng) : option (Z * Rng) :=
  if decide (0 < n) then Some (Intn_draw n g) else None.

(** A linear congruential source, to run the engine on. *)
Definition lcg_next (g : Z) : Z := (6364136223846793005 * g + 1442695040888963407) `mod` 2 ^ 63.

Definition lcg_draw (n g : Z) : Z * Z := (lcg_next g `mod` n, lcg_next g).

Lemma lcg_draw_range n g : 0 < n → 0 ≤ (lcg_draw n g).1 < n.
Proof. intros Hn. simpl. apply Z.mod_pos_bound. exact Hn. Qed.

#[global] Instance lcg_source : RandSource Z :=
  {| Intn_draw := lcg_draw; Intn_draw_range := lcg_draw_range |}.

(** ** Slices of [int] *)

(** [make([]int, n)]: panics on a negative length.  The runtime also panics
    on a length beyond what it can allocate; that limit is not modelled, so
    [Some] here says the length is valid, not that the memory is there.  The
    engine makes slices of the length of a team's roster only. *)
Definition make_ints (n : Z) : option (list Z) :=
  if decide (n < 0) then None else Some (replicate (Z.to_nat n) 0).

(** [s[i]] for a Go [int] index: [None] is the index-out-of-range panic. *)
Definition index {A} (s : list A) (i : Z) : option A :=
  if decide (i < 0) then None else s !! Z.to_nat i.

(** [s[i] = x] *)
Definition store {A} (s : list A) (i : Z) (x : A) : option (list A) :=
  if decide (0 ≤ i < Z.of_nat (length s)) then Some (<[Z.to_nat i := x]> s)
  else None.

(** [s[:k]] on a slice whose capacity is its length. *)
Definition slice_to {A} (s : list A) (k : Z) : option (list A) :=
  if decide (0 ≤ k ≤ Z.of_nat (length s)) then Some (take (Z.to_nat k) s)
  else None.

(** [for i := lo; i < hi; i++ { body }] over a state that may panic. *)
Definition for_range {S} (lo hi : Z) (body : Z → S → option S) (s : S)
  : option S :=
  foldl (λ acc i, acc ≫= body i) (Some s) (seqZ lo (hi - lo)).

(** ** The engine's state: [type Service struct { repo; rand; logger }] *)

Record Service (St Rng : Type) : Type := mkService {
  repo : St;
  rand : Rng
}.
Arguments mkService {St Rng} repo rand.
Arguments repo {St Rng} s.
Arguments rand {St Rng} s.

Section sampler.
Context {St : Type} `{RandSource Rng}.

(** [for i := 0; i < n; i++ { res[i] = i }] *)
Definition fill_identity (n : Z) (res : list Z) : option (list Z) :=
  for_range 0 n (λ i res, store res i i) res.

(** One turn of the shuffle loop:
    [r := i + s.rand.Intn(n-i); res[i], res[r] = res[r], res[i]].
    Go evaluates both right-hand sides, then assigns left to right. *)
Definition swap_step (n i : Z) (st : list Z * Rng) : option (list Z * Rng) :=
  let '(res, g) := st in
  '(x, g') ← rand_Intn (n - i) g;
  let r := i + x in
  a ← index res r;
  b ← index res i;
  res ← store res i a;
  res ← store res r b;
  Some (res, g').

(** [func (s *Service) randomSample(n, k int) []int] *)
Definition randomSample (n k : Z) : M (Service St Rng) (list Z) := λ s,
  if decide (n ≤ k) then
    match make_ints n ≫= fill_identity n with
    | Some res => (Ok res, s)
    | None => (Panic, s)
    end
  else
    match make_ints n ≫= fill_identity n with
    | Some res =>
        match for_range 0 k (swap_step n) (res, rand s) with
        | Some (res, g) =>
            match slice_to res k with
            | Some out => (Ok out, mkService (repo s) g)
            | None => (Panic, mkService (repo s) g)
            end
        | None => (Panic, s)
        end
    | None => (Panic, s)
    end.

End sampler.

(** ** [internal/repository]: the storage contract *)

Module repository.

(** [type Repository interface { ... }] over a store of type [St]. *)
Class Repository (St : Type) : Type := {
  CreateTeam : string → M St Team;
  GetTeamByID : Z → M St Team;
  CreateUser : User → M St User;
  GetUserByID : Z → M St User;
  ListActiveUsersInTeam : Z → M St (list User);
  DeactivateUsersInTeam : Z → list Z → M St unit;
  CreatePR : PR → M St PR;
  GetPRByID : Z → M St PR;
  SetPRStatus : Z → string → M St unit;
  AssignReviewers : Z → list Z → M St unit;
  GetReviewersByPR : Z → M St (list User);
  ReplaceReviewer : Z → Z → Z → M St unit;
  ListPRsAssignedToUser : Z → M St (list PRWithReviewers);
  CountAssignments : M St Z
}.

(** *** A recording decorator

    What the tests observe with [AssertCalled] and [AssertNotCalled]:
    every call that reaches the storage contract, in order, with the
    error it surfaced if it failed. *)
Inductive Call : Type :=
  | CallCreateTeam (name : string)
  | CallGetTeamByID (id : Z)
  | CallCreateUser (u : User)
  | CallGetUserByID (id : Z)
  | CallListActiveUsersInTeam (teamID : Z)
  | CallDeactivateUsersInTeam (teamID : Z) (userIDs : list Z)
  | CallCreatePR (pr : PR)
  | CallGetPRByID (id : Z)
  | CallSetPRStatus (id : Z) (status : string)
  | CallAssignReviewers (prID : Z) (userIDs : list Z)
  | CallGetReviewersByPR (prID : Z)
  | CallReplaceReviewer (prID oldUserID newUserID : Z)
  | CallListPRsAssignedToUser (userID : Z)
  | CallCountAssignments.

#[global] Instance Call_eq_dec : EqDecision Call.
Proof. solve_decision. Defined.

Record Event : Type := mkEvent {
  call : Call;
  failure : option error
}.

(** The calls that look an entity up by its identifier. *)
Definition is_lookup (c : Call) : bool :=
  match c with
  | CallGetTeamByID _ | CallGetUserByID _ | CallGetPRByID _ => true
  | _ => false
  end.


Definition record {St A} (c : Call) (op : M St A) : M (St * list Event) A :=
  λ '(st, log),
    match op st with
    | (Ok a, st') => (Ok a, (st', log ++ [mkEvent c None]))
    | (Err e, st') => (Err e, (st', log ++ [mkEvent c (Some e)]))
    | (Panic, st') => (Panic, (st', log ++ [mkEvent c None]))
    end.

#[global] Instance Recorded `{Repository St} : Repository (St * list Event) := {|
  CreateTeam name := record (CallCreateTeam name) (CreateTeam name);
  GetTeamByID id := record (CallGetTeamByID id) (GetTeamByID id);
  CreateUser u := record (CallCreateUser u) (CreateUser u);
  GetUserByID id := record (CallGetUserByID id) (GetUserByID id);
  ListActiveUsersInTeam teamID :=
    record (CallListActiveUsersInTeam teamID) (ListActiveUsersInTeam teamID);
  DeactivateUsersInTeam teamID userIDs :=
    record (CallDeactivateUsersInTeam teamID userIDs)
           (DeactivateUsersInTeam teamID userIDs);
  CreatePR pr := record (CallCreatePR pr) (CreatePR pr);
  GetPRByID id := record (CallGetPRByID id) (GetPRByID id);
  SetPRStatus id status :=
    record (CallSetPRStatus id status) (SetPRStatus id status);
  AssignReviewers prID userIDs :=
    record (CallAssignReviewers prID userIDs) (AssignReviewers prID userIDs);
  GetReviewersByPR prID :=
    record (CallGetReviewersByPR prID) (GetReviewersByPR prID);
  ReplaceReviewer prID oldUserID newUserID :=
    record (CallReplaceReviewer prID oldUserID newUserID)
           (ReplaceReviewer prID oldUserID newUserID);
  ListPRsAssignedToUser userID :=
    record (CallListPRsAssignedToUser userID) (ListPRsAssignedToUser userID);
  CountAssignments := record CallCountAssignments CountAssignments
|}.

End repository.

(** ** [internal/repository/postgres]: the tables and the statements *)

Module postgres.

(** The schema of [internal/migration]: four tables, the three [SERIAL]
    sequences and the clock behind [DEFAULT now()].  A row of
    [pr_reviewers] is its primary key [(pr_id, user_id)]; its
    [assigned_at] column is never read.  A table is the list of its rows
    in insertion order, which is the order a scan returns them in. *)
Record DB : Type := mkDB {
  teams : list Team;
  users : list User;
  prs : list PR;
  pr_reviewers : list (Z * Z);
  teams_id_seq : Z;
  users_id_seq : Z;
  prs_id_seq : Z;
  now : Z
}.

(** The database with the rows of [pr_reviewers] replaced. *)
Definition set_pr_reviewers (rows : list (Z * Z)) (d : DB) : DB :=
  mkDB (teams d) (users d) (prs d) rows
       (teams_id_seq d) (users_id_seq d) (prs_id_seq d) (now d).

(** The connection pool: the database, and what the network will do to
    the coming round trips ([Some e]: the round trip fails with the
    driver error [e] and the statement is not run). *)
Record Pool : Type := mkPool {
  db : DB;
  faults : list (option error)
}.

Definition ErrNoRows : error := errors_New "no rows in result set".
Definition unique_violation : error :=
  errors_New "duplicate key value violates unique constraint".
Definition foreign_key_violation : error :=
  errors_New "insert or update on table violates foreign key constraint".

(** One round trip of [pool.QueryRow(..).Scan], [pool.Query] or
    [pool.Exec] running the statement [stmt]. *)
Definition round_trip {A} (stmt : DB → outcome A * DB) : M Pool A := λ p,
  let rest := tail (faults p) in
  match head (faults p) with
  | Some (Some e) => (Err e, mkPool (db p) rest)
  | _ => let '(r, d) := stmt (db p) in (r, mkPool d rest)
  end.

(** The network lets the next [n] round trips through. *)
Definition healthy (n : nat) (p : Pool) : Prop :=
  Forall (λ f, f = None) (take n (faults p)).

Definition wrap (prefix : string) (e : error) : error :=
  fmt_Errorf prefix e "".

(** *** Statements *)

Definition first_row {A} (rows : list A) : outcome A :=
  match rows with
  | r :: _ => Ok r
  | [] => Err ErrNoRows
  end.

(** [INSERT INTO teams(name) VALUES($1) RETURNING id, name, created_at];
    [nextval] is not undone when the row is refused. *)
Definition insert_team (name : string) (d : DB) : outcome Team * DB :=
  let id := teams_id_seq d + 1 in
  let d := mkDB (teams d) (users d) (prs d) (pr_reviewers d)
                id (users_id_seq d) (prs_id_seq d) (now d) in
  if decide (name ∈ Team_Name <$> teams d) then (Err unique_violation, d)
  else
    let t := mkTeam id name (now d) in
    (Ok t, mkDB (teams d ++ [t]) (users d) (prs d) (pr_reviewers d)
                (teams_id_seq d) (users_id_seq d) (prs_id_seq d) (now d)).

(** [SELECT id, name, created_at FROM teams WHERE id=$1] *)
Definition select_team (id : Z) (d : DB) : outcome Team * DB :=
  (first_row (filter (λ t, Team_ID t = id) (teams d)), d).

(** [INSERT INTO users(team_id, name, is_active) VALUES($1,$2,$3)
    RETURNING id, team_id, name, is_active, created_at] *)
Definition insert_user (u : User) (d : DB) : outcome User * DB :=
  let id := users_id_seq d + 1 in
  let d := mkDB (teams d) (users d) (prs d) (pr_reviewers d)
                (teams_id_seq d) id (prs_id_seq d) (now d) in
  let team_exists :=
    match TeamID u with
    | None => true
    | Some t => bool_decide (t ∈ Team_ID <$> teams d)
    end in
  if team_exists then
    let row := mkUser id (TeamID u) (Name u) (IsActive u) (now d) in
    (Ok row, mkDB (teams d) (users d ++ [row]) (prs d) (pr_reviewers d)
                  (teams_id_seq d) (users_id_seq d) (prs_id_seq d) (now d))
  else (Err foreign_key_violation, d).

(** [SELECT id, team_id, name, is_active, created_at FROM users WHERE id=$1] *)
Definition select_user (id : Z) (d : DB) : outcome User * DB :=
  (first_row (filter (λ u, ID u = id) (users d)), d).

(** [SELECT id, team_id, name, is_active, created_at FROM users
    WHERE team_id=$1 AND is_active=true] *)
Definition active_users (teamID : Z) (d : DB) : list User :=
  filter (λ u, TeamID u = Some teamID ∧ IsActive u = true) (users d).

Definition select_active_users (teamID : Z) (d : DB)
  : outcome (list User) * DB :=
  (Ok (active_users teamID d), d).

(** [UPDATE users SET is_active = false WHERE team_id = $1 AND id = ANY($2)] *)
Definition deactivate_users (teamID : Z) (userIDs : list Z) (d : DB)
  : outcome unit * DB :=
  let off (u : User) :=
    if decide (TeamID u = Some teamID ∧ ID u ∈ userIDs)
    then mkUser (ID u) (TeamID u) (Name u) false (CreatedAt u) else u in
  (Ok (), mkDB (teams d) (off <$> users d) (prs d) (pr_reviewers d)
               (teams_id_seq d) (users_id_seq d) (prs_id_seq d) (now d)).

(** [INSERT INTO prs(title, author_id, status) VALUES($1,$2,$3)
    RETURNING id, title, author_id, status, created_at] *)
Definition insert_pr (pr : PR) (d : DB) : outcome PR * DB :=
  let id := prs_id_seq d + 1 in
  let d := mkDB (teams d) (users d) (prs d) (pr_reviewers d)
                (teams_id_seq d) (users_id_seq d) id (now d) in
  if decide (AuthorID pr ∈ ID <$> users d) then
    let row := mkPR id (Title pr) (AuthorID pr) (Status pr) (now d) in
    (Ok row, mkDB (teams d) (users d) (prs d ++ [row]) (pr_reviewers d)
                  (teams_id_seq d) (users_id_seq d) (prs_id_seq d) (now d))
  else (Err foreign_key_violation, d).

(** [SELECT id, title, author_id, status, created_at FROM prs WHERE id=$1] *)
Definition select_pr (id : Z) (d : DB) : outcome PR * DB :=
  (first_row (filter (λ p, PR_ID p = id) (prs d)), d).

(** [UPDATE prs SET status=$1 WHERE id=$2] *)
Definition update_pr_status (status : string) (id : Z) (d : DB)
  : outcome unit * DB :=
  let set (p : PR) :=
    if decide (PR_ID p = id)
    then mkPR (PR_ID p) (Title p) (AuthorID p) status (PR_CreatedAt p)
    else p in
  (Ok (), mkDB (teams d) (users d) (set <$> prs d) (pr_reviewers d)
               (teams_id_seq d) (users_id_seq d) (prs_id_seq d) (now d)).

(** [INSERT INTO pr_reviewers(pr_id, user_id) VALUES($1,$2)
    ON CONFLICT DO NOTHING] *)
Definition insert_reviewer (prID userID : Z) (d : DB) : outcome unit * DB :=
  if decide ((prID, userID) ∈ pr_reviewers d) then (Ok (), d)
  else if decide (prID ∈ PR_ID <$> prs d ∧ userID ∈ ID <$> users d) then
    (Ok (), set_pr_reviewers (pr_reviewers d ++ [(prID, userID)]) d)
  else (Err foreign_key_violation, d).

(** [DELETE FROM pr_reviewers WHERE pr_id=$1 AND user_id=$2] *)
Definition delete_reviewer (prID userID : Z) (d : DB) : outcome unit * DB :=
  (Ok (), set_pr_reviewers
            (filter (λ r, r ≠ (prID, userID)) (pr_reviewers d)) d).

(** [SELECT u.id, u.team_id, u.name, u.is_active, u.created_at
    FROM users u JOIN pr_reviewers r ON r.user_id = u.id
    WHERE r.pr_id=$1] *)
Definition reviewers_of (prID : Z) (d : DB) : list User :=
  r ← filter (λ r, r.1 = prID) (pr_reviewers d);
  filter (λ u, ID u = r.2) (users d).

Definition select_reviewers (prID : Z) (d : DB) : outcome (list User) * DB :=
  (Ok (reviewers_of prID d), d).

(** [SELECT p.id, p.title, p.author_id, p.status, p.created_at
    FROM prs p JOIN pr_reviewers r ON r.pr_id = p.id
    WHERE r.user_id=$1].  The query has no [ORDER BY]: the rows come in the
    order of [pr_reviewers] here, in any order from the database. *)
Definition select_prs_of_reviewer (userID : Z) (d : DB)
  : outcome (list PR) * DB :=
  (Ok (r ← filter (λ r, r.2 = userID) (pr_reviewers d);
       filter (λ p, PR_ID p = r.1) (prs d)), d).

(** [SELECT COUNT] of all the rows of [pr_reviewers] *)
Definition count_reviewers (d : DB) : outcome Z * DB :=
  (Ok (Z.of_nat (length (pr_reviewers d))), d).

(** *** The methods of [repo] *)

Definition CreateTeam (name : string) : M Pool Team :=
  let* t := round_trip (insert_team name) or_return (wrap "create team: ") in
  ret t.

Definition GetTeamByID (id : Z) : M Pool Team :=
  let* t := round_trip (select_team id) or_return (wrap "get team: ") in
  ret t.

Definition CreateUser (u : User) : M Pool User :=
  let* res := round_trip (insert_user u) or_return (wrap "create user: ") in
  ret res.

Definition GetUserByID (id : Z) : M Pool User :=
  let* u := round_trip (select_user id) or_return (wrap "get user: ") in
  ret u.

Definition ListActiveUsersInTeam (teamID : Z) : M Pool (list User) :=
  let* rows := round_trip (select_active_users teamID)
               or_return (wrap "list active users: ") in
  ret rows.

Definition DeactivateUsersInTeam (teamID : Z) (userIDs : list Z)
  : M Pool unit :=
  let* _ := round_trip (deactivate_users teamID userIDs)
            or_return (wrap "deactivate users: ") in
  ret ().

Definition CreatePR (pr : PR) : M Pool PR :=
  let* res := round_trip (insert_pr pr) or_return (wrap "create PR: ") in
  ret res.

Definition GetPRByID (id : Z) : M Pool PR :=
  let* p := round_trip (select_pr id) or_return (wrap "get PR: ") in
  ret p.

Definition SetPRStatus (id : Z) (status : string) : M Pool unit :=
  let* _ := round_trip (update_pr_status status id)
            or_return (wrap "set PR status: ") in
  ret ().

(** [for _, uid := range userIDs { if _, err := r.pool.Exec(..); err != nil
    { return fmt.Errorf("assign reviewer %d: %w", uid, err) } }] *)
Fixpoint AssignReviewers (prID : Z) (userIDs : list Z) : M Pool unit :=
  match userIDs with
  | [] => ret ()
  | uid :: rest =>
      let* _ := round_trip (insert_reviewer prID uid)
                or_return (wrap ("assign reviewer " +:+ pretty uid +:+ ": ")) in
      AssignReviewers prID rest
  end.

Definition GetReviewersByPR (prID : Z) : M Pool (list User) :=
  let* rows := round_trip (select_reviewers prID)
               or_return (wrap "get reviewers by PR: ") in
  ret rows.

(** [tx, err := r.pool.Begin(ctx)] and [tx.Commit(ctx)] are round trips
    that run no statement of their own. *)
Definition no_statement (d : DB) : outcome unit * DB := (Ok (), d).

(** [defer tx.Rollback(ctx)]: unless the transaction committed, the
    database is the one it began on; the round trips stay spent. *)
Definition transaction {A} (body : M Pool A) : M Pool A := λ p,
  match body p with
  | (Ok a, tx) => (Ok a, tx)
  | (Err e, tx) => (Err e, mkPool (db p) (faults tx))
  | (Panic, tx) => (Panic, mkPool (db p) (faults tx))
  end.

Definition ReplaceReviewer (prID oldUserID newUserID : Z) : M Pool unit :=
  let* _ := round_trip no_statement or_return (wrap "begin transaction: ") in
  transaction (
    let* _ := round_trip (delete_reviewer prID oldUserID)
              or_return (wrap "delete old reviewer: ") in
    let* _ := round_trip (insert_reviewer prID newUserID)
              or_return (wrap "insert new reviewer: ") in
    let* _ := round_trip no_statement
              or_return (wrap "commit transaction: ") in
    ret ()).

(** The loop over the rows of [ListPRsAssignedToUser]. *)
Fixpoint attach_reviewers (rows : list PR) (out : list PRWithReviewers)
  : M Pool (list PRWithReviewers) :=
  match rows with
  | [] => ret out
  | p :: rest =>
      let* revs := GetReviewersByPR (PR_ID p)
                   or_return (wrap ("get reviewers for PR "
                                    +:+ pretty (PR_ID p) +:+ ": ")) in
      attach_reviewers rest (out ++ [mkPRWithReviewers p revs])
  end.

Definition ListPRsAssignedToUser (userID : Z) : M Pool (list PRWithReviewers) :=
  let* rows := round_trip (select_prs_of_reviewer userID)
               or_return (wrap "list PRs assigned to user: ") in
  attach_reviewers rows [].

Definition CountAssignments : M Pool Z :=
  let* c := round_trip count_reviewers or_return (wrap "count assignments: ") in
  ret c.

(** *** The constraints of the schema

    [PRIMARY KEY], [UNIQUE], [REFERENCES] and [SERIAL] as
    [internal/migration] declares them. *)
Record consistent (d : DB) : Prop := mkConsistent {
  teams_pkey : NoDup (Team_ID <$> teams d);
  teams_name_key : NoDup (Team_Name <$> teams d);
  teams_serial : ∀ t, t ∈ teams d → Team_ID t ≤ teams_id_seq d;
  users_pkey : NoDup (ID <$> users d);
  users_serial : ∀ u, u ∈ users d → ID u ≤ users_id_seq d;
  users_team_id_fkey :
    ∀ u t, u ∈ users d → TeamID u = Some t → t ∈ Team_ID <$> teams d;
  prs_pkey : NoDup (PR_ID <$> prs d);
  prs_serial : ∀ p, p ∈ prs d → PR_ID p ≤ prs_id_seq d;
  prs_author_id_fkey : ∀ p, p ∈ prs d → AuthorID p ∈ ID <$> users d;
  pr_reviewers_pkey : NoDup (pr_reviewers d);
  pr_reviewers_pr_id_fkey :
    ∀ r, r ∈ pr_reviewers d → r.1 ∈ PR_ID <$> prs d;
  pr_reviewers_user_id_fkey :
    ∀ r, r ∈ pr_reviewers d → r.2 ∈ ID <$> users d
}.

(** The database [migration.Run] leaves behind on a new server. *)
Definition migrated (now : Z) : DB := mkDB [] [] [] [] 0 0 0 now.

(** The identifiers of the reviewers assigned to a PR. *)
Definition reviewer_ids (prID : Z) (d : DB) : list Z :=
  snd <$> filter (λ r, r.1 = prID) (pr_reviewers d).

(** [func NewRepo(pool *pgxpool.Pool) repository.Repository] *)
#[global] Instance NewRepo : repository.Repository Pool := {|
  repository.CreateTeam := CreateTeam;
  repository.GetTeamByID := GetTeamByID;
  repository.CreateUser := CreateUser;
  repository.GetUserByID := GetUserByID;
  repository.ListActiveUsersInTeam := ListActiveUsersInTeam;
  repository.DeactivateUsersInTeam := DeactivateUsersInTeam;
  repository.CreatePR := CreatePR;
  repository.GetPRByID := GetPRByID;
  repository.SetPRStatus := SetPRStatus;
  repository.AssignReviewers := AssignReviewers;
  repository.GetReviewersByPR := GetReviewersByPR;
  repository.ReplaceReviewer := ReplaceReviewer;
  repository.ListPRsAssignedToUser := ListPRsAssignedToUser;
  repository.CountAssignments := CountAssignments
|}.

End postgres.

(** ** [internal/service]: the engine *)

Module service.
Import repository.

Definition ErrNotFound : error := errors_New "not found".
Definition ErrBadRequest : error := errors_New "bad request".
Definition ErrPRMerged : error := errors_New "cannot reassign on merged PR".
Definition ErrNoCandidate : error :=
  errors_New "no active replacement candidate in team".

(** [fmt.Errorf("%w: detail", sentinel)] *)
Definition Errorf_w (sentinel : error) (detail : string) : error :=
  fmt_Errorf "" sentinel (": " +:+ detail).

Section engine.
Context `{Repository St} `{RandSource Rng}.

Local Abbreviation Svc := (Service St Rng).

(** [s.repo.Method(ctx, ...)] *)
Definition s_repo {A} (op : M St A) : M Svc A := λ s,
  let '(r, st) := op (repo s) in (r, mkService st (rand s)).

(** [s.rand.Intn(n)] *)
Definition s_rand_Intn (n : Z) : M Svc Z := λ s,
  match rand_Intn n (rand s) with
  | Some (x, g) => (Ok x, mkService (repo s) g)
  | None => (Panic, s)
  end.

(** [len(xs)] *)
Definition len {A} (xs : list A) : Z := Z.of_nat (length xs).

Definition CreateTeam (name : string) : M Svc Team :=
  if decide (name = "") then fail (Errorf_w ErrBadRequest "team name empty")
  else
    let* t := s_repo (repository.CreateTeam name) in
    ret t.

Definition CreateUser (teamID : option Z) (name : string) (isActive : bool)
  : M Svc User :=
  if decide (name = "") then fail (Errorf_w ErrBadRequest "user name empty")
  else
    let check_team : M Svc unit :=
      match teamID with
      | Some t =>
          let* _ := s_repo (GetTeamByID t)
                    or_return (λ _, Errorf_w ErrBadRequest "team not found") in
          ret ()
      | None => ret ()
      end in
    let* _ := check_team in
    let u := mkUser 0 teamID name isActive 0 in
    let* user := s_repo (repository.CreateUser u) in
    ret user.

(** [for _, i := range idxs
     { chosenIDs = append(chosenIDs, filtered[i].ID) }] *)
Fixpoint collect_ids (filtered : list User) (idxs : list Z)
  (chosenIDs : list Z) : M Svc (list Z) :=
  match idxs with
  | [] => ret chosenIDs
  | i :: rest =>
      match index filtered i with
      | Some u => collect_ids filtered rest (chosenIDs ++ [ID u])
      | None => panic
      end
  end.

Definition CreatePR (title : string) (authorID : Z)
  : M Svc PRWithReviewers :=
  let* author := s_repo (GetUserByID authorID)
                 or_return (λ _, Errorf_w ErrBadRequest "author not found") in
  if negb (IsActive author)
  then fail (Errorf_w ErrBadRequest "author is not active")
  else
    let* pr := s_repo (repository.CreatePR
                         (mkPR 0 title authorID PRStatusOpen 0)) in
    match TeamID author with
    | None => ret (mkPRWithReviewers pr [])
    | Some teamID =>
        let* candidates := s_repo (ListActiveUsersInTeam teamID) in
        let filtered := filter (λ u, ID u ≠ authorID) candidates in
        let count := if decide (len filtered < 2) then len filtered else 2 in
        let* chosenIDs :=
          (if decide (count > 0) then
             let* idxs := randomSample (len filtered) count in
             let* chosenIDs := collect_ids filtered idxs [] in
             let* _ := s_repo (AssignReviewers (PR_ID pr) chosenIDs) in
             ret chosenIDs
           else ret []) in
        let* revs := s_repo (GetReviewersByPR (PR_ID pr)) in
        ret (mkPRWithReviewers pr revs)
    end.

(** [for _, reviewer := range reviewers
     { if reviewer.ID == id { found = true; break } }] *)
Definition has_reviewer (reviewers : list User) (id : Z) : bool :=
  existsb (λ reviewer, bool_decide (ID reviewer = id)) reviewers.

(** The candidates a reassignment may draw from. *)
Definition replacement_pool (pr : PR) (oldUserID : Z)
  (currentReviewers candidates : list User) : list User :=
  filter (λ u, ID u ≠ AuthorID pr ∧ ID u ≠ oldUserID
               ∧ has_reviewer currentReviewers (ID u) = false) candidates.

Definition ReassignReviewer (prID oldUserID : Z) : M Svc PRWithReviewers :=
  let* pr := s_repo (GetPRByID prID)
             or_return (λ _, Errorf_w ErrBadRequest "pr not found") in
  if decide (Status pr = PRStatusMerged)
  then fail (Errorf_w ErrPRMerged "cannot reassign merged pr")
  else
    let* oldUser := s_repo (GetUserByID oldUserID)
                    or_return (λ _, Errorf_w ErrBadRequest "user not found") in
    match TeamID oldUser with
    | None => fail (Errorf_w ErrBadRequest "reviewer has no team")
    | Some teamID =>
        let* currentReviewers := s_repo (GetReviewersByPR prID) in
        if negb (has_reviewer currentReviewers oldUserID)
        then fail (Errorf_w ErrBadRequest
                     "reviewer is not assigned to this PR")
        else
          let* candidates := s_repo (ListActiveUsersInTeam teamID) in
          let filtered :=
            replacement_pool pr oldUserID currentReviewers candidates in
          if decide (len filtered = 0)
          then fail (Errorf_w ErrNoCandidate
                       "no active candidates to reassign")
          else
            let* newIdx := s_rand_Intn (len filtered) in
            match index filtered newIdx with
            | None => panic
            | Some newUser =>
                let* _ := s_repo (ReplaceReviewer prID oldUserID
                                    (ID newUser)) in
                let* revs := s_repo (GetReviewersByPR prID) in
                ret (mkPRWithReviewers pr revs)
            end
    end.

Definition MergePR (prID : Z) : M Svc PRWithReviewers :=
  let* pr := s_repo (GetPRByID prID)
             or_return (λ _, Errorf_w ErrBadRequest "pr not found") in
  if decide (Status pr = PRStatusMerged) then
    (* revs, _ := s.repo.GetReviewersByPR(ctx, prID): the postgres
       repository returns a nil slice beside its errors. *)
    bind_ignoring (s_repo (GetReviewersByPR prID)) []
      (λ revs, ret (mkPRWithReviewers pr revs))
  else if decide (Status pr ≠ PRStatusOpen) then
    fail (Errorf_w ErrBadRequest "can only merge OPEN pull requests")
  else
    let* _ := s_repo (SetPRStatus prID PRStatusMerged) in
    let pr := mkPR (PR_ID pr) (Title pr) (AuthorID pr) PRStatusMerged
                   (PR_CreatedAt pr) in
    let* revs := s_repo (GetReviewersByPR prID) in
    ret (mkPRWithReviewers pr revs).

Definition ListPRsAssignedToUser (userID : Z)
  : M Svc (list PRWithReviewers) :=
  let* _ := s_repo (GetUserByID userID)
            or_return (λ _, Errorf_w ErrBadRequest "user not found") in
  let* prs := s_repo (repository.ListPRsAssignedToUser userID) in
  ret prs.

Definition StatsAssignments : M Svc Z :=
  let* count := s_repo CountAssignments in
  ret count.

End engine.
End service.

(** ** The engine on the recorded postgres repository *)

(** The journal of a recorded repository, and what an operation appended
    to it. *)
Definition journal {St Rng} (s : Service (St * list repository.Event) Rng)
  : list repository.Event := (repo s).2.

Definition events_since {St Rng}
  (s s' : Service (St * list repository.Event) Rng) : list repository.Event :=
  drop (length (journal s)) (journal s').

Definition calls_since {St Rng}
  (s s' : Service (St * list repository.Event) Rng) : list repository.Call :=
  repository.call <$> events_since s s'.

Definition Engine (Rng : Type) : Type :=
  Service (postgres.Pool * list repository.Event) Rng.

Definition pool {Rng} (s : Engine Rng) : postgres.Pool := (repo s).1.
Definition database {Rng} (s : Engine Rng) : postgres.DB := postgres.db (pool s).

(** What a call leaves behind: the database [d], one round trip spent and
    one more line in the journal. *)
Definition after_call {Rng} (s : Engine Rng) (d : postgres.DB)
  (c : repository.Call) (failure : option error) : Engine Rng :=
  mkService (postgres.mkPool d (tail (postgres.faults (pool s))),
             journal s ++ [repository.mkEvent c failure]) (rand s).

(** The state of an operation that has run. *)
Definition exec {S A} (op : M S A) (s : S) : S := (op s).2.


(** An operation returns the failures of storage: whenever a call it made
    to the storage contract failed with [e], the operation returned [e]
    itself if the call was not a look-up by identifier, and an
    [ErrBadRequest] if it was. *)
Definition returns_storage_failures {St Rng A}
  (op : M (Service (St * list repository.Event) Rng) A) : Prop :=
  ∀ s r s' ev e,
    op s = (r, s') →
    ev ∈ events_since s s' →
    repository.failure ev = Some e →
    (repository.is_lookup (repository.call ev) = false → r = Err e)
    ∧ (repository.is_lookup (repository.call ev) = true →
       ∃ e', r = Err e' ∧ errors_Is e' service.ErrBadRequest = true).

(** The eligible replacements of a reviewer of team [teamID] on a PR: the
    active users of that team other than the PR's author, the reviewer
    itself and the users already assigned to the PR. *)
Definition eligible_replacements (pr : PR) (oldUserID teamID : Z)
  (d : postgres.DB) : list User :=
  filter (λ u, TeamID u = Some teamID ∧ IsActive u = true
               ∧ ID u ≠ AuthorID pr ∧ ID u ≠ oldUserID
               ∧ ID u ∉ postgres.reviewer_ids (PR_ID pr) d)
         (postgres.users d).

(** ** A run of the engine

    A new server, two teams and their users, then two PRs and a merge: the
    states the properties below are instantiated on. *)

Definition boot : Engine Z :=
  mkService (postgres.mkPool (postgres.migrated 1700000000) [], []) 2026.

(** Team 1 with the users 1 to 4, team 2 with the users 6 and 7, and the
    user 5 who has no team. *)
Definition office : Engine Z :=
  foldl (λ s op, op s) boot
    [exec (service.CreateTeam "Backend");
     exec (service.CreateUser (Some 1) "Anna" true);
     exec (service.CreateUser (Some 1) "Boris" true);
     exec (service.CreateUser (Some 1) "Clara" true);
     exec (service.CreateUser (Some 1) "Dmitri" true);
     exec (service.CreateUser None "Eve" true);
     exec (service.CreateTeam "Frontend");
     exec (service.CreateUser (Some 2) "Fedor" true);
     exec (service.CreateUser (Some 2) "Galina" true)].

(** PR 1 by user 1, PR 2 by user 6, then PR 1 merged. *)
Definition office_with_pr : Engine Z :=
  exec (service.CreatePR "Add login" 1) office.

Definition office_with_two_prs : Engine Z :=
  exec (service.CreatePR "Fix styles" 6) office_with_pr.

Definition office_after_merge : Engine Z :=
  exec (service.MergePR 1) office_with_two_prs.

(** The same state on a network that will do [faults] to the coming round
    trips. *)
Definition on_network (faults : list (option error)) (s : Engine Z) : Engine Z :=
  mkService (postgres.mkPool (database s) faults, journal s) (rand s).

Definition connection_reset : error := errors_New "connection reset by peer".

(** ** [internal/api]: how the handler of [/prs/{pr_id}/reassign] names an
    error of [ReassignReviewer] *)

Module api.

(** The [switch err.Error()] of [reassign]: the code and the HTTP status. *)
Definition reassign_error (e : error) : string * Z :=
  let text := Error e in
  if decide (text = "bad request: cannot reassign merged pr")
  then ("PR_MERGED", 409)
  else if decide (text = "bad request: no active candidates to reassign")
  then ("NO_CANDIDATE", 409)
  else if decide (text = "bad request: reviewer is not assigned to this PR")
  then ("NOT_ASSIGNED", 409)
  else if decide (text = "bad request: pr not found"
                  ∨ text = "bad request: user not found")
  then ("NOT_FOUND", 404)
  else ("BAD_REQUEST", 400).

(** The [switch err.Error()] of [createPR]. *)
Definition createPR_error (e : error) : string * Z :=
  let text := Error e in
  if decide (text = "bad request: author not found"
             ∨ text = "bad request: author is not active")
  then ("NOT_FOUND", 404)
  else ("BAD_REQUEST", 400).

(** The [if err.Error() == ...] of [merge]. *)
Definition merge_error (e : error) : string * Z :=
  if decide (Error e = "bad request: pr not found")
  then ("NOT_FOUND", 404)
  else ("BAD_REQUEST", 400).

End api.

(** * Properties *)

(** ** The sampler *)

Section sampler_facts.
Context {St : Type} `{RandSource Rng}.

Lemma for_range_snoc {S} (lo : Z) (j : nat) (body : Z → S → option S) s :
  for_range lo (lo + Z.of_nat (Datatypes.S j)) body s
  = for_range lo (lo + Z.of_nat j) body s ≫= body (lo + Z.of_nat j).
Proof.
  unfold for_range.
  replace (lo + Z.of_nat (Datatypes.S j) - lo) with (Z.of_nat (Datatypes.S j)) by lia.
  replace (lo + Z.of_nat j - lo) with (Z.of_nat j) by lia.
  rewrite seqZ_S, foldl_app. reflexivity.
Qed.

Lemma for_range_empty {S} (lo hi : Z) (body : Z → S → option S) s :
  hi ≤ lo → for_range lo hi body s = Some s.
Proof. intros Hle. unfold for_range. rewrite seqZ_nil by lia. reflexivity. Qed.

(** After [j] turns of the filling loop the first [j] cells hold their own
    index and the others still hold the zero [make] put there. *)
Lemma fill_identity_prefix (m j : nat) :
  (j ≤ m)%nat →
  fill_identity (Z.of_nat j) (replicate m 0)
  = Some (seqZ 0 (Z.of_nat j) ++ replicate (m - j) 0).
Proof.
  unfold fill_identity. induction j as [|j IH]; intros Hj.
  - rewrite for_range_empty by lia. simpl. by rewrite Nat.sub_0_r.
  - pose proof (for_range_snoc 0 j (λ i res, store res i i) (replicate m 0)) as E.
    rewrite !Z.add_0_l in E. rewrite E, IH by lia. clear E IH. simpl.
    unfold store. rewrite length_app, length_seqZ, length_replicate.
    rewrite decide_True by lia. f_equal.
    rewrite Nat2Z.id, insert_app_r_alt by (rewrite length_seqZ; lia).
    rewrite length_seqZ, Nat2Z.id, Nat.sub_diag.
    replace (m - j)%nat with (Datatypes.S (m - Datatypes.S j)) by lia.
    simpl. rewrite seqZ_S, <- app_assoc. reflexivity.
Qed.

Lemma make_fill_identity (n : Z) :
  0 ≤ n → make_ints n ≫= fill_identity n = Some (seqZ 0 n).
Proof.
  intros Hn. unfold make_ints. rewrite decide_False by lia. simpl.
  rewrite <- (Z2Nat.id n) at 1 by lia.
  rewrite fill_identity_prefix by lia.
  rewrite Nat.sub_diag, app_nil_r, Z2Nat.id by lia. reflexivity.
Qed.

(** A turn of the shuffle neither panics nor loses an index. *)
Lemma swap_step_permutes (n i : Z) (res : list Z) (g : Rng) :
  0 ≤ i < n → length res = Z.to_nat n →
  ∃ res' g', swap_step n i (res, g) = Some (res', g') ∧ res' ≡ₚ res.
Proof.
  intros Hi Hlen. unfold swap_step, rand_Intn.
  rewrite decide_True by lia.
  pose proof (Intn_draw_range (n - i) g ltac:(lia)) as Hx.
  destruct (Intn_draw (n - i) g) as [x g']. simpl in *.
  destruct (lookup_lt_is_Some_2 res (Z.to_nat (i + x)) ltac:(lia)) as [a Ha].
  destruct (lookup_lt_is_Some_2 res (Z.to_nat i) ltac:(lia)) as [b Hb].
  unfold index, store. rewrite !decide_False by lia. rewrite Ha, Hb. simpl.
  rewrite decide_True by lia. simpl.
  rewrite length_insert, decide_True by lia. simpl.
  eexists _, _. split; [reflexivity|].
  by apply Permutation_insert_swap.
Qed.

Lemma shuffle_permutes (n : Z) (j : nat) (res : list Z) (g : Rng) :
  Z.of_nat j ≤ n → length res = Z.to_nat n →
  ∃ res' g', for_range 0 (Z.of_nat j) (swap_step n) (res, g) = Some (res', g')
             ∧ res' ≡ₚ res.
Proof.
  intros Hj Hlen. induction j as [|j IH].
  - rewrite for_range_empty by lia. by eexists _, _.
  - destruct IH as (res1 & g1 & E1 & P1); [lia|].
    pose proof (for_range_snoc 0 j (swap_step n) (res, g)) as E.
    rewrite !Z.add_0_l in E. rewrite E, E1. simpl.
    destruct (swap_step_permutes n (Z.of_nat j) res1 g1) as (res2 & g2 & E2 & P2);
      [lia| by rewrite P1 |].
    exists res2, g2. split; [done|]. by rewrite P2.
Qed.

(** The sampler depends on the engine's state through the source only. *)
Lemma randomSample_reads_rand_only (n k : Z) (s s2 : Service St Rng) :
  rand s2 = rand s →
  (randomSample n k s2).1 = (randomSample n k s).1
  ∧ rand (randomSample n k s2).2 = rand (randomSample n k s).2.
Proof.
  intros E. unfold randomSample. rewrite E.
  repeat case_match; simplify_eq/=; done.
Qed.

Lemma randomSample_keeps_repo (n k : Z) (s : Service St Rng) :
  repo (randomSample n k s).2 = repo s.
Proof. unfold randomSample. repeat case_match; simplify_eq/=; done. Qed.

(** With a pool no larger than the request the sampler returns every
    index in increasing order and leaves the source alone. *)
Lemma randomSample_whole_pool (n k : Z) (s : Service St Rng) :
  0 ≤ n ≤ k → randomSample n k s = (Ok (seqZ 0 n), s).
Proof.
  intros Hn. unfold randomSample. rewrite decide_True by lia.
  by rewrite make_fill_identity by lia.
Qed.

Lemma randomSample_shuffled (n k : Z) (s : Service St Rng) :
  0 ≤ k < n →
  ∃ res g, randomSample n k s = (Ok (take (Z.to_nat k) res), mkService (repo s) g)
           ∧ res ≡ₚ seqZ 0 n.
Proof.
  intros Hk. unfold randomSample. rewrite decide_False by lia.
  rewrite make_fill_identity by lia.
  destruct (shuffle_permutes n (Z.to_nat k) (seqZ 0 n) (rand s))
    as (res & g & E & P); [lia| by rewrite length_seqZ |].
  rewrite Z2Nat.id in E by lia. rewrite E.
  unfold slice_to. rewrite decide_True.
  - by exists res, g.
  - rewrite P, length_seqZ. lia.
Qed.

Lemma randomSample_returns (n k : Z) (s : Service St Rng) :
  0 ≤ n → 0 ≤ k →
  ∃ idxs s', randomSample n k s = (Ok idxs, s')
             ∧ Z.of_nat (length idxs) = Z.min n k ∧ NoDup idxs
             ∧ (∀ i, i ∈ idxs → 0 ≤ i < n).
Proof.
  intros Hn Hk. destruct (decide (n ≤ k)) as [Hle|Hgt].
  - exists (seqZ 0 n), s. rewrite randomSample_whole_pool by lia.
    split; [done|]. split; [rewrite length_seqZ; lia|].
    split; [apply NoDup_seqZ|]. intros i Hi%elem_of_seqZ. lia.
  - destruct (randomSample_shuffled n k s) as (res & g & E & P); [lia|].
    exists (take (Z.to_nat k) res), (mkService (repo s) g).
    assert (length res = Z.to_nat n) as Hres by (by rewrite P, length_seqZ).
    split; [done|]. split; [rewrite length_take; lia|]. split.
    + apply (sublist_NoDup _ res); [|apply sublist_take].
      rewrite P. apply NoDup_seqZ.
    + intros i [j [Hj _]]%elem_of_take.
      apply list_elem_of_lookup_2 in Hj. rewrite P in Hj.
      apply elem_of_seqZ in Hj. lia.
Qed.

End sampler_facts.

(** C3. For a pool of [n ≥ 0] and a request of [k ≥ 0], [randomSample]
    returns (it does not panic) [min n k] indices, pairwise distinct, each in
    [[0, n)], and touches nothing of the engine but the source; and a call
    with the same [n] and [k] on a source in the same state returns the same
    indices and leaves the source in the same state. *)
Theorem randomSample_distinct_in_range_deterministic
  {St : Type} `{RandSource Rng} (n k : Z) (s : Service St Rng) :
  0 ≤ n → 0 ≤ k →
  ∃ idxs s',
    randomSample n k s = (Ok idxs, s')
    ∧ repo s' = repo s
    ∧ Z.of_nat (length idxs) = Z.min n k
    ∧ NoDup idxs
    ∧ (∀ i, i ∈ idxs → 0 ≤ i < n)
    ∧ ∀ s2 : Service St Rng,
        rand s2 = rand s →
        (randomSample n k s2).1 = Ok idxs
        ∧ rand (randomSample n k s2).2 = rand s'.
Proof.
  intros Hn Hk.
  destruct (randomSample_returns n k s Hn Hk) as (idxs & s' & E & Hlen & Hnd & Hin).
  exists idxs, s'. split; [done|]. split.
  { pose proof (randomSample_keeps_repo n k s) as R. by rewrite E in R. }
  do 3 (split; [done|]).
  intros s2 E2. pose proof (randomSample_reads_rand_only n k s s2 E2) as [R1 R2].
  by rewrite E in R1, R2.
Qed.

Lemma randomSample_distinct_in_range_deterministic_witness :
  ∃ idxs s',
    randomSample 5 2 (mkService () 7) = (Ok idxs, s')
    ∧ repo s' = ()
    ∧ Z.of_nat (length idxs) = Z.min 5 2
    ∧ NoDup idxs
    ∧ (∀ i, i ∈ idxs → 0 ≤ i < 5)
    ∧ ∀ s2 : Service () Z,
        rand s2 = 7 →
        (randomSample 5 2 s2).1 = Ok idxs
        ∧ rand (randomSample 5 2 s2).2 = rand s'.
Proof.
  apply (randomSample_distinct_in_range_deterministic 5 2 (mkService () 7)); lia.
Defined.

(** ** The statements *)

Section statement_facts.
Import postgres.

Lemma first_row_Ok {A} (rows : list A) (a : A) :
  first_row rows = Ok a → a ∈ rows.
Proof. destruct rows; intros E; simplify_eq/=. left. Qed.

Lemma filter_none {A} (P : A → Prop) `{∀ x, Decision (P x)} (l : list A) :
  (∀ x, x ∈ l → ¬ P x) → filter P l = [].
Proof.
  induction l as [|x l IH]; intros Hl; [done|].
  rewrite filter_cons_False by (apply Hl; left).
  apply IH. intros y Hy. apply Hl. by right.
Qed.

(** A key that occurs once selects one row. *)
Lemma filter_key_singleton {A} (key : A → Z) (rows : list A) (a : A) :
  NoDup (key <$> rows) → a ∈ rows →
  filter (λ x, key x = key a) rows = [a].
Proof.
  induction rows as [|x rows IH]; intros Hnd Hin.
  - by apply elem_of_nil in Hin.
  - rewrite fmap_cons in Hnd. apply NoDup_cons in Hnd as [Hx Hnd].
    rewrite filter_cons. apply elem_of_cons in Hin as [->|Hin].
    + rewrite decide_True by done. f_equal.
      apply filter_none. intros y Hy E. apply Hx.
      rewrite <- E. by apply list_elem_of_fmap_2.
    + rewrite decide_False; [by apply IH|].
      intros E. apply Hx. rewrite E. by apply list_elem_of_fmap_2.
Qed.

Lemma filter_key_absent {A} (key : A → Z) (rows : list A) (k : Z) :
  k ∉ key <$> rows → filter (λ x, key x = k) rows = [].
Proof.
  intros Hk. apply filter_none. intros y Hy E. apply Hk.
  rewrite <- E. by apply list_elem_of_fmap_2.
Qed.

Lemma select_user_Ok (id : Z) (d d' : DB) (u : User) :
  select_user id d = (Ok u, d') → d' = d ∧ u ∈ users d ∧ ID u = id.
Proof.
  unfold select_user. intros [= E ->]. split; [done|].
  apply first_row_Ok in E. apply list_elem_of_filter in E as [? ?]. done.
Qed.

Lemma select_pr_Ok (id : Z) (d d' : DB) (p : PR) :
  select_pr id d = (Ok p, d') → d' = d ∧ p ∈ prs d ∧ PR_ID p = id.
Proof.
  unfold select_pr. intros [= E ->]. split; [done|].
  apply first_row_Ok in E. apply list_elem_of_filter in E as [? ?]. done.
Qed.

(** The join of [GetReviewersByPR] returns one user per assignment. *)
Lemma join_users_ids (d : DB) (rows : list (Z * Z)) :
  NoDup (ID <$> users d) →
  (∀ r, r ∈ rows → r.2 ∈ ID <$> users d) →
  ID <$> (r ← rows; filter (λ u, ID u = r.2) (users d)) = snd <$> rows.
Proof.
  intros Hnd. induction rows as [|r rows IH]; intros Hfk; [done|].
  rewrite bind_cons, fmap_app, fmap_cons, IH
    by (intros; apply Hfk; right; done).
  pose proof (Hfk r ltac:(left)) as Hr.
  apply list_elem_of_fmap in Hr as (u & E & Hu).
  rewrite E, (filter_key_singleton ID) by done. reflexivity.
Qed.

Lemma join_users_elem (d : DB) (rows : list (Z * Z)) (u : User) :
  u ∈ (r ← rows; filter (λ u, ID u = r.2) (users d)) → u ∈ users d.
Proof.
  intros Hu. apply list_elem_of_bind in Hu as (r & Hu & _).
  by apply list_elem_of_filter in Hu as [_ ?].
Qed.

Lemma select_reviewers_ids (prID : Z) (d : DB) :
  consistent d →
  ∃ revs, select_reviewers prID d = (Ok revs, d)
          ∧ ID <$> revs = reviewer_ids prID d
          ∧ ∀ u, u ∈ revs → u ∈ users d.
Proof.
  intros W. eexists. split; [reflexivity|]. split.
  - apply join_users_ids; [apply W|].
    intros r Hr. apply list_elem_of_filter in Hr as [_ Hr]. by apply W.
  - apply join_users_elem.
Qed.

End statement_facts.

(** ** The engine's calls to the recorded postgres repository *)

Section call_facts.
Import repository postgres service.
Context `{RandSource Rng}.
Implicit Types s : Engine Rng.

Lemma statement_call_inv {A B} (c : Call) (stmt : DB → outcome A * DB)
    (prefix : string) (f : A → B) s (b : B) s' :
  s_repo (record c (bind_or (round_trip stmt) (wrap prefix) (λ x, ret (f x)))) s
  = (Ok b, s') →
  ∃ a d, stmt (database s) = (Ok a, d) ∧ b = f a ∧ s' = after_call s d c None.
Proof.
  destruct s as [[p log] g].
  unfold s_repo, record, bind_or, round_trip, after_call, database, journal, pool, ret.
  simpl. intros E.
  destruct (head (faults p)) as [[e|]|]; simpl in E; simplify_eq/=;
    destruct (stmt (db p)) as [[a|e|] d]; simplify_eq/=; by eexists _, _.
Qed.

Lemma statement_call_healthy {A B} (c : Call) (stmt : DB → outcome A * DB)
    (prefix : string) (f : A → B) s :
  healthy 1 (pool s) →
  s_repo (record c (bind_or (round_trip stmt) (wrap prefix) (λ x, ret (f x)))) s
  = match stmt (database s) with
    | (Ok a, d) => (Ok (f a), after_call s d c None)
    | (Err e, d) => (Err (wrap prefix e),
                     after_call s d c (Some (wrap prefix e)))
    | (Panic, d) => (Panic, after_call s d c None)
    end.
Proof.
  destruct s as [[p log] g].
  unfold healthy, s_repo, record, bind_or, round_trip, after_call, database,
    journal, pool, ret.
  simpl. intros Hh.
  destruct (faults p) as [|[e|] rest]; simpl in *.
  - by destruct (stmt (db p)) as [[a|e|] d].
  - apply Forall_cons in Hh as [? _]. done.
  - by destruct (stmt (db p)) as [[a|e|] d].
Qed.

Lemma statement_call_fault {A B} (c : Call) (stmt : DB → outcome A * DB)
    (prefix : string) (f : A → B) s (e : error) :
  head (faults (pool s)) = Some (Some e) →
  s_repo (record c (bind_or (round_trip stmt) (wrap prefix) (λ x, ret (f x)))) s
  = (Err (wrap prefix e), after_call s (database s) c (Some (wrap prefix e))).
Proof.
  destruct s as [[p log] g].
  unfold s_repo, record, bind_or, round_trip, after_call, database, journal, pool.
  simpl. intros ->. reflexivity.
Qed.

Lemma database_after_call s d c o : database (after_call s d c o) = d.
Proof. reflexivity. Qed.
Lemma journal_after_call s d c o :
  journal (after_call s d c o) = journal s ++ [mkEvent c o].
Proof. reflexivity. Qed.
Lemma rand_after_call s d c o : rand (after_call s d c o) = rand s.
Proof. reflexivity. Qed.
Lemma faults_after_call s d c o :
  faults (pool (after_call s d c o)) = tail (faults (pool s)).
Proof. reflexivity. Qed.

Lemma healthy_after_call n s d c o :
  healthy (S n) (pool s) → healthy n (pool (after_call s d c o)).
Proof.
  unfold healthy. rewrite faults_after_call.
  destruct (faults (pool s)) as [|x l]; simpl.
  - by rewrite take_nil.
  - by intros [_ ?]%Forall_cons.
Qed.

Lemma healthy_le n m (p : Pool) : (n ≤ m)%nat → healthy m p → healthy n p.
Proof.
  unfold healthy. intros Hle Hm.
  rewrite <- (Nat.min_l n m), <- take_take by lia.
  by apply Forall_take.
Qed.

End call_facts.

(** ** Every statement keeps the constraints of the schema *)

Section schema_facts.
Import postgres.

Lemma migrated_consistent (t : Z) : consistent (migrated t).
Proof.
  split; simpl; try apply NoDup_nil_2; intros; exfalso; by eapply elem_of_nil.
Qed.

Lemma NoDup_snoc_fresh {A} (key : A → Z) (rows : list A) (a : A) (seq : Z) :
  NoDup (key <$> rows) → (∀ x, x ∈ rows → key x ≤ seq) → seq < key a →
  NoDup (key <$> rows ++ [a]).
Proof.
  intros Hnd Hseq Ha. rewrite fmap_app. apply NoDup_app. split; [done|]. split.
  - intros k Hk Hk'. apply list_elem_of_fmap in Hk as (x & -> & Hx).
    apply list_elem_of_singleton in Hk'. specialize (Hseq x Hx). simpl in Hk'. lia.
  - apply NoDup_singleton.
Qed.

Lemma insert_team_consistent (name : string) (d : DB) :
  consistent d → consistent (insert_team name d).2.
Proof.
  intros [].  unfold insert_team. simpl. case_decide; split; simpl; try done.
  - intros t Ht. specialize (teams_serial0 t Ht). lia.
  - apply (NoDup_snoc_fresh Team_ID _ _ (teams_id_seq d)); simpl; [done..|lia].
  - rewrite fmap_app. apply NoDup_app. split; [done|]. split; [|apply NoDup_singleton].
    intros k Hk Hk'%list_elem_of_singleton. by subst.
  - intros t [Ht| ->%list_elem_of_singleton]%elem_of_app; simpl; [|lia].
    specialize (teams_serial0 t Ht). lia.
  - intros u t Hu Ht. rewrite fmap_app. apply elem_of_app. left. eauto.
Qed.

Lemma insert_user_consistent (u : User) (d : DB) :
  consistent d → consistent (insert_user u d).2.
Proof.
  intros []. unfold insert_user. simpl. case_match; split; simpl; try done.
  - apply (NoDup_snoc_fresh ID _ _ (users_id_seq d)); simpl; [done..|lia].
  - intros x [Hx| ->%list_elem_of_singleton]%elem_of_app; simpl; [|lia].
    specialize (users_serial0 x Hx). lia.
  - intros x t [Hx| ->%list_elem_of_singleton]%elem_of_app; simpl; [by eauto|].
    intros E. rewrite E in *. by apply bool_decide_eq_true in H.
  - intros p Hp. rewrite fmap_app. apply elem_of_app. left. eauto.
  - intros r Hr. rewrite fmap_app. apply elem_of_app. left. eauto.
  - intros x Hx. specialize (users_serial0 x Hx). lia.
Qed.

Lemma deactivate_users_consistent (teamID : Z) (userIDs : list Z) (d : DB) :
  consistent d → consistent (deactivate_users teamID userIDs d).2.
Proof.
  intros []. unfold deactivate_users. simpl.
  set (off := λ u : User, if decide (TeamID u = Some teamID ∧ ID u ∈ userIDs)
                then mkUser (ID u) (TeamID u) (Name u) false (CreatedAt u) else u).
  assert (∀ u, ID (off u) = ID u ∧ TeamID (off u) = TeamID u) as Hoff.
  { intros u. unfold off. by case_decide. }
  assert (ID <$> (off <$> users d) = ID <$> users d) as Hids.
  { rewrite <- list_fmap_compose. apply list_fmap_ext. intros ? u _. apply Hoff. }
  split; simpl; try done; rewrite ?Hids; try done.
  - intros u' Hu'. apply list_elem_of_fmap in Hu' as (u & -> & Hu).
    rewrite (proj1 (Hoff u)). eauto.
  - intros u' t Hu'. apply list_elem_of_fmap in Hu' as (u & -> & Hu).
    rewrite (proj2 (Hoff u)). eauto.
Qed.

Lemma insert_pr_consistent (pr : PR) (d : DB) :
  consistent d → consistent (insert_pr pr d).2.
Proof.
  intros []. unfold insert_pr. simpl. case_decide; split; simpl; try done.
  - apply (NoDup_snoc_fresh PR_ID _ _ (prs_id_seq d)); simpl; [done..|lia].
  - intros x [Hx| ->%list_elem_of_singleton]%elem_of_app; simpl; [|lia].
    specialize (prs_serial0 x Hx). lia.
  - intros x [Hx| ->%list_elem_of_singleton]%elem_of_app; simpl; by eauto.
  - intros r Hr. rewrite fmap_app. apply elem_of_app. left. eauto.
  - intros x Hx. specialize (prs_serial0 x Hx). lia.
Qed.

Lemma update_pr_status_consistent (status : string) (id : Z) (d : DB) :
  consistent d → consistent (update_pr_status status id d).2.
Proof.
  intros []. unfold update_pr_status. simpl.
  set (upd := λ p : PR, if decide (PR_ID p = id)
                then mkPR (PR_ID p) (Title p) (AuthorID p) status (PR_CreatedAt p)
                else p).
  assert (∀ p, PR_ID (upd p) = PR_ID p ∧ AuthorID (upd p) = AuthorID p) as Hupd.
  { intros p. unfold upd. by case_decide. }
  assert (PR_ID <$> (upd <$> prs d) = PR_ID <$> prs d) as Hids.
  { rewrite <- list_fmap_compose. apply list_fmap_ext. intros ? p _. apply Hupd. }
  split; simpl; try done; rewrite ?Hids; try done.
  - intros p' Hp'. apply list_elem_of_fmap in Hp' as (p & -> & Hp).
    rewrite (proj1 (Hupd p)). eauto.
  - intros p' Hp'. apply list_elem_of_fmap in Hp' as (p & -> & Hp).
    rewrite (proj2 (Hupd p)). eauto.
Qed.

Lemma insert_reviewer_consistent (prID userID : Z) (d : DB) :
  consistent d → consistent (insert_reviewer prID userID d).2.
Proof.
  intros W. unfold insert_reviewer. repeat case_decide; simpl; try done.
  destruct W. split; simpl; try done.
  - apply NoDup_app. split; [done|]. split; [|apply NoDup_singleton].
    intros r Hr ->%list_elem_of_singleton. done.
  - intros r [Hr| ->%list_elem_of_singleton]%elem_of_app; simpl; [eauto|tauto].
  - intros r [Hr| ->%list_elem_of_singleton]%elem_of_app; simpl; [eauto|tauto].
Qed.

Lemma delete_reviewer_consistent (prID userID : Z) (d : DB) :
  consistent d → consistent (delete_reviewer prID userID d).2.
Proof.
  intros []. unfold delete_reviewer. split; simpl; try done.
  - by apply NoDup_filter.
  - intros r [_ Hr]%list_elem_of_filter. eauto.
  - intros r [_ Hr]%list_elem_of_filter. eauto.
Qed.

End schema_facts.

(** ** The methods of the postgres repository that take several round trips *)

Section method_facts.
Import postgres.

Lemma round_trip_Ok {A} (stmt : DB → outcome A * DB) (p p' : Pool) (a : A) :
  round_trip stmt p = (Ok a, p') →
  ∃ d, stmt (db p) = (Ok a, d) ∧ p' = mkPool d (tail (faults p)).
Proof.
  unfold round_trip. intros E.
  destruct (stmt (db p)) as [r d].
  destruct (head (faults p)) as [[e|]|]; simplify_eq/=; by eexists.
Qed.

Lemma round_trip_db {A} (stmt : DB → outcome A * DB) (p : Pool) :
  db (round_trip stmt p).2 = db p ∨ db (round_trip stmt p).2 = (stmt (db p)).2.
Proof.
  unfold round_trip.
  destruct (head (faults p)) as [[e|]|]; simpl; auto;
    destruct (stmt (db p)) as [r d]; simpl; auto.
Qed.

(** A successful [AssignReviewers] of new, distinct reviewers appends them
    to the table in the order given. *)
Lemma AssignReviewers_Ok (prID : Z) (userIDs : list Z) (p p' : Pool) :
  AssignReviewers prID userIDs p = (Ok (), p') →
  NoDup userIDs →
  (∀ uid, uid ∈ userIDs → (prID, uid) ∉ pr_reviewers (db p)) →
  db p' = set_pr_reviewers
            (pr_reviewers (db p) ++ (pair prID <$> userIDs)) (db p)
  ∧ faults p' = drop (length userIDs) (faults p).
Proof.
  revert p. induction userIDs as [|uid rest IH]; intros p E Hnd Hnew.
  - simpl in E. unfold ret in E. injection E as E. subst p'.
    simpl. rewrite app_nil_r. by destruct p as [[]].
  - simpl in E. unfold bind_or in E.
    destruct (round_trip (insert_reviewer prID uid) p) as [[[]|e|] p1] eqn:E1;
      try discriminate E.
    apply round_trip_Ok in E1 as (d & E1 & ->).
    apply NoDup_cons in Hnd as [Huid Hnd].
    unfold insert_reviewer in E1.
    rewrite decide_False in E1 by (apply Hnew; left).
    case_decide; [|discriminate E1]. simplify_eq/=.
    apply IH in E as [-> ->]; [| done |].
    + unfold set_pr_reviewers. simpl. rewrite <- app_assoc. split; [done|].
      destruct (faults p); simpl; by rewrite ?drop_nil.
    + intros u Hu. simpl. intros [Hin|Hin%list_elem_of_singleton]%elem_of_app.
      * eapply Hnew; [right|]; done.
      * by simplify_eq.
Qed.

(** [ReplaceReviewer] is all or nothing, whatever the network does: it
    either applies both statements, or returns an error and leaves the
    database as it was. *)
Lemma ReplaceReviewer_atomic (prID oldUserID newUserID : Z) (p : Pool) :
  let '(r, p') := ReplaceReviewer prID oldUserID newUserID p in
  (r = Ok ()
   ∧ insert_reviewer prID newUserID (delete_reviewer prID oldUserID (db p)).2
     = (Ok (), db p')
   ∧ faults p' = drop 4 (faults p))
  ∨ (∃ e, r = Err e ∧ db p' = db p).
Proof.
  unfold ReplaceReviewer, transaction, bind_or, ret.
  destruct (round_trip no_statement p) as [[[]|e|] p1] eqn:E1.
  2:{ right. exists (wrap "begin transaction: " e).
      pose proof (round_trip_db no_statement p) as Hd. rewrite E1 in Hd.
      simpl in Hd. split; [done|]. by destruct Hd. }
  2:{ unfold round_trip, no_statement in E1.
      destruct (head (faults p)) as [[?|]|]; simplify_eq/=. }
  apply round_trip_Ok in E1 as (d1 & E1 & ->). unfold no_statement in E1.
  simplify_eq/=.
  destruct (round_trip (delete_reviewer prID oldUserID) _) as [[[]|e|] p2] eqn:E2;
    [|right; by eexists|].
  2:{ unfold round_trip, delete_reviewer in E2. simpl in E2.
      destruct (head (tail (faults p))) as [[?|]|]; simplify_eq/=. }
  apply round_trip_Ok in E2 as (d2 & E2 & ->). simpl in E2.
  destruct (round_trip (insert_reviewer prID newUserID) _) as [[[]|e|] p3] eqn:E3;
    [|right; by eexists|].
  2:{ unfold round_trip, insert_reviewer in E3. simpl in E3.
      destruct (head (tail (tail (faults p)))) as [[?|]|]; simplify_eq/=;
        repeat case_decide; simplify_eq/=. }
  apply round_trip_Ok in E3 as (d3 & E3 & ->). simpl in E3.
  destruct (round_trip no_statement _) as [[[]|e|] p4] eqn:E4;
    [|right; by eexists|].
  2:{ unfold round_trip, no_statement in E4. simpl in E4.
      destruct (head (tail (tail (tail (faults p))))) as [[?|]|]; simplify_eq/=. }
  apply round_trip_Ok in E4 as (d4 & E4 & ->). unfold no_statement in E4.
  simplify_eq/=. left. split; [done|]. split.
  - unfold delete_reviewer in E2. simplify_eq/=. exact E3.
  - by destruct (faults p) as [|? [|? [|? [|? ?]]]].
Qed.

End method_facts.

(** ** Creating a PR *)

Section CreatePR_facts.
Import repository postgres service.
Context `{RandSource Rng}.
Implicit Types s : Engine Rng.

Lemma s_repo_record_eq {St A} (c : Call) (op : M St A)
    (s : Service (St * list Event) Rng) :
  s_repo (record c op) s
  = ((op (repo s).1).1,
     mkService ((op (repo s).1).2,
                journal s ++ [mkEvent c match (op (repo s).1).1 with
                                        | Err e => Some e
                                        | _ => None
                                        end]) (rand s)).
Proof.
  destruct s as [[st log] g]. unfold s_repo, record, journal. simpl.
  by destruct (op st) as [[a|e|] st'].
Qed.

Lemma calls_since_refl {St} (s : Service (St * list Event) Rng) :
  calls_since s s = [].
Proof. unfold calls_since, events_since. by rewrite drop_all. Qed.

Lemma events_since_app {St} (s s' : Service (St * list Event) Rng) evs :
  journal s' = journal s ++ evs → events_since s s' = evs.
Proof. unfold events_since. intros ->. by rewrite drop_app_length. Qed.

(** The loop that reads the chosen rows never leaves the slice when the
    indices are indices of the slice. *)
Lemma collect_ids_in_range {St} (filtered : list User) (idxs acc : list Z)
    (s : Service St Rng) :
  (∀ i, i ∈ idxs → 0 ≤ i < len filtered) →
  ∃ us, Forall2 (λ i u, filtered !! Z.to_nat i = Some u) idxs us
        ∧ collect_ids filtered idxs acc s = (Ok (acc ++ (ID <$> us)), s).
Proof.
  revert acc. induction idxs as [|i idxs IH]; intros acc Hr.
  - exists []. split; [constructor|]. simpl. by rewrite app_nil_r.
  - pose proof (Hr i ltac:(left)) as Hi. unfold len in Hi.
    destruct (lookup_lt_is_Some_2 filtered (Z.to_nat i) ltac:(lia)) as [u Hu].
    destruct (IH (acc ++ [ID u])) as (us & Hus & E).
    { intros j Hj. apply Hr. by right. }
    exists (u :: us). split; [by constructor|].
    simpl. unfold index. rewrite decide_False by lia. rewrite Hu, E.
    by rewrite <- app_assoc.
Qed.

Lemma picked_rows_distinct (filtered : list User) (idxs : list Z) (us : list User) :
  NoDup (ID <$> filtered) → NoDup idxs → (∀ i, i ∈ idxs → 0 ≤ i) →
  Forall2 (λ i u, filtered !! Z.to_nat i = Some u) idxs us →
  NoDup (ID <$> us).
Proof.
  intros Hnd Hidxs Hpos Hpick.
  induction Hpick as [|i u idxs us Hu Hpick IH]; [constructor|].
  apply NoDup_cons in Hidxs as [Hi Hidxs].
  rewrite fmap_cons. apply NoDup_cons. split.
  - intros Hin. apply list_elem_of_fmap in Hin as (u' & E & Hu').
    apply list_elem_of_lookup in Hu' as [k Hk].
    destruct (Forall2_lookup_r _ _ _ _ _ Hpick Hk) as (j & Hj & Hju').
    assert (Z.to_nat i = Z.to_nat j) as Hij.
    { apply (NoDup_lookup (ID <$> filtered) _ _ (ID u)); [done|..];
        rewrite list_lookup_fmap; [by rewrite Hu | by rewrite Hju', E]. }
    apply list_elem_of_lookup_2 in Hj.
    pose proof (Hpos i ltac:(left)). pose proof (Hpos j ltac:(by right)).
    assert (i = j) by lia. by subst.
  - apply IH; [done|]. intros j Hj. apply Hpos. by right.
Qed.

Lemma picked_rows_elem (filtered : list User) (idxs : list Z) (us : list User) :
  Forall2 (λ i u, filtered !! Z.to_nat i = Some u) idxs us →
  ∀ u, u ∈ us → u ∈ filtered.
Proof.
  intros Hpick u Hu. apply list_elem_of_lookup in Hu as [k Hk].
  destruct (Forall2_lookup_r _ _ _ _ _ Hpick Hk) as (j & _ & Hju).
  by apply list_elem_of_lookup_2 in Hju.
Qed.


(** The rows of the join, when the table holds the chosen users. *)
Lemma join_picked_rows (d : DB) (prID : Z) (us : list User) :
  NoDup (ID <$> users d) → (∀ u, u ∈ us → u ∈ users d) →
  (r ← (pair prID <$> (ID <$> us)); filter (λ u, ID u = r.2) (users d)) = us.
Proof.
  intros Hnd. induction us as [|u us IH]; intros Hin; [done|].
  rewrite !fmap_cons, bind_cons. simpl.
  rewrite (filter_key_singleton ID) by (try done; apply Hin; left).
  simpl. f_equal. apply IH. intros u' Hu'. apply Hin. by right.
Qed.

End CreatePR_facts.

(** The next call of an engine operation, under inversion of a result. *)
Tactic Notation "next_call" hyp(E) "as" ident(a) ident(e) ident(s1) ident(E1) :=
  match type of E with
  | context [service.s_repo ?op ?s] =>
      destruct (service.s_repo op s) as [[a|e|] s1] eqn:E1; try discriminate E
  end.

Section CreatePR_inversion.
Import repository postgres service.
Context `{RandSource Rng}.
Implicit Types s : Engine Rng.

(** The next call of an engine operation under inversion. *)

(** Reading back the reviewers of a PR whose assignments are the rows
    just written for the chosen users. *)
Lemma reread_picked_rows (d : DB) (prID : Z) (us : list User)
    (old : list (Z * Z)) :
  NoDup (ID <$> users d) → (∀ u, u ∈ us → u ∈ users d) →
  pr_reviewers d = old ++ (pair prID <$> (ID <$> us)) →
  (∀ r, r ∈ old → r.1 ≠ prID) →
  select_reviewers prID d = (Ok us, d).
Proof.
  intros Hnd Hus Hrows Hold. unfold select_reviewers, reviewers_of.
  do 2 f_equal. rewrite Hrows, filter_app.
  rewrite (filter_none _ old) by (intros r Hr; by apply Hold).
  rewrite app_nil_l.
  replace (filter (λ r : Z * Z, r.1 = prID) (pair prID <$> (ID <$> us)))
    with (pair prID <$> (ID <$> us)).
  - by apply join_picked_rows.
  - generalize (ID <$> us). intros ids. induction ids as [|i ids IH]; [done|].
    rewrite fmap_cons, filter_cons_True by done. by f_equal.
Qed.

(** No assignment mentions a PR that is yet to be created. *)
Lemma no_reviewers_of_next_pr (d : DB) (r : Z * Z) :
  consistent d → r ∈ pr_reviewers d → r.1 ≠ prs_id_seq d + 1.
Proof.
  intros W Hr E. apply (pr_reviewers_pr_id_fkey d W) in Hr.
  apply list_elem_of_fmap in Hr as (p & Hp & Hin).
  pose proof (prs_serial d W p Hin). lia.
Qed.

Lemma CreatePR_Ok_inv (title : string) (authorID : Z) s r s' :
  consistent (database s) →
  CreatePR title authorID s = (Ok r, s') →
  ∃ author,
    author ∈ users (database s) ∧ ID author = authorID
    ∧ IsActive author = true
    ∧ PR_of r = mkPR (prs_id_seq (database s) + 1) title authorID
                     PRStatusOpen (now (database s))
    ∧ users (database s') = users (database s)
    ∧ select_reviewers (PR_ID (PR_of r)) (database s')
      = (Ok (Reviewers r), database s')
    ∧ match TeamID author with
      | None =>
          pr_reviewers (database s') = pr_reviewers (database s)
          ∧ rand s' = rand s
          ∧ calls_since s s'
            = [CallGetUserByID authorID;
               CallCreatePR (mkPR 0 title authorID PRStatusOpen 0)]
      | Some t =>
          let filtered :=
            filter (λ u, ID u ≠ authorID)
              (filter (λ u, TeamID u = Some t ∧ IsActive u = true)
                 (users (database s))) in
          ∃ idxs,
            NoDup idxs
            ∧ (∀ i, i ∈ idxs → 0 ≤ i < len filtered)
            ∧ len idxs = Z.min 2 (len filtered)
            ∧ (len filtered ≤ 2 →
               idxs = seqZ 0 (len filtered) ∧ rand s' = rand s)
            ∧ Forall2 (λ i u, filtered !! Z.to_nat i = Some u)
                      idxs (Reviewers r)
            ∧ pr_reviewers (database s')
              = pr_reviewers (database s)
                ++ (pair (PR_ID (PR_of r)) <$> (ID <$> Reviewers r))
            ∧ calls_since s s'
              = [CallGetUserByID authorID;
                 CallCreatePR (mkPR 0 title authorID PRStatusOpen 0);
                 CallListActiveUsersInTeam t]
                ++ (if decide (idxs = []) then []
                    else [CallAssignReviewers (PR_ID (PR_of r))
                            (ID <$> Reviewers r)])
                ++ [CallGetReviewersByPR (PR_ID (PR_of r))]
      end.
Proof.
  intros W E. unfold CreatePR in E. unfold bind_or at 1 in E.
  next_call E as a e s1 E1.
  apply statement_call_inv in E1 as (author & d & E1 & -> & ->).
  apply select_user_Ok in E1 as (-> & Hauthor & Hid).
  destruct (IsActive author) eqn:Hactive; [|discriminate E]. simpl in E.
  unfold bind at 1 in E. next_call E as a e s2 E2.
  apply statement_call_inv in E2 as (pr & d2 & E2 & -> & ->).
  rewrite database_after_call in E2. unfold insert_pr in E2. simpl in E2.
  case_decide as Hfk; [|discriminate E2]. injection E2 as <- <-.
  simpl in E. set (prID := prs_id_seq (database s) + 1) in *.
  exists author. do 3 (split; [done|]).
  destruct (TeamID author) as [t|] eqn:Ht.
  2:{ unfold ret in E. injection E as <- <-. simpl.
      rewrite !database_after_call. simpl.
      split; [done|]. split; [done|]. split.
      { unfold select_reviewers, reviewers_of. simpl. do 2 f_equal.
        rewrite (filter_none _ (pr_reviewers (database s))); [done|].
        intros r0 Hr0. by apply (no_reviewers_of_next_pr _ _ W). }
      split; [done|]. split; [done|].
      unfold calls_since. erewrite events_since_app; [|
        rewrite !journal_after_call, <- !app_assoc; reflexivity].
      done. }
  unfold bind at 1 in E. next_call E as a e s3 E3.
  apply statement_call_inv in E3 as (candidates & d3 & E3 & -> & ->).
  unfold select_active_users, active_users in E3. simpl in E3.
  injection E3 as <- <-.
  set (filtered := filter (λ u, ID u ≠ authorID) (filter _ _)) in *.
  unfold bind at 1 in E.
  match type of E with context [after_call ?a ?b ?c ?d] =>
    remember (after_call a b c d) as s3 eqn:Hs3 end.
  assert (users (database s3) = users (database s)) as Husers by (by subst s3).
  assert (pr_reviewers (database s3) = pr_reviewers (database s)) as Hrows
    by (by subst s3).
  assert (rand s3 = rand s) as Hrand by (by subst s3).
  assert (journal s3 = journal s
            ++ [mkEvent (CallGetUserByID authorID) None;
                mkEvent (CallCreatePR (mkPR 0 title authorID PRStatusOpen 0)) None;
                mkEvent (CallListActiveUsersInTeam t) None]) as Hlog.
  { subst s3. rewrite !journal_after_call, <- !app_assoc. done. }
  clear Hs3.
  assert (∀ u, u ∈ filtered → u ∈ users (database s)) as Hfiltered.
  { intros u Hu. by do 2 apply list_elem_of_filter in Hu as [_ Hu]. }
  assert (NoDup (ID <$> filtered)) as Hnd.
  { apply (sublist_NoDup _ (ID <$> users (database s))); [apply W|].
    apply fmap_sublist. etrans; apply sublist_filter. }
  set (count := if decide (len filtered < 2) then len filtered else 2) in *.
  assert (count = Z.min 2 (len filtered)) as Hcount.
  { unfold count. destruct (decide (len filtered < 2)); lia. }
  match type of E with (let (_, _) := ?b in _) = _ =>
    destruct b as [[chosenIDs|e|] s5] eqn:Eb; try discriminate E end.
  assert (∃ idxs us,
    chosenIDs = ID <$> us
    ∧ NoDup idxs ∧ (∀ i, i ∈ idxs → 0 ≤ i < len filtered)
    ∧ len idxs = count
    ∧ (len filtered ≤ 2 → idxs = seqZ 0 (len filtered) ∧ rand s5 = rand s3)
    ∧ Forall2 (λ i u, filtered !! Z.to_nat i = Some u) idxs us
    ∧ users (database s5) = users (database s3)
    ∧ pr_reviewers (database s5)
      = pr_reviewers (database s3) ++ (pair prID <$> (ID <$> us))
    ∧ journal s5
      = journal s3 ++ (if decide (idxs = []) then []
                       else [mkEvent (CallAssignReviewers prID (ID <$> us)) None]))
    as (idxs & us & -> & Hndi & Hrange & Hlen & Hsmall & Hpick & Husers5 & Hrows5 & Hlog5).
  { destruct (decide (count > 0)) as [Hpos|Hzero].
    - unfold bind at 1 in Eb.
      destruct (randomSample_returns (len filtered) count s3)
        as (idxs & s4 & Es & Hlen & Hndi & Hrange); [unfold len; lia..|].
      pose proof (randomSample_keeps_repo (len filtered) count s3) as Hrepo.
      rewrite Es in Eb, Hrepo. simpl in Hrepo.
      unfold bind at 1 in Eb.
      destruct (collect_ids_in_range filtered idxs [] s4 Hrange)
        as (us & Hpick & Ec).
      rewrite Ec in Eb. simpl in Eb.
      unfold bind at 1 in Eb. rewrite s_repo_record_eq in Eb.
      destruct (AssignReviewers prID (ID <$> us) (repo s4).1)
        as [[[]|e|] p5] eqn:Ea; simpl in Eb; try discriminate Eb.
      unfold ret in Eb. injection Eb as <- <-.
      apply AssignReviewers_Ok in Ea as [Hdb5 _].
      + exists idxs, us. split; [done|]. split; [done|]. split; [done|].
        split; [unfold len; lia|]. split.
        { intros Hsm.
          assert (0 ≤ len filtered ≤ count) as Hw by (unfold len in *; lia).
          pose proof (randomSample_whole_pool (len filtered) count s3 Hw) as Ew.
          rewrite Es in Ew. by injection Ew as -> ->. }
        split; [done|]. unfold database, pool, journal. simpl.
        rewrite Hdb5, Hrepo. simpl. split; [done|]. split; [done|].
        rewrite decide_False; [done|].
        intros ->. simpl in Hlen. lia.
      + eapply picked_rows_distinct; [done..| |done].
        intros i Hi. apply Hrange in Hi. lia.
      + intros uid Huid Hin. rewrite Hrepo in Hin.
        change (db (repo s3).1) with (database s3) in Hin. rewrite Hrows in Hin.
        by apply (no_reviewers_of_next_pr _ _ W) in Hin.
    - unfold ret in Eb. injection Eb as <- <-.
      exists [], []. split; [done|]. split; [constructor|].
      split; [intros i Hi; by apply elem_of_nil in Hi|].
      split; [unfold len in *; simpl; lia|]. split.
      { intros _. split; [|done]. rewrite seqZ_nil; [done|unfold len in *; lia]. }
      split; [constructor|]. simpl. by rewrite !app_nil_r. }
  clear Eb.
  unfold bind at 1 in E. next_call E as a e s6 E6.
  apply statement_call_inv in E6 as (revs & d6 & E6 & -> & ->).
  assert (∀ u, u ∈ us → u ∈ users (database s)) as Hus.
  { intros u Hu. eapply Hfiltered, picked_rows_elem; done. }
  rewrite (reread_picked_rows (database s5) prID us (pr_reviewers (database s)))
    in E6.
  2:{ rewrite Husers5, Husers. apply W. }
  2:{ intros u Hu. rewrite Husers5, Husers. by apply Hus. }
  2:{ by rewrite Hrows5, Hrows. }
  2:{ intros r0 Hr0. by apply (no_reviewers_of_next_pr _ _ W). }
  injection E6 as <- <-. unfold ret in E. injection E as <- <-. simpl.
  rewrite !database_after_call.
  split; [done|]. split; [by rewrite Husers5, Husers|].
  split.
  { apply (reread_picked_rows _ prID us (pr_reviewers (database s))).
    - rewrite Husers5, Husers. apply W.
    - intros u Hu. rewrite Husers5, Husers. by apply Hus.
    - by rewrite Hrows5, Hrows.
    - intros r0 Hr0. by apply (no_reviewers_of_next_pr _ _ W). }
  exists idxs. split; [done|]. split; [done|].
  split; [by rewrite Hlen|]. split.
  { intros Hsm. destruct (Hsmall Hsm) as [-> Hr5]. split; [done|].
    simpl. congruence. }
  split; [done|]. split; [by rewrite Hrows5, Hrows|].
  unfold calls_since.
  erewrite events_since_app.
  2:{ rewrite journal_after_call, Hlog5, Hlog, <- !app_assoc. reflexivity. }
  rewrite !fmap_app. simpl. by case_decide.
Qed.
End CreatePR_inversion.

Section CreatePR_claims.
Import repository postgres service.
Context `{RandSource Rng}.
Implicit Types s : Engine Rng.

(** Two rows of [users] with the same identifier are the same row. *)
Lemma users_pkey_unique (d : DB) (u u' : User) :
  consistent d → u ∈ users d → u' ∈ users d → ID u = ID u' → u = u'.
Proof.
  intros W Hu Hu' E.
  pose proof (filter_key_singleton ID (users d) u (users_pkey d W) Hu) as F.
  assert (u' ∈ filter (λ x, ID x = ID u) (users d)) as Hin
    by (apply list_elem_of_filter; done).
  rewrite F in Hin. by apply list_elem_of_singleton in Hin.
Qed.


End CreatePR_claims.


(** C6. A successful [CreatePR] by an author without a team returns no
    reviewer; the only calls it made to storage are the look-up of the
    author and the insertion of the PR, so [ListActiveUsersInTeam] and
    [AssignReviewers] were not called, and no assignment was written. *)
Theorem CreatePR_without_team_short_circuits `{RandSource Rng}
    (title : string) (authorID : Z) (author : User)
    (s s' : Engine Rng) (r : PRWithReviewers) :
  postgres.consistent (database s) →
  author ∈ postgres.users (database s) → ID author = authorID →
  TeamID author = None →
  service.CreatePR title authorID s = (Ok r, s') →
  Reviewers r = []
  ∧ calls_since s s'
    = [repository.CallGetUserByID authorID;
       repository.CallCreatePR (mkPR 0 title authorID PRStatusOpen 0)]
  ∧ (∀ teamID, repository.CallListActiveUsersInTeam teamID ∉ calls_since s s')
  ∧ (∀ prID userIDs,
       repository.CallAssignReviewers prID userIDs ∉ calls_since s s')
  ∧ postgres.pr_reviewers (database s') = postgres.pr_reviewers (database s).
Proof.
  intros W Hauthor Hid Ht E.
  destruct (CreatePR_Ok_inv title authorID s r s' W E)
    as (author' & Hauthor' & Hid' & _ & Hpr & Husers & Hread & Hteam).
  assert (author' = author) as ->
    by (apply (users_pkey_unique (database s)); congruence).
  rewrite Ht in Hteam. destruct Hteam as (Hrows & _ & Hcalls).
  split.
  { unfold postgres.select_reviewers in Hread. injection Hread as <-.
    unfold postgres.reviewers_of. rewrite Hrows, filter_none; [done|].
    intros r0 Hr0. rewrite Hpr. simpl.
    by apply (no_reviewers_of_next_pr _ _ W). }
  split; [done|]. rewrite Hcalls.
  split; [|split; [|done]]; intros; intros Hin;
    repeat (apply elem_of_cons in Hin as [Hin|Hin]; [discriminate Hin|]);
    by apply elem_of_nil in Hin.
Qed.


(** ** Reading through a healthy connection *)

Section read_facts.
Import repository postgres service.
Context `{RandSource Rng}.
Implicit Types s : Engine Rng.

Lemma select_pr_found (d : DB) (p : PR) :
  consistent d → p ∈ prs d → select_pr (PR_ID p) d = (Ok p, d).
Proof.
  intros W Hp. unfold select_pr.
  by rewrite (filter_key_singleton PR_ID) by (try done; apply W).
Qed.

Lemma select_user_found (d : DB) (u : User) :
  consistent d → u ∈ users d → select_user (ID u) d = (Ok u, d).
Proof.
  intros W Hu. unfold select_user.
  by rewrite (filter_key_singleton ID) by (try done; apply W).
Qed.

Lemma GetPRByID_found s (p : PR) :
  healthy 1 (pool s) → consistent (database s) → p ∈ prs (database s) →
  s_repo (repository.GetPRByID (PR_ID p)) s
  = (Ok p, after_call s (database s) (CallGetPRByID (PR_ID p)) None).
Proof.
  intros Hh W Hp.
  pose proof (statement_call_healthy (CallGetPRByID (PR_ID p))
                (select_pr (PR_ID p)) "get PR: " (λ x, x) s Hh) as E.
  by rewrite select_pr_found in E.
Qed.

Lemma GetUserByID_found s (u : User) :
  healthy 1 (pool s) → consistent (database s) → u ∈ users (database s) →
  s_repo (repository.GetUserByID (ID u)) s
  = (Ok u, after_call s (database s) (CallGetUserByID (ID u)) None).
Proof.
  intros Hh W Hu.
  pose proof (statement_call_healthy (CallGetUserByID (ID u))
                (select_user (ID u)) "get user: " (λ x, x) s Hh) as E.
  by rewrite select_user_found in E.
Qed.

Lemma GetReviewersByPR_healthy s (prID : Z) :
  healthy 1 (pool s) →
  s_repo (repository.GetReviewersByPR prID) s
  = (Ok (reviewers_of prID (database s)),
     after_call s (database s) (CallGetReviewersByPR prID) None).
Proof.
  intros Hh.
  exact (statement_call_healthy (CallGetReviewersByPR prID)
           (select_reviewers prID) "get reviewers by PR: " (λ x, x) s Hh).
Qed.

Lemma ListActiveUsersInTeam_healthy s (teamID : Z) :
  healthy 1 (pool s) →
  s_repo (repository.ListActiveUsersInTeam teamID) s
  = (Ok (active_users teamID (database s)),
     after_call s (database s) (CallListActiveUsersInTeam teamID) None).
Proof.
  intros Hh.
  exact (statement_call_healthy (CallListActiveUsersInTeam teamID)
           (select_active_users teamID) "list active users: " (λ x, x) s Hh).
Qed.

Lemma reviewers_of_ids (prID : Z) (d : DB) :
  consistent d → ID <$> reviewers_of prID d = reviewer_ids prID d.
Proof.
  intros W. apply join_users_ids; [apply W|].
  intros r Hr. apply list_elem_of_filter in Hr as [_ Hr]. by apply W.
Qed.

Lemma has_reviewer_elem (reviewers : list User) (id : Z) :
  has_reviewer reviewers id = true ↔ id ∈ ID <$> reviewers.
Proof.
  unfold has_reviewer. rewrite existsb_exists, list_elem_of_fmap. split.
  - intros (u & Hu%list_elem_of_In & E%bool_decide_eq_true). eauto.
  - intros (u & -> & Hu). exists u. split; [by apply list_elem_of_In|].
    by apply bool_decide_eq_true.
Qed.

End read_facts.

(** ** Reassigning a reviewer *)

Lemma healthy_S (n : nat) (p : postgres.Pool) :
  postgres.healthy (S n) p → postgres.healthy n p.
Proof. apply healthy_le. lia. Qed.

(** The connection stays healthy for the round trips that remain. *)
Ltac solve_healthy :=
  solve [do 8 first [assumption | apply healthy_after_call | apply healthy_S]].

Section ReassignReviewer_facts.
Import repository postgres service.
Context `{RandSource Rng}.
Implicit Types s : Engine Rng.

Lemma calls_since_journal s s' (evs : list Event) :
  journal s' = journal s ++ evs → calls_since s s' = call <$> evs.
Proof. intros E. unfold calls_since. by rewrite (events_since_app s s' evs). Qed.

(** The pool the engine filters is the eligible replacements. *)
Lemma replacement_pool_eligible (pr : PR) (oldUserID t : Z) (d : DB) :
  consistent d →
  replacement_pool pr oldUserID (reviewers_of (PR_ID pr) d) (active_users t d)
  = eligible_replacements pr oldUserID t d.
Proof.
  intros W. unfold replacement_pool, active_users, eligible_replacements.
  rewrite list_filter_filter. apply list_filter_iff. intros u.
  rewrite <- (reviewers_of_ids _ _ W), <- has_reviewer_elem.
  destruct (has_reviewer _ _); intuition congruence.
Qed.

(** The reads of a reassignment, on a healthy connection, up to the
    check that the old reviewer is assigned. *)
Lemma ReassignReviewer_reads s (pr : PR) (oldUser : User) (t : Z) :
  consistent (database s) → healthy 3 (pool s) →
  pr ∈ prs (database s) → Status pr ≠ PRStatusMerged →
  oldUser ∈ users (database s) → TeamID oldUser = Some t →
  let s3 := after_call
              (after_call
                 (after_call s (database s) (CallGetPRByID (PR_ID pr)) None)
                 (database s) (CallGetUserByID (ID oldUser)) None)
              (database s) (CallGetReviewersByPR (PR_ID pr)) None in
  ReassignReviewer (PR_ID pr) (ID oldUser) s
  = if negb (has_reviewer (reviewers_of (PR_ID pr) (database s)) (ID oldUser))
    then (Err (Errorf_w ErrBadRequest "reviewer is not assigned to this PR"), s3)
    else
      (let* candidates := s_repo (repository.ListActiveUsersInTeam t) in
       let filtered :=
         replacement_pool pr (ID oldUser)
           (reviewers_of (PR_ID pr) (database s)) candidates in
       if decide (len filtered = 0)
       then fail (Errorf_w ErrNoCandidate "no active candidates to reassign")
       else
         let* newIdx := s_rand_Intn (len filtered) in
         match index filtered newIdx with
         | None => panic
         | Some newUser =>
             let* _ := s_repo (repository.ReplaceReviewer (PR_ID pr)
                                 (ID oldUser) (ID newUser)) in
             let* revs := s_repo (repository.GetReviewersByPR (PR_ID pr)) in
             ret (mkPRWithReviewers pr revs)
         end) s3.
Proof.
  intros W Hh Hpr Hopen Hold Ht s3.
  unfold ReassignReviewer. unfold bind_or at 1.
  rewrite GetPRByID_found by (try done; solve_healthy).
  rewrite decide_False by done.
  unfold bind_or at 1.
  rewrite GetUserByID_found by (try done; solve_healthy).
  rewrite Ht. unfold bind at 1.
  rewrite GetReviewersByPR_healthy by solve_healthy.
  fold s3. by destruct (has_reviewer _ _).
Qed.

End ReassignReviewer_facts.

(** C4. [ReassignReviewer] on a PR it reads back as [MERGED] fails with an
    error that is [ErrPRMerged] and is not [ErrBadRequest]; the look-up of
    the PR is the only call it made to storage, and the database is as it
    was. *)
Theorem ReassignReviewer_on_merged_PR_fails_PRMerged `{RandSource Rng}
    (prID oldUserID : Z) (pr : PR) (s : Engine Rng) :
  postgres.consistent (database s) → postgres.healthy 1 (pool s) →
  pr ∈ postgres.prs (database s) → PR_ID pr = prID →
  Status pr = PRStatusMerged →
  ∃ e s',
    service.ReassignReviewer prID oldUserID s = (Err e, s')
    ∧ e = service.Errorf_w service.ErrPRMerged "cannot reassign merged pr"
    ∧ errors_Is e service.ErrPRMerged = true
    ∧ errors_Is e service.ErrBadRequest = false
    ∧ database s' = database s
    ∧ calls_since s s' = [repository.CallGetPRByID prID].
Proof.
  intros W Hh Hpr <- Hmerged. eexists _, _.
  unfold service.ReassignReviewer. unfold bind_or at 1.
  rewrite GetPRByID_found by done. rewrite decide_True by done.
  unfold fail. split; [reflexivity|]. split; [done|]. split; [done|].
  split; [done|]. split; [done|].
  by apply (calls_since_journal s _ [repository.mkEvent _ None]).
Qed.

(** C8, as the code has it. [ReassignReviewer] on a PR that is not merged,
    for a user that exists and has a team but is not among the PR's
    reviewers, fails with an [ErrBadRequest] whose text is
    "bad request: reviewer is not assigned to this PR" (the text the handler
    of the route answers [NOT_ASSIGNED] to); it made three look-ups and no
    write, and the database is as it was. *)
Theorem ReassignReviewer_of_unassigned_user_fails_BadRequest `{RandSource Rng}
    (prID oldUserID t : Z) (pr : PR) (oldUser : User) (s : Engine Rng) :
  postgres.consistent (database s) → postgres.healthy 3 (pool s) →
  pr ∈ postgres.prs (database s) → PR_ID pr = prID →
  Status pr ≠ PRStatusMerged →
  oldUser ∈ postgres.users (database s) → ID oldUser = oldUserID →
  TeamID oldUser = Some t →
  oldUserID ∉ postgres.reviewer_ids prID (database s) →
  ∃ e s',
    service.ReassignReviewer prID oldUserID s = (Err e, s')
    ∧ e = service.Errorf_w service.ErrBadRequest
            "reviewer is not assigned to this PR"
    ∧ errors_Is e service.ErrBadRequest = true
    ∧ Error e = "bad request: reviewer is not assigned to this PR"
    ∧ api.reassign_error e = ("NOT_ASSIGNED", 409)
    ∧ database s' = database s
    ∧ calls_since s s'
      = [repository.CallGetPRByID prID; repository.CallGetUserByID oldUserID;
         repository.CallGetReviewersByPR prID].
Proof.
  intros W Hh Hpr <- Hopen Hold <- Ht Hnot. eexists _, _.
  rewrite (ReassignReviewer_reads s pr oldUser t) by done.
  destruct (service.has_reviewer _ _) eqn:Hhas.
  { apply has_reviewer_elem in Hhas. by rewrite reviewers_of_ids in Hhas. }
  simpl. split; [reflexivity|]. do 4 (split; [done|]). split; [done|].
  apply (calls_since_journal s _ [repository.mkEvent _ None;
           repository.mkEvent _ None; repository.mkEvent _ None]).
  rewrite !journal_after_call, <- !app_assoc. done.
Qed.

(** C7. [ReassignReviewer] on a PR that is not merged, for a reviewer of
    the PR whose team has no eligible replacement, fails with an error that
    is [ErrNoCandidate]; it made four reads and no write, the database is as
    it was, and the old reviewer is still assigned. *)
Theorem ReassignReviewer_without_candidate_fails_NoCandidate `{RandSource Rng}
    (prID oldUserID t : Z) (pr : PR) (oldUser : User) (s : Engine Rng) :
  postgres.consistent (database s) → postgres.healthy 4 (pool s) →
  pr ∈ postgres.prs (database s) → PR_ID pr = prID →
  Status pr ≠ PRStatusMerged →
  oldUser ∈ postgres.users (database s) → ID oldUser = oldUserID →
  TeamID oldUser = Some t →
  oldUserID ∈ postgres.reviewer_ids prID (database s) →
  eligible_replacements pr oldUserID t (database s) = [] →
  ∃ e s',
    service.ReassignReviewer prID oldUserID s = (Err e, s')
    ∧ e = service.Errorf_w service.ErrNoCandidate
            "no active candidates to reassign"
    ∧ errors_Is e service.ErrNoCandidate = true
    ∧ database s' = database s
    ∧ oldUserID ∈ postgres.reviewer_ids prID (database s')
    ∧ calls_since s s'
      = [repository.CallGetPRByID prID; repository.CallGetUserByID oldUserID;
         repository.CallGetReviewersByPR prID;
         repository.CallListActiveUsersInTeam t].
Proof.
  intros W Hh Hpr <- Hopen Hold <- Ht Hin Hnone. eexists _, _.
  rewrite (ReassignReviewer_reads s pr oldUser t) by (try done; solve_healthy).
  destruct (service.has_reviewer _ _) eqn:Hhas.
  2:{ apply not_true_iff_false in Hhas. exfalso. apply Hhas.
      apply has_reviewer_elem. by rewrite reviewers_of_ids. }
  cbn [negb]. unfold bind at 1.
  rewrite ListActiveUsersInTeam_healthy by solve_healthy.
  rewrite !database_after_call.
  rewrite replacement_pool_eligible, Hnone by done.
  simpl. unfold fail. split; [reflexivity|]. do 2 (split; [done|]).
  split; [done|]. split; [done|].
  apply (calls_since_journal s _ [repository.mkEvent _ None;
           repository.mkEvent _ None; repository.mkEvent _ None;
           repository.mkEvent _ None]).
  rewrite !journal_after_call, <- !app_assoc. done.
Qed.

Section ReassignReviewer_inversion.
Import repository postgres service.
Context `{RandSource Rng}.
Implicit Types s : Engine Rng.







End ReassignReviewer_inversion.


(** ** Failures of storage, for any repository *)

Section surfacing.
Import repository service.
Context `{Repository St} `{RandSource Rng}.

Local Abbreviation Svc := (Service (St * list Event) Rng).

Definition clean (evs : list Event) : Prop :=
  Forall (λ ev, failure ev = None) evs.

(** The calls [evs] of an operation account for its result [r]: none
    failed, or the last one did and decided the result. *)
Definition accounted {A} (evs : list Event) (r : outcome A) : Prop :=
  clean evs
  ∨ ∃ evs0 ev e0,
      evs = evs0 ++ [ev] ∧ clean evs0 ∧ failure ev = Some e0
      ∧ ((is_lookup (call ev) = false ∧ r = Err e0)
         ∨ (is_lookup (call ev) = true
            ∧ ∃ e, r = Err e ∧ errors_Is e ErrBadRequest = true)).

Definition surfaces {A} (op : M Svc A) : Prop :=
  ∀ s, ∃ evs, journal (op s).2 = journal s ++ evs ∧ accounted evs (op s).1.

Lemma accounted_Ok_clean {A} (evs : list Event) (a : A) :
  accounted evs (Ok a) → clean evs.
Proof. intros [?|(?&?&?&_&_&_&[[_ ?]|[_ (?&?&_)]])]; done. Qed.

Lemma accounted_app {A} (evs1 evs2 : list Event) (r : outcome A) :
  clean evs1 → accounted evs2 r → accounted (evs1 ++ evs2) r.
Proof.
  intros Hc1 [Hc2|(evs0 & ev & e0 & -> & Hc0 & Hf & Hr)].
  - left. by apply Forall_app.
  - right. exists (evs1 ++ evs0), ev, e0. rewrite app_assoc.
    split; [done|]. split; [by apply Forall_app|]. done.
Qed.

Lemma accounted_Err {A B} (evs : list Event) (e : error) :
  accounted evs (Err e : outcome A) → accounted evs (Err e : outcome B).
Proof.
  intros [?|(evs0 & ev & e0 & ? & ? & ? & Hr)]; [by left|].
  right. exists evs0, ev, e0. do 3 (split; [done|]).
  destruct Hr as [[? [= ->]]|[? (e' & [= ->] & ?)]]; [left|right]; eauto.
Qed.

Lemma accounted_Panic {A B} (evs : list Event) :
  accounted evs (Panic : outcome A) → accounted evs (Panic : outcome B).
Proof.
  intros [?|(?&?&?&_&_&_&[[_ ?]|[_ (?&?&_)]])]; [by left|done..].
Qed.

Lemma surfaces_ret {A} (a : A) : surfaces (ret a : M Svc A).
Proof.
  intros s. exists []. rewrite app_nil_r. split; [done|]. left. constructor.
Qed.

Lemma surfaces_fail {A} (e : error) : surfaces (fail e : M Svc A).
Proof.
  intros s. exists []. rewrite app_nil_r. split; [done|]. left. constructor.
Qed.

Lemma surfaces_panic {A} : surfaces (panic : M Svc A).
Proof.
  intros s. exists []. rewrite app_nil_r. split; [done|]. left. constructor.
Qed.

Lemma surfaces_bind {A B} (c : M Svc A) (k : A → M Svc B) :
  surfaces c → (∀ a, surfaces (k a)) → surfaces (bind c k).
Proof.
  intros Hc Hk s. unfold bind. destruct (Hc s) as (evs1 & J1 & A1).
  destruct (c s) as [[a|e|] s1]; simpl in *;
    [|exists evs1; split; [done|by apply (accounted_Err evs1 e A1)]
     |exists evs1; split; [done|by apply (accounted_Panic evs1 A1)]].
  destruct (Hk a s1) as (evs2 & J2 & A2). exists (evs1 ++ evs2).
  rewrite J2, J1, app_assoc. split; [done|].
  apply accounted_app; [|done]. by eapply accounted_Ok_clean.
Qed.

(** A call that is not a look-up, whose error is returned as it is. *)
Lemma surfaces_call {A} (c : Call) (op : M St A) :
  is_lookup c = false → surfaces (s_repo (record c op)).
Proof.
  intros Hc s. rewrite s_repo_record_eq. simpl.
  eexists [_]. unfold journal at 1. simpl. split; [done|].
  destruct (op (repo s).1) as [[a|e|] st]; simpl;
    [left; repeat constructor| |left; repeat constructor].
  right. exists [], (mkEvent c (Some e)), e. split; [done|].
  split; [constructor|]. split; [done|]. by left.
Qed.

(** A look-up, whose error is turned into an [ErrBadRequest]. *)
Lemma surfaces_lookup {A B} (c : Call) (op : M St A) (h : error → error)
    (k : A → M Svc B) :
  is_lookup c = true → (∀ e, errors_Is (h e) ErrBadRequest = true) →
  (∀ a, surfaces (k a)) →
  surfaces (bind_or (s_repo (record c op)) h k).
Proof.
  intros Hc Hh Hk s. unfold bind_or. rewrite s_repo_record_eq. simpl.
  destruct (op (repo s).1) as [[a|e|] st]; simpl.
  - match goal with |- context [k a ?s1] =>
      destruct (Hk a s1) as (evs & J & Ac); destruct (k a s1) as [r2 s2] end.
    simpl in *. exists ([mkEvent c None] ++ evs). rewrite J.
    unfold journal at 1. simpl. rewrite <- app_assoc. split; [done|].
    apply (accounted_app [_] evs); [repeat constructor|done].
  - eexists [_]. unfold journal at 1. simpl. split; [done|].
    right. exists [], (mkEvent c (Some e)), e. split; [done|].
    split; [constructor|]. split; [done|]. right. split; [done|]. eauto.
  - eexists [_]. unfold journal at 1. simpl. split; [done|].
    left. repeat constructor.
Qed.

Lemma surfaces_randomSample (n k : Z) : surfaces (randomSample n k).
Proof.
  intros s. exists []. rewrite app_nil_r. unfold journal.
  rewrite randomSample_keeps_repo. split; [done|]. left. constructor.
Qed.

Lemma surfaces_s_rand_Intn (n : Z) : surfaces (s_rand_Intn n).
Proof.
  intros s. exists []. rewrite app_nil_r. unfold s_rand_Intn.
  destruct (rand_Intn n (rand s)) as [[x g]|];
    (split; [done|left; constructor]).
Qed.

Lemma surfaces_collect_ids (filtered : list User) (idxs chosenIDs : list Z) :
  surfaces (collect_ids filtered idxs chosenIDs).
Proof.
  revert chosenIDs. induction idxs as [|i idxs IH]; intros chosenIDs; simpl.
  - apply surfaces_ret.
  - destruct (index filtered i); [apply IH|apply surfaces_panic].
Qed.

Lemma surfaces_inv {A} (op : M Svc A) :
  surfaces op →
  ∀ s r s', op s = (r, s') →
            ∃ evs, journal s' = journal s ++ evs ∧ accounted evs r.
Proof. intros Hop s r s' E. specialize (Hop s). by rewrite E in Hop. Qed.

(** What the journal shows of an operation whose calls are accounted
    for. *)
Lemma surfaces_returns_storage_failures {A} (op : M Svc A) :
  surfaces op → returns_storage_failures op.
Proof.
  intros Hop s r s' ev e E Hev Hf.
  destruct (Hop s) as (evs & J & Ac). rewrite E in J, Ac. simpl in *.
  rewrite (events_since_app s s' evs J) in Hev.
  destruct Ac as [Hclean|(evs0 & ev0 & e0 & -> & Hclean & Hf0 & Hr)].
  { eapply Forall_forall in Hclean; [|done]. simpl in Hclean. congruence. }
  apply elem_of_app in Hev as [Hev|Hev%list_elem_of_singleton].
  { eapply Forall_forall in Hclean; [|done]. simpl in Hclean. congruence. }
  subst ev0. assert (e0 = e) as -> by congruence.
  destruct Hr as [[Hl ->]|[Hl Hr]]; split; intros; try congruence; done.
Qed.

End surfacing.

Create HintDb surfacing.
#[export] Hint Resolve surfaces_ret surfaces_fail surfaces_panic
  surfaces_randomSample surfaces_s_rand_Intn surfaces_collect_ids : surfacing.

(** Account for the calls of an operation, call by call. *)
Ltac surfacing :=
  repeat first
    [ apply surfaces_ret | apply surfaces_fail | apply surfaces_panic
    | apply surfaces_randomSample | apply surfaces_s_rand_Intn
    | apply surfaces_collect_ids
    | apply surfaces_lookup; [reflexivity | intros; reflexivity | intros]
    | apply surfaces_call; reflexivity
    | apply surfaces_bind; [|intros]
    | match goal with
      | |- surfaces (if ?b then _ else _) => destruct b
      | |- surfaces (match ?o with _ => _ end) => destruct o
      end ].

Section operations_surface.
Import repository service.
Context `{Repository St} `{RandSource Rng}.

Lemma CreateTeam_surfaces (name : string) :
  surfaces (CreateTeam (St := St * list Event) (Rng := Rng) name).
Proof. unfold CreateTeam. surfacing. Qed.

Lemma CreateUser_surfaces (teamID : option Z) (name : string) (isActive : bool) :
  surfaces (CreateUser (St := St * list Event) (Rng := Rng) teamID name isActive).
Proof. unfold CreateUser. surfacing. Qed.

Lemma CreatePR_surfaces (title : string) (authorID : Z) :
  surfaces (CreatePR (St := St * list Event) (Rng := Rng) title authorID).
Proof. unfold CreatePR. surfacing. Qed.

Lemma ReassignReviewer_surfaces (prID oldUserID : Z) :
  surfaces (ReassignReviewer (St := St * list Event) (Rng := Rng) prID oldUserID).
Proof. unfold ReassignReviewer. surfacing. Qed.

Lemma ListPRsAssignedToUser_surfaces (userID : Z) :
  surfaces (ListPRsAssignedToUser (St := St * list Event) (Rng := Rng) userID).
Proof. unfold ListPRsAssignedToUser. surfacing. Qed.

Lemma StatsAssignments_surfaces :
  surfaces (StatsAssignments (St := St * list Event) (Rng := Rng)).
Proof. unfold StatsAssignments. surfacing. Qed.

(** [MergePR] past the look-up of a PR that is [OPEN]. *)
Lemma MergePR_open_surfaces (prID : Z) (pr : PR) :
  surfaces
    (let* _ := s_repo (SetPRStatus (St := St * list Event) prID PRStatusMerged) in
     let pr := mkPR (PR_ID pr) (Title pr) (AuthorID pr) PRStatusMerged
                    (PR_CreatedAt pr) in
     let* revs := s_repo (GetReviewersByPR prID) in
     ret (mkPRWithReviewers pr revs) : M (Service (St * list Event) Rng) _).
Proof. surfacing. Qed.

Lemma MergePR_returns_storage_failures (prID : Z)
    (s s' : Service (St * list Event) Rng) r ev e :
  MergePR prID s = (r, s') →
  ev ∈ events_since s s' →
  failure ev = Some e →
  (is_lookup (call ev) = true →
   ∃ e', r = Err e' ∧ errors_Is e' ErrBadRequest = true)
  ∧ (is_lookup (call ev) = false →
     CallSetPRStatus prID PRStatusMerged ∈ calls_since s s' →
     r = Err e).
Proof.
  unfold MergePR, bind_or.
  change (s_repo (GetPRByID prID) s)
    with (s_repo (record (CallGetPRByID prID) (GetPRByID prID)) s).
  rewrite s_repo_record_eq.
  destruct (GetPRByID prID (repo s).1) as [[pr|e0|] st1] eqn:E1; cbn [fst snd].
  - case_decide as Hmerged; [|case_decide as Hopen].
    + unfold bind_ignoring.
      match goal with |- context [s_repo (GetReviewersByPR prID) ?s1] =>
        change (s_repo (GetReviewersByPR prID) s1)
          with (s_repo (record (CallGetReviewersByPR prID)
                          (GetReviewersByPR prID)) s1) end.
      rewrite s_repo_record_eq.
      destruct (GetReviewersByPR prID _) as [[revs|e1|] st2]; simpl;
        intros [= <- <-] Hev Hf;
        unfold calls_since;
        rewrite (events_since_app s _ [mkEvent (CallGetPRByID prID) None;
                   mkEvent (CallGetReviewersByPR prID) _]) in *
          by (unfold journal; simpl; by rewrite <- app_assoc);
        (split; [intros Hl|intros _ Hin]);
        repeat (apply elem_of_cons in Hev as [->|Hev]; simpl in *; try done);
        try (by apply elem_of_nil in Hev);
        repeat (apply elem_of_cons in Hin as [Hin|Hin]; try done);
        by apply elem_of_nil in Hin.
    + unfold fail. intros [= <- <-] Hev Hf.
      rewrite (events_since_app s _ [mkEvent (CallGetPRByID prID) None]) in Hev
        by done.
      apply list_elem_of_singleton in Hev as ->. done.
    + intros E Hev Hf.
      apply (surfaces_inv _ (MergePR_open_surfaces prID pr)) in E
        as (evs & J & Ac).
      rewrite (events_since_app s s' ([mkEvent (CallGetPRByID prID) None] ++ evs))
        in Hev by (rewrite J; unfold journal; simpl; by rewrite <- app_assoc).
      apply elem_of_app in Hev as [Hev%list_elem_of_singleton|Hev];
        [by subst ev|].
      destruct Ac as [Hclean|(evs0 & ev0 & e0 & -> & Hclean & Hf0 & Hr)].
      { eapply Forall_forall in Hclean; [|done]. simpl in Hclean. congruence. }
      apply elem_of_app in Hev as [Hev|Hev%list_elem_of_singleton].
      { eapply Forall_forall in Hclean; [|done]. simpl in Hclean. congruence. }
      subst ev0. assert (e0 = e) as -> by congruence.
      destruct Hr as [[Hl ->]|[Hl Hr]]; split; intros; try congruence; done.
  - intros [= <- <-] Hev Hf.
    rewrite (events_since_app s _ [mkEvent (CallGetPRByID prID) (Some e0)]) in Hev
      by done.
    apply list_elem_of_singleton in Hev as ->. simpl in *.
    split; [eauto|done].
  - intros [= <- <-] Hev Hf.
    rewrite (events_since_app s _ [mkEvent (CallGetPRByID prID) None]) in Hev
      by done.
    apply list_elem_of_singleton in Hev as ->. done.
Qed.

End operations_surface.

(** C9, as the code has it. In [CreateTeam], [CreateUser], [CreatePR],
    [ReassignReviewer], [ListPRsAssignedToUser] and [StatsAssignments], over
    any repository, the error of a failed storage call that is not a look-up
    by identifier ([GetTeamByID], [GetUserByID], [GetPRByID]) is the error
    the operation returns, unchanged; a failed look-up is reported as an
    [ErrBadRequest].  [MergePR] does the same once it has called
    [SetPRStatus]. *)
Theorem storage_failures_are_returned_unchanged
    `{repository.Repository St} `{RandSource Rng} :
  (∀ name,
     returns_storage_failures
       (service.CreateTeam (St := St * list repository.Event) (Rng := Rng) name))
  ∧ (∀ teamID name isActive,
       returns_storage_failures
         (service.CreateUser (St := St * list repository.Event) (Rng := Rng)
            teamID name isActive))
  ∧ (∀ title authorID,
       returns_storage_failures
         (service.CreatePR (St := St * list repository.Event) (Rng := Rng)
            title authorID))
  ∧ (∀ prID oldUserID,
       returns_storage_failures
         (service.ReassignReviewer (St := St * list repository.Event) (Rng := Rng)
            prID oldUserID))
  ∧ (∀ userID,
       returns_storage_failures
         (service.ListPRsAssignedToUser (St := St * list repository.Event)
            (Rng := Rng) userID))
  ∧ returns_storage_failures
      (service.StatsAssignments (St := St * list repository.Event) (Rng := Rng))
  ∧ (∀ prID (s s' : Service (St * list repository.Event) Rng) r ev e,
       service.MergePR prID s = (r, s') →
       ev ∈ events_since s s' →
       repository.failure ev = Some e →
       (repository.is_lookup (repository.call ev) = true →
        ∃ e', r = Err e' ∧ errors_Is e' service.ErrBadRequest = true)
       ∧ (repository.is_lookup (repository.call ev) = false →
          repository.CallSetPRStatus prID PRStatusMerged ∈ calls_since s s' →
          r = Err e)).
Proof.
  split; [intros; apply surfaces_returns_storage_failures, CreateTeam_surfaces|].
  split; [intros; apply surfaces_returns_storage_failures, CreateUser_surfaces|].
  split; [intros; apply surfaces_returns_storage_failures, CreatePR_surfaces|].
  split; [intros; apply surfaces_returns_storage_failures,
            ReassignReviewer_surfaces|].
  split; [intros; apply surfaces_returns_storage_failures,
            ListPRsAssignedToUser_surfaces|].
  split; [apply surfaces_returns_storage_failures, StatsAssignments_surfaces|].
  intros prID s s' r ev e. apply MergePR_returns_storage_failures.
Qed.

(** ** Merging *)

Section MergePR_facts.
Import repository postgres service.
Context `{RandSource Rng}.
Implicit Types s : Engine Rng.

Lemma healthy_1_head (p : Pool) :
  (∀ e, head (faults p) ≠ Some (Some e)) → healthy 1 p.
Proof.
  unfold healthy. destruct (faults p) as [|[e|] rest]; simpl; intros Hh.
  - constructor.
  - by destruct (Hh e).
  - rewrite take_0. by repeat constructor.
Qed.

(** Reading the reviewers leaves the database alone, whether the round
    trip fails or not. *)
Lemma GetReviewersByPR_cases s (prID : Z) :
  ∃ o f,
    s_repo (repository.GetReviewersByPR prID) s
    = (o, after_call s (database s) (CallGetReviewersByPR prID) f)
    ∧ o ≠ Panic.
Proof.
  destruct (head (faults (pool s))) as [[e|]|] eqn:Hh.
  - eexists _, _. split; [|shelve].
    exact (statement_call_fault (CallGetReviewersByPR prID)
             (select_reviewers prID) "get reviewers by PR: " (λ x, x) s e Hh).
    Unshelve. done.
  - eexists _, _. split; [apply GetReviewersByPR_healthy|done].
    apply healthy_1_head. intros e. by rewrite Hh.
  - eexists _, _. split; [apply GetReviewersByPR_healthy|done].
    apply healthy_1_head. intros e. by rewrite Hh.
Qed.

Lemma MergePR_merged_healthy s (pr : PR) :
  consistent (database s) → healthy 2 (pool s) →
  pr ∈ prs (database s) → Status pr = PRStatusMerged →
  MergePR (PR_ID pr) s
  = (Ok (mkPRWithReviewers pr (reviewers_of (PR_ID pr) (database s))),
     after_call
       (after_call s (database s) (CallGetPRByID (PR_ID pr)) None)
       (database s) (CallGetReviewersByPR (PR_ID pr)) None).
Proof.
  intros W Hh Hpr Hmerged. unfold MergePR. unfold bind_or at 1.
  rewrite GetPRByID_found by (try done; solve_healthy).
  rewrite decide_True by done. unfold bind_ignoring.
  rewrite GetReviewersByPR_healthy by solve_healthy. done.
Qed.

End MergePR_facts.

(** C5. [MergePR] on a PR it reads back as [MERGED] succeeds and writes
    nothing: the look-up of the PR and the reading of its reviewers are the
    only calls it made, and the database is as it was.  On a connection that
    stays healthy it returns the PR as stored, status [MERGED], with the
    reviewers stored for it, and a second [MergePR] returns the same
    result.  The reviewers of the answer are those stored only on such a
    connection: [revs, _ := s.repo.GetReviewersByPR(ctx, prID)] drops the
    error of the read, where the branch of an [OPEN] PR returns it. *)
Theorem MergePR_of_merged_PR_is_idempotent `{RandSource Rng} :
  (∀ (prID : Z) (pr : PR) (s : Engine Rng),
     postgres.consistent (database s) → postgres.healthy 1 (pool s) →
     pr ∈ postgres.prs (database s) → PR_ID pr = prID →
     Status pr = PRStatusMerged →
     ∃ r s',
       service.MergePR prID s = (Ok r, s')
       ∧ PR_of r = pr
       ∧ database s' = database s
       ∧ calls_since s s'
         = [repository.CallGetPRByID prID;
            repository.CallGetReviewersByPR prID])
  ∧ (∀ (prID : Z) (pr : PR) (s : Engine Rng),
       postgres.consistent (database s) → postgres.healthy 4 (pool s) →
       pr ∈ postgres.prs (database s) → PR_ID pr = prID →
       Status pr = PRStatusMerged →
       ∃ r s1 s2,
         service.MergePR prID s = (Ok r, s1)
         ∧ service.MergePR prID s1 = (Ok r, s2)
         ∧ PR_of r = pr ∧ Status (PR_of r) = PRStatusMerged
         ∧ Reviewers r = postgres.reviewers_of prID (database s)
         ∧ ID <$> Reviewers r = postgres.reviewer_ids prID (database s)
         ∧ database s1 = database s ∧ database s2 = database s).
Proof.
  split.
  - intros prID pr s W Hh Hpr <- Hmerged.
    unfold service.MergePR. unfold bind_or at 1.
    rewrite GetPRByID_found by done. rewrite decide_True by done.
    unfold bind_ignoring.
    match goal with |- context [service.s_repo _ ?s1] =>
      destruct (GetReviewersByPR_cases s1 (PR_ID pr)) as (o & f & -> & Ho) end.
    destruct o as [revs|e|]; [| |done]; eexists _, _;
      (split; [reflexivity|]); (split; [done|]); (split; [done|]);
      apply (calls_since_journal s _ [repository.mkEvent _ None;
                                      repository.mkEvent _ f]);
      rewrite !journal_after_call, <- !app_assoc; done.
  - intros prID pr s W Hh Hpr <- Hmerged.
    pose proof (MergePR_merged_healthy s pr W ltac:(solve_healthy) Hpr Hmerged)
      as E1.
    set (s1 := after_call (after_call s _ _ _) _ _ _) in E1.
    assert (postgres.healthy 2 (pool s1)) as Hh1 by (subst s1; solve_healthy).
    pose proof (MergePR_merged_healthy s1 pr W Hh1 Hpr Hmerged) as E2.
    eexists _, s1, _. split; [exact E1|]. split; [exact E2|]. simpl.
    do 3 (split; [done|]). split; [by apply reviewers_of_ids|]. done.
Qed.

(** ** The constraints of the schema hold after every operation *)

Section invariant.
Import postgres.

(** [op] keeps the constraints of the database that [get] reads off the
    state. *)
Definition keeps {S A} (get : S → DB) (op : M S A) : Prop :=
  ∀ s, consistent (get s) → consistent (get (op s).2).

Context {S : Type} (get : S → DB).

Lemma keeps_ret {A} (a : A) : keeps get (ret a).
Proof. by intros s. Qed.

Lemma keeps_fail {A} (e : error) : keeps get (fail e : M S A).
Proof. by intros s. Qed.

Lemma keeps_panic {A} : keeps get (panic : M S A).
Proof. by intros s. Qed.

Lemma keeps_bind {A B} (c : M S A) (k : A → M S B) :
  keeps get c → (∀ a, keeps get (k a)) → keeps get (bind c k).
Proof.
  intros Hc Hk s W. unfold bind. specialize (Hc s W).
  destruct (c s) as [[a|e|] s1]; simpl in *; [by apply Hk|done..].
Qed.

Lemma keeps_bind_or {A B} (c : M S A) (h : error → error) (k : A → M S B) :
  keeps get c → (∀ a, keeps get (k a)) → keeps get (bind_or c h k).
Proof.
  intros Hc Hk s W. unfold bind_or. specialize (Hc s W).
  destruct (c s) as [[a|e|] s1]; simpl in *; [by apply Hk|done..].
Qed.

Lemma keeps_bind_ignoring {A B} (c : M S A) (a0 : A) (k : A → M S B) :
  keeps get c → (∀ a, keeps get (k a)) → keeps get (bind_ignoring c a0 k).
Proof.
  intros Hc Hk s W. unfold bind_ignoring. specialize (Hc s W).
  destruct (c s) as [[a|e|] s1]; simpl in *; [by apply Hk..|done].
Qed.

End invariant.

Section postgres_invariant.
Import postgres.

Lemma keeps_round_trip {A} (stmt : DB → outcome A * DB) :
  (∀ d, consistent d → consistent (stmt d).2) → keeps db (round_trip stmt).
Proof.
  intros Hstmt p W. destruct (round_trip_db stmt p) as [-> | ->]; auto.
Qed.

Lemma keeps_transaction {A} (body : M Pool A) :
  keeps db body → keeps db (transaction body).
Proof.
  intros Hb p W. unfold transaction. specialize (Hb p W).
  by destruct (body p) as [[a|e|] tx].
Qed.

Lemma keeps_AssignReviewers (prID : Z) (userIDs : list Z) :
  keeps db (AssignReviewers prID userIDs).
Proof.
  induction userIDs as [|uid rest IH]; simpl; [apply keeps_ret|].
  apply keeps_bind_or; [|done].
  apply keeps_round_trip, insert_reviewer_consistent.
Qed.

Lemma keeps_attach_reviewers (rows : list PR) (out : list PRWithReviewers) :
  keeps db (attach_reviewers rows out).
Proof.
  revert out. induction rows as [|p rest IH]; intros out; simpl;
    [apply keeps_ret|].
  apply keeps_bind_or; [|done].
  unfold GetReviewersByPR. apply keeps_bind_or; [|intros; apply keeps_ret].
  by apply keeps_round_trip.
Qed.

(** Every method of the postgres repository keeps the constraints. *)
Lemma keeps_NewRepo :
  (∀ name, keeps db (CreateTeam name))
  ∧ (∀ id, keeps db (GetTeamByID id))
  ∧ (∀ u, keeps db (CreateUser u))
  ∧ (∀ id, keeps db (GetUserByID id))
  ∧ (∀ teamID, keeps db (ListActiveUsersInTeam teamID))
  ∧ (∀ teamID userIDs, keeps db (DeactivateUsersInTeam teamID userIDs))
  ∧ (∀ pr, keeps db (CreatePR pr))
  ∧ (∀ id, keeps db (GetPRByID id))
  ∧ (∀ id status, keeps db (SetPRStatus id status))
  ∧ (∀ prID userIDs, keeps db (AssignReviewers prID userIDs))
  ∧ (∀ prID, keeps db (GetReviewersByPR prID))
  ∧ (∀ prID oldUserID newUserID,
       keeps db (ReplaceReviewer prID oldUserID newUserID))
  ∧ (∀ userID, keeps db (ListPRsAssignedToUser userID))
  ∧ keeps db CountAssignments.
Proof.
  repeat apply conj; intros;
    try apply keeps_AssignReviewers;
    repeat first
      [ apply keeps_ret
      | apply keeps_attach_reviewers
      | apply keeps_transaction
      | apply keeps_bind_or; [|intros]
      | apply keeps_round_trip; intros d W; first
          [ exact W
          | by apply insert_team_consistent
          | by apply insert_user_consistent
          | by apply deactivate_users_consistent
          | by apply insert_pr_consistent
          | by apply update_pr_status_consistent
          | by apply insert_reviewer_consistent
          | by apply delete_reviewer_consistent ] ].
Qed.

End postgres_invariant.

Section engine_invariant.
Import repository service.
Context `{RandSource Rng}.

Local Abbreviation keeps_db := (keeps (database (Rng := Rng))).

Lemma keeps_call {A} (c : Call) (m : M postgres.Pool A) :
  keeps postgres.db m → keeps_db (s_repo (record c m)).
Proof.
  intros Hm s W. rewrite s_repo_record_eq. unfold database, pool. simpl.
  by apply Hm.
Qed.

Lemma keeps_randomSample (n k : Z) : keeps_db (randomSample n k).
Proof.
  intros s W. pose proof (randomSample_keeps_repo n k s) as E.
  unfold database, pool in *. revert E.
  destruct (randomSample n k s) as [o s1]. simpl. by intros ->.
Qed.

Lemma keeps_s_rand_Intn (n : Z) : keeps_db (s_rand_Intn n).
Proof.
  intros s W. unfold s_rand_Intn.
  by destruct (rand_Intn n (rand s)) as [[x g]|].
Qed.

Lemma keeps_collect_ids (filtered : list User) (idxs chosenIDs : list Z) :
  keeps_db (collect_ids filtered idxs chosenIDs).
Proof.
  revert chosenIDs. induction idxs as [|i idxs IH]; intros chosenIDs; simpl.
  - apply keeps_ret.
  - destruct (index filtered i); [apply IH|apply keeps_panic].
Qed.

End engine_invariant.

(** Keep the constraints through an operation, call by call. *)
Ltac keeping :=
  repeat first
    [ apply keeps_ret | apply keeps_fail | apply keeps_panic
    | apply keeps_randomSample | apply keeps_s_rand_Intn
    | apply keeps_collect_ids
    | apply keeps_call; apply keeps_NewRepo
    | apply keeps_bind; [|intros]
    | apply keeps_bind_or; [|intros]
    | apply keeps_bind_ignoring; [|intros]
    | match goal with
      | |- keeps _ (if ?b then _ else _) => destruct b
      | |- keeps _ (match ?o with _ => _ end) => destruct o
      end ].

(** Every operation of the engine leaves a database that satisfies the
    constraints of the schema, whatever the network does to its round
    trips. *)
Theorem engine_keeps_schema_constraints `{RandSource Rng} :
  (∀ name, keeps (database (Rng := Rng)) (service.CreateTeam name))
  ∧ (∀ teamID name isActive,
       keeps (database (Rng := Rng)) (service.CreateUser teamID name isActive))
  ∧ (∀ title authorID,
       keeps (database (Rng := Rng)) (service.CreatePR title authorID))
  ∧ (∀ prID oldUserID,
       keeps (database (Rng := Rng)) (service.ReassignReviewer prID oldUserID))
  ∧ (∀ prID, keeps (database (Rng := Rng)) (service.MergePR prID))
  ∧ (∀ userID,
       keeps (database (Rng := Rng)) (service.ListPRsAssignedToUser userID))
  ∧ keeps (database (Rng := Rng)) service.StatsAssignments.
Proof.
  repeat apply conj; intros.
  - unfold service.CreateTeam. keeping.
  - unfold service.CreateUser. keeping.
  - unfold service.CreatePR. keeping.
  - unfold service.ReassignReviewer. keeping.
  - unfold service.MergePR. keeping.
  - unfold service.ListPRsAssignedToUser. keeping.
  - unfold service.StatsAssignments. keeping.
Qed.

(** ** The run of the engine *)

Lemma exec_keeps `{RandSource Rng} {A} (op : M (Engine Rng) A) (s : Engine Rng) :
  keeps database op → postgres.consistent (database s) →
  postgres.consistent (database (exec op s)).
Proof. intros K W. exact (K s W). Qed.

Lemma foldl_keeps `{RandSource Rng} (steps : list (Engine Rng → Engine Rng))
    (s : Engine Rng) :
  Forall (λ step, ∀ s, postgres.consistent (database s) →
                       postgres.consistent (database (step s))) steps →
  postgres.consistent (database s) →
  postgres.consistent (database (foldl (λ s step, step s) s steps)).
Proof.
  intros Hsteps. revert s. induction Hsteps as [|step steps Hstep _ IH]; intros s W.
  - exact W.
  - simpl. apply IH, Hstep, W.
Qed.

Lemma office_consistent : postgres.consistent (database office).
Proof.
  destruct (engine_keeps_schema_constraints (Rng := Z))
    as (KT & KU & _).
  apply foldl_keeps; [|apply migrated_consistent].
  repeat (apply Forall_cons; split;
          [intros s W; apply exec_keeps; [first [apply KT | apply KU]|exact W]|]).
  apply Forall_nil_2.
Qed.

Lemma office_with_pr_consistent : postgres.consistent (database office_with_pr).
Proof.
  apply exec_keeps; [|apply office_consistent].
  apply engine_keeps_schema_constraints.
Qed.

Lemma office_with_two_prs_consistent :
  postgres.consistent (database office_with_two_prs).
Proof.
  apply exec_keeps; [|apply office_with_pr_consistent].
  apply engine_keeps_schema_constraints.
Qed.

Lemma office_after_merge_consistent :
  postgres.consistent (database office_after_merge).
Proof.
  apply exec_keeps; [|apply office_with_two_prs_consistent].
  apply engine_keeps_schema_constraints.
Qed.

Lemma database_on_network (faults : list (option error)) (s : Engine Z) :
  database (on_network faults s) = database s.
Proof. reflexivity. Qed.

Lemma healthy_without_faults (n : nat) (p : postgres.Pool) :
  postgres.faults p = [] → postgres.healthy n p.
Proof. unfold postgres.healthy. intros ->. rewrite take_nil. constructor. Qed.


Lemma CreatePR_without_team_short_circuits_witness :
  ∃ r s',
    service.CreatePR "Notes" 5 office = (Ok r, s')
    ∧ Reviewers r = []
    ∧ calls_since office s'
      = [repository.CallGetUserByID 5;
         repository.CallCreatePR (mkPR 0 "Notes" 5 PRStatusOpen 0)].
Proof.
  destruct (service.CreatePR "Notes" 5 office) as [[r|e|] s'] eqn:E;
    [|vm_compute in E; discriminate E..].
  exists r, s'. split; [reflexivity|].
  destruct (CreatePR_without_team_short_circuits "Notes" 5
              (mkUser 5 None "Eve" true 1700000000) office s' r
              office_consistent)
    as (Hnone & Hcalls & _).
  - vm_compute. repeat constructor.
  - reflexivity.
  - reflexivity.
  - exact E.
  - split; [exact Hnone|exact Hcalls].
Defined.


Lemma not_elem_of_literal (x : Z) (l : list Z) :
  bool_decide (x ∈ l) = false → x ∉ l.
Proof. intros Hb Hin. by apply bool_decide_eq_false in Hb. Qed.

Lemma ReassignReviewer_on_merged_PR_fails_PRMerged_witness :
  ∃ e s',
    service.ReassignReviewer 1 2 office_after_merge = (Err e, s')
    ∧ errors_Is e service.ErrPRMerged = true
    ∧ errors_Is e service.ErrBadRequest = false
    ∧ database s' = database office_after_merge.
Proof.
  destruct (ReassignReviewer_on_merged_PR_fails_PRMerged 1 2
              (mkPR 1 "Add login" 1 PRStatusMerged 1700000000) office_after_merge
              office_after_merge_consistent)
    as (e & s' & E & _ & Hm & Hb & Hdb & _).
  - apply healthy_without_faults. vm_compute. reflexivity.
  - vm_compute. repeat constructor.
  - reflexivity.
  - reflexivity.
  - exists e, s'. split; [exact E|]. split; [exact Hm|]. split; [exact Hb|exact Hdb].
Defined.

Lemma ReassignReviewer_of_unassigned_user_fails_BadRequest_witness :
  ∃ e s',
    service.ReassignReviewer 1 4 office_with_two_prs = (Err e, s')
    ∧ errors_Is e service.ErrBadRequest = true
    ∧ api.reassign_error e = ("NOT_ASSIGNED", 409)
    ∧ database s' = database office_with_two_prs.
Proof.
  destruct (ReassignReviewer_of_unassigned_user_fails_BadRequest 1 4 1
              (mkPR 1 "Add login" 1 PRStatusOpen 1700000000)
              (mkUser 4 (Some 1) "Dmitri" true 1700000000) office_with_two_prs
              office_with_two_prs_consistent)
    as (e & s' & E & _ & Hb & _ & Hcode & Hdb & _).
  - apply healthy_without_faults. vm_compute. reflexivity.
  - vm_compute. repeat constructor.
  - reflexivity.
  - discriminate.
  - vm_compute. repeat constructor.
  - reflexivity.
  - reflexivity.
  - apply not_elem_of_literal. vm_compute. reflexivity.
  - exists e, s'. split; [exact E|]. split; [exact Hb|]. split; [exact Hcode|exact Hdb].
Defined.

(** C8, as the spec has it, fails: user 4 is not a reviewer of PR 1, and the
    error [ReassignReviewer] returns is an [ErrBadRequest], the generic
    kind. *)
Lemma ReassignReviewer_of_unassigned_user_is_not_a_kind_of_its_own :
  (4 ∉ postgres.reviewer_ids 1 (database office_with_two_prs))
  ∧ (service.ReassignReviewer 1 4 office_with_two_prs).1
    = Err (service.Errorf_w service.ErrBadRequest
             "reviewer is not assigned to this PR")
  ∧ errors_Is (service.Errorf_w service.ErrBadRequest
                 "reviewer is not assigned to this PR")
              service.ErrBadRequest = true
  ∧ errors_Unwrap (service.Errorf_w service.ErrBadRequest
                     "reviewer is not assigned to this PR")
    = Some service.ErrBadRequest.
Proof.
  split; [apply not_elem_of_literal; vm_compute; reflexivity|].
  split; [vm_compute; reflexivity|]. split; vm_compute; reflexivity.
Qed.

Lemma ReassignReviewer_without_candidate_fails_NoCandidate_witness :
  ∃ e s',
    service.ReassignReviewer 2 7 office_with_two_prs = (Err e, s')
    ∧ errors_Is e service.ErrNoCandidate = true
    ∧ database s' = database office_with_two_prs
    ∧ 7 ∈ postgres.reviewer_ids 2 (database s').
Proof.
  destruct (ReassignReviewer_without_candidate_fails_NoCandidate 2 7 2
              (mkPR 2 "Fix styles" 6 PRStatusOpen 1700000000)
              (mkUser 7 (Some 2) "Galina" true 1700000000) office_with_two_prs
              office_with_two_prs_consistent)
    as (e & s' & E & _ & Hn & Hdb & Hin & _).
  - apply healthy_without_faults. vm_compute. reflexivity.
  - vm_compute. repeat constructor.
  - reflexivity.
  - discriminate.
  - vm_compute. repeat constructor.
  - reflexivity.
  - reflexivity.
  - vm_compute. repeat constructor.
  - vm_compute. reflexivity.
  - exists e, s'. split; [exact E|]. split; [exact Hn|]. split; [exact Hdb|exact Hin].
Defined.


Lemma MergePR_of_merged_PR_is_idempotent_witness :
  ∃ r s1 s2,
    service.MergePR 1 office_after_merge = (Ok r, s1)
    ∧ service.MergePR 1 s1 = (Ok r, s2)
    ∧ Status (PR_of r) = PRStatusMerged
    ∧ ID <$> Reviewers r = postgres.reviewer_ids 1 (database office_after_merge)
    ∧ database s2 = database office_after_merge.
Proof.
  destruct (proj2 MergePR_of_merged_PR_is_idempotent 1
              (mkPR 1 "Add login" 1 PRStatusMerged 1700000000) office_after_merge
              office_after_merge_consistent)
    as (r & s1 & s2 & E1 & E2 & _ & Hst & _ & Hids & _ & Hdb).
  - apply healthy_without_faults. vm_compute. reflexivity.
  - vm_compute. repeat constructor.
  - reflexivity.
  - reflexivity.
  - exists r, s1, s2. split; [exact E1|]. split; [exact E2|].
    split; [exact Hst|]. split; [exact Hids|exact Hdb].
Defined.

(** The insertion of the PR is refused by the network: [CreatePR] returns
    the error of [repo.CreatePR] as it is. *)
Lemma storage_failures_are_returned_unchanged_witness :
  (service.CreatePR "Add login" 1
     (on_network [None; Some connection_reset] office)).1
  = Err (postgres.wrap "create PR: " connection_reset).
Proof.
  set (s := on_network [None; Some connection_reset] office).
  pose proof (proj1 (proj2 (proj2
                (storage_failures_are_returned_unchanged
                   (St := postgres.Pool) (Rng := Z))))
                "Add login" 1 s
                (service.CreatePR "Add login" 1 s).1
                (service.CreatePR "Add login" 1 s).2
                (repository.mkEvent
                   (repository.CallCreatePR
                      (mkPR 0 "Add login" 1 PRStatusOpen 0))
                   (Some (postgres.wrap "create PR: " connection_reset)))
                (postgres.wrap "create PR: " connection_reset)) as Hs.
  apply Hs.
  - apply surjective_pairing.
  - vm_compute. repeat constructor.
  - reflexivity.
  - reflexivity.
Defined.

(** C9, as the spec has it, fails: the look-up of the author is refused by
    the network with [connection_reset], and [CreatePR] returns not that
    error but an [ErrBadRequest], "author not found". *)
Lemma CreatePR_reports_a_failed_lookup_as_BadRequest :
  let s := on_network [Some connection_reset] office in
  let surfaced := postgres.wrap "get user: " connection_reset in
  repository.mkEvent (repository.CallGetUserByID 1) (Some surfaced)
    ∈ events_since s (service.CreatePR "Add login" 1 s).2
  ∧ (service.CreatePR "Add login" 1 s).1
    = Err (service.Errorf_w service.ErrBadRequest "author not found")
  ∧ service.Errorf_w service.ErrBadRequest "author not found" ≠ surfaced
  ∧ errors_Is (service.Errorf_w service.ErrBadRequest "author not found")
              service.ErrBadRequest = true
  ∧ errors_Is (service.Errorf_w service.ErrBadRequest "author not found")
              surfaced = false.
Proof.
  cbv zeta. split; [vm_compute; repeat constructor|].
  split; [vm_compute; reflexivity|]. split; [discriminate|].
  split; vm_compute; reflexivity.
Qed.

(** [MergePR] on a merged PR drops the error of [GetReviewersByPR]: PR 1
    has two reviewers, the reading of them is refused by the network, and
    [MergePR] answers without an error and without a reviewer. *)
Example MergePR_drops_the_error_of_the_reviewers_read :
  let s := on_network [None; Some connection_reset] office_after_merge in
  length (postgres.reviewer_ids 1 (database s)) = 2%nat
  ∧ repository.mkEvent (repository.CallGetReviewersByPR 1)
      (Some (postgres.wrap "get reviewers by PR: " connection_reset))
    ∈ events_since s (service.MergePR 1 s).2
  ∧ (service.MergePR 1 s).1
    = Ok (mkPRWithReviewers
            (mkPR 1 "Add login" 1 PRStatusMerged 1700000000) []).
Proof.
  cbv zeta. split; [reflexivity|].
  split; [vm_compute; repeat constructor|]. vm_compute. reflexivity.
Qed.

(** C5, as the spec has it, fails of the code.  PR 1 is stored as [MERGED]
    with the reviewers 3 and 2; the network refuses the reading of the
    reviewers.  [MergePR] answers with success and the PR without a reviewer,
    not its current reviewer set, and writes nothing.  The same call
    repeated, on the connection as it is then, answers with both reviewers:
    the two results differ. *)
Lemma MergePR_of_merged_PR_can_answer_without_its_reviewers :
  let s := on_network [None; Some connection_reset] office_after_merge in
  let first := service.MergePR 1 s in
  let second := service.MergePR 1 first.2 in
  mkPR 1 "Add login" 1 PRStatusMerged 1700000000 ∈ postgres.prs (database s)
  ∧ postgres.reviewer_ids 1 (database s) = [3; 2]
  ∧ first.1
    = Ok (mkPRWithReviewers
            (mkPR 1 "Add login" 1 PRStatusMerged 1700000000) [])
  ∧ database first.2 = database s
  ∧ (∃ r, second.1 = Ok r
          ∧ PR_of r = mkPR 1 "Add login" 1 PRStatusMerged 1700000000
          ∧ ID <$> Reviewers r = [3; 2])
  ∧ first.1 ≠ second.1.
Proof.
  cbv zeta. split; [vm_compute; repeat constructor|].
  split; [vm_compute; reflexivity|].
  split; [vm_compute; reflexivity|].
  split; [vm_compute; reflexivity|].
  split.
  - eexists. split; [vm_compute; reflexivity|].
    split; vm_compute; reflexivity.
  - vm_compute. discriminate.
Qed.

(** What the handler of the route makes of the errors of
    [ReassignReviewer]: the text of an [ErrPRMerged] and of an
    [ErrNoCandidate] does not start with "bad request", so neither is
    answered with its own code. *)
Example reassign_error_codes :
  api.reassign_error
    (service.Errorf_w service.ErrBadRequest "reviewer is not assigned to this PR")
  = ("NOT_ASSIGNED", 409)
  ∧ api.reassign_error
      (service.Errorf_w service.ErrPRMerged "cannot reassign merged pr")
    = ("BAD_REQUEST", 400)
  ∧ api.reassign_error
      (service.Errorf_w service.ErrNoCandidate "no active candidates to reassign")
    = ("BAD_REQUEST", 400).
Proof. repeat split; vm_compute; reflexivity. Qed.

(** * More of the engine *)

(** ** The transition of [MergePR] *)

Section more_call_facts.
Import repository postgres service.
Context `{RandSource Rng}.
Implicit Types s : Engine Rng.

Lemma SetPRStatus_healthy s (id : Z) (status : string) :
  healthy 1 (pool s) →
  s_repo (repository.SetPRStatus id status) s
  = (Ok (), after_call s (update_pr_status status id (database s)).2
                       (CallSetPRStatus id status) None).
Proof.
  intros Hh.
  exact (statement_call_healthy (CallSetPRStatus id status)
           (update_pr_status status id) "set PR status: " (λ _, ()) s Hh).
Qed.

Lemma select_user_absent (d : DB) (id : Z) :
  id ∉ ID <$> users d → select_user id d = (Err ErrNoRows, d).
Proof. intros Hid. unfold select_user. by rewrite filter_key_absent. Qed.

Lemma select_pr_absent (d : DB) (id : Z) :
  id ∉ PR_ID <$> prs d → select_pr id d = (Err ErrNoRows, d).
Proof. intros Hid. unfold select_pr. by rewrite filter_key_absent. Qed.



(** The status of one PR after [UPDATE prs SET status]. *)
Lemma update_pr_status_rows (status : string) (id : Z) (d : DB) (p : PR) :
  p ∈ prs (update_pr_status status id d).2 ↔
  ∃ q, q ∈ prs d
       ∧ p = if decide (PR_ID q = id)
             then mkPR (PR_ID q) (Title q) (AuthorID q) status (PR_CreatedAt q)
             else q.
Proof.
  unfold update_pr_status. simpl. rewrite list_elem_of_fmap. split.
  - intros (q & -> & Hq). by exists q.
  - intros (q & Hq & ->). by exists q.
Qed.

End more_call_facts.

(** X1. [MergePR] on a PR it reads back as [OPEN], on a connection that
    stays healthy, returns the PR with the status [MERGED] and the reviewers
    stored for it; the PR is stored as [MERGED] afterwards, every other PR is
    stored as it was, users and assignments are untouched, and the one write
    it made is [SetPRStatus]. *)
Theorem MergePR_of_open_PR_merges_it `{RandSource Rng}
    (prID : Z) (pr : PR) (s : Engine Rng) :
  postgres.consistent (database s) → postgres.healthy 3 (pool s) →
  pr ∈ postgres.prs (database s) → PR_ID pr = prID →
  Status pr = PRStatusOpen →
  let merged := mkPR (PR_ID pr) (Title pr) (AuthorID pr) PRStatusMerged
                     (PR_CreatedAt pr) in
  ∃ s',
    service.MergePR prID s
    = (Ok (mkPRWithReviewers merged
             (postgres.reviewers_of prID (database s))), s')
    ∧ postgres.select_pr prID (database s') = (Ok merged, database s')
    ∧ (∀ q, q ∈ postgres.prs (database s) → PR_ID q ≠ prID →
            q ∈ postgres.prs (database s'))
    ∧ postgres.users (database s') = postgres.users (database s)
    ∧ postgres.pr_reviewers (database s') = postgres.pr_reviewers (database s)
    ∧ calls_since s s'
      = [repository.CallGetPRByID prID;
         repository.CallSetPRStatus prID PRStatusMerged;
         repository.CallGetReviewersByPR prID].
Proof.
  intros W Hh Hpr <- Hopen merged. eexists.
  unfold service.MergePR. unfold bind_or at 1.
  rewrite GetPRByID_found by (try done; solve_healthy).
  rewrite decide_False by (rewrite Hopen; discriminate).
  rewrite decide_False by (intros Hne; by apply Hne).
  unfold bind at 1. rewrite SetPRStatus_healthy by solve_healthy.
  unfold bind at 1. rewrite GetReviewersByPR_healthy by solve_healthy.
  rewrite !database_after_call. unfold ret.
  split; [reflexivity|].
  assert (postgres.consistent
            (postgres.update_pr_status PRStatusMerged (PR_ID pr) (database s)).2)
    as W' by (by apply update_pr_status_consistent).
  assert (merged ∈ postgres.prs
            (postgres.update_pr_status PRStatusMerged (PR_ID pr) (database s)).2)
    as Hm.
  { apply update_pr_status_rows. exists pr. split; [done|].
    by rewrite decide_True. }
  split; [exact (select_pr_found _ merged W' Hm)|]. split.
  { intros q Hq Hne. apply update_pr_status_rows. exists q. split; [done|].
    by rewrite decide_False. }
  split; [done|]. split; [done|].
  apply (calls_since_journal s _ [repository.mkEvent _ None;
           repository.mkEvent _ None; repository.mkEvent _ None]).
  rewrite !journal_after_call, <- !app_assoc. done.
Qed.

Lemma MergePR_of_open_PR_merges_it_witness :
  ∃ s',
    service.MergePR 2 office_with_two_prs
    = (Ok (mkPRWithReviewers
             (mkPR 2 "Fix styles" 6 PRStatusMerged 1700000000)
             (postgres.reviewers_of 2 (database office_with_two_prs))), s')
    ∧ postgres.pr_reviewers (database s')
      = postgres.pr_reviewers (database office_with_two_prs).
Proof.
  destruct (MergePR_of_open_PR_merges_it 2
              (mkPR 2 "Fix styles" 6 PRStatusOpen 1700000000)
              office_with_two_prs office_with_two_prs_consistent)
    as (s' & E & _ & _ & _ & Hrows & _).
  - apply healthy_without_faults. vm_compute. reflexivity.
  - vm_compute. repeat constructor.
  - reflexivity.
  - reflexivity.
  - exists s'. split; [exact E|exact Hrows].
Defined.

(** ** What [CreatePR] refuses *)

(** X2. [CreatePR] for an author who is not in [users] fails with an
    [ErrBadRequest], "author not found", and for an author who is stored as
    inactive with an [ErrBadRequest], "author is not active".  Either way the
    look-up of the author is the only call it made: no PR is inserted and the
    database is as it was.  The handler answers both with [NOT_FOUND]. *)
Theorem CreatePR_refuses_unknown_and_inactive_authors `{RandSource Rng} :
  (∀ (title : string) (authorID : Z) (s : Engine Rng),
     postgres.healthy 1 (pool s) →
     authorID ∉ ID <$> postgres.users (database s) →
     ∃ e s',
       service.CreatePR title authorID s = (Err e, s')
       ∧ e = service.Errorf_w service.ErrBadRequest "author not found"
       ∧ api.createPR_error e = ("NOT_FOUND", 404)
       ∧ database s' = database s
       ∧ calls_since s s' = [repository.CallGetUserByID authorID])
  ∧ (∀ (title : string) (author : User) (s : Engine Rng),
       postgres.consistent (database s) → postgres.healthy 1 (pool s) →
       author ∈ postgres.users (database s) → IsActive author = false →
       ∃ e s',
         service.CreatePR title (ID author) s = (Err e, s')
         ∧ e = service.Errorf_w service.ErrBadRequest "author is not active"
         ∧ api.createPR_error e = ("NOT_FOUND", 404)
         ∧ database s' = database s
         ∧ calls_since s s' = [repository.CallGetUserByID (ID author)]).
Proof.
  split.
  - intros title authorID s Hh Hid. eexists _, _.
    unfold service.CreatePR. unfold bind_or at 1.
    pose proof (statement_call_healthy (repository.CallGetUserByID authorID)
                  (postgres.select_user authorID) "get user: " (λ x, x) s Hh) as E.
    rewrite select_user_absent in E by done.
    match type of E with ?l = _ =>
      match goal with |- context [service.s_repo ?op s] =>
        change (service.s_repo op s) with l end end.
    rewrite E. split; [reflexivity|]. do 3 (split; [done|]).
    by apply (calls_since_journal s _
                [repository.mkEvent _
                   (Some (postgres.wrap "get user: " postgres.ErrNoRows))]).
  - intros title author s W Hh Hin Hoff. eexists _, _.
    unfold service.CreatePR. unfold bind_or at 1.
    rewrite GetUserByID_found by done. rewrite Hoff. cbn [negb]. unfold fail.
    split; [reflexivity|]. do 3 (split; [done|]).
    by apply (calls_since_journal s _ [repository.mkEvent _ None]).
Qed.

Lemma CreatePR_refuses_unknown_and_inactive_authors_witness :
  ∃ e s',
    service.CreatePR "Ghost" 99 office = (Err e, s')
    ∧ api.createPR_error e = ("NOT_FOUND", 404)
    ∧ database s' = database office.
Proof.
  destruct (proj1 CreatePR_refuses_unknown_and_inactive_authors "Ghost" 99 office)
    as (e & s' & E & _ & Hcode & Hdb & _).
  - apply healthy_without_faults. vm_compute. reflexivity.
  - apply not_elem_of_literal. vm_compute. reflexivity.
  - exists e, s'. split; [exact E|]. split; [exact Hcode|exact Hdb].
Defined.

(** ** What [ReassignReviewer] refuses before it looks at the reviewers *)

Section ReassignReviewer_refusals.
Import repository postgres service.
Context `{RandSource Rng}.
Implicit Types s : Engine Rng.

Lemma GetPRByID_absent s (id : Z) :
  healthy 1 (pool s) → id ∉ PR_ID <$> prs (database s) →
  s_repo (repository.GetPRByID id) s
  = (Err (wrap "get PR: " ErrNoRows),
     after_call s (database s) (CallGetPRByID id)
       (Some (wrap "get PR: " ErrNoRows))).
Proof.
  intros Hh Hid.
  pose proof (statement_call_healthy (CallGetPRByID id)
                (select_pr id) "get PR: " (λ x, x) s Hh) as E.
  by rewrite select_pr_absent in E.
Qed.

Lemma GetUserByID_absent s (id : Z) :
  healthy 1 (pool s) → id ∉ ID <$> users (database s) →
  s_repo (repository.GetUserByID id) s
  = (Err (wrap "get user: " ErrNoRows),
     after_call s (database s) (CallGetUserByID id)
       (Some (wrap "get user: " ErrNoRows))).
Proof.
  intros Hh Hid.
  pose proof (statement_call_healthy (CallGetUserByID id)
                (select_user id) "get user: " (λ x, x) s Hh) as E.
  by rewrite select_user_absent in E.
Qed.

End ReassignReviewer_refusals.

(** X3. [ReassignReviewer] fails with an [ErrBadRequest] and leaves the
    database as it was when the PR is not in [prs] ("pr not found"), when
    the PR is not merged and the user is not in [users] ("user not found"),
    and when the user has no team ("reviewer has no team"); in none of the
    three cases did it read the reviewers of the PR.  The handler answers the
    first two with [NOT_FOUND] and the third with [BAD_REQUEST]. *)
Theorem ReassignReviewer_refuses_unknown_PR_unknown_user_and_no_team
    `{RandSource Rng} :
  (∀ (prID oldUserID : Z) (s : Engine Rng),
     postgres.healthy 1 (pool s) →
     prID ∉ PR_ID <$> postgres.prs (database s) →
     ∃ e s',
       service.ReassignReviewer prID oldUserID s = (Err e, s')
       ∧ e = service.Errorf_w service.ErrBadRequest "pr not found"
       ∧ api.reassign_error e = ("NOT_FOUND", 404)
       ∧ database s' = database s
       ∧ calls_since s s' = [repository.CallGetPRByID prID])
  ∧ (∀ (pr : PR) (oldUserID : Z) (s : Engine Rng),
       postgres.consistent (database s) → postgres.healthy 2 (pool s) →
       pr ∈ postgres.prs (database s) → Status pr ≠ PRStatusMerged →
       oldUserID ∉ ID <$> postgres.users (database s) →
       ∃ e s',
         service.ReassignReviewer (PR_ID pr) oldUserID s = (Err e, s')
         ∧ e = service.Errorf_w service.ErrBadRequest "user not found"
         ∧ api.reassign_error e = ("NOT_FOUND", 404)
         ∧ database s' = database s
         ∧ calls_since s s'
           = [repository.CallGetPRByID (PR_ID pr);
              repository.CallGetUserByID oldUserID])
  ∧ (∀ (pr : PR) (oldUser : User) (s : Engine Rng),
       postgres.consistent (database s) → postgres.healthy 2 (pool s) →
       pr ∈ postgres.prs (database s) → Status pr ≠ PRStatusMerged →
       oldUser ∈ postgres.users (database s) → TeamID oldUser = None →
       ∃ e s',
         service.ReassignReviewer (PR_ID pr) (ID oldUser) s = (Err e, s')
         ∧ e = service.Errorf_w service.ErrBadRequest "reviewer has no team"
         ∧ api.reassign_error e = ("BAD_REQUEST", 400)
         ∧ database s' = database s
         ∧ calls_since s s'
           = [repository.CallGetPRByID (PR_ID pr);
              repository.CallGetUserByID (ID oldUser)]).
Proof.
  split; [|split].
  - intros prID oldUserID s Hh Hid. eexists _, _.
    unfold service.ReassignReviewer. unfold bind_or at 1.
    rewrite GetPRByID_absent by done.
    split; [reflexivity|]. do 3 (split; [done|]).
    by apply (calls_since_journal s _
                [repository.mkEvent _
                   (Some (postgres.wrap "get PR: " postgres.ErrNoRows))]).
  - intros pr oldUserID s W Hh Hpr Hopen Hid. eexists _, _.
    unfold service.ReassignReviewer. unfold bind_or at 1.
    rewrite GetPRByID_found by (try done; solve_healthy).
    rewrite decide_False by done. unfold bind_or at 1.
    rewrite GetUserByID_absent by (try done; solve_healthy).
    split; [reflexivity|]. do 3 (split; [done|]).
    apply (calls_since_journal s _
             [repository.mkEvent _ None;
              repository.mkEvent _
                (Some (postgres.wrap "get user: " postgres.ErrNoRows))]).
    rewrite !journal_after_call, <- !app_assoc. done.
  - intros pr oldUser s W Hh Hpr Hopen Hold Hteam. eexists _, _.
    unfold service.ReassignReviewer. unfold bind_or at 1.
    rewrite GetPRByID_found by (try done; solve_healthy).
    rewrite decide_False by done. unfold bind_or at 1.
    rewrite GetUserByID_found by (try done; solve_healthy).
    rewrite Hteam. unfold fail.
    split; [reflexivity|]. do 3 (split; [done|]).
    apply (calls_since_journal s _
             [repository.mkEvent _ None; repository.mkEvent _ None]).
    rewrite !journal_after_call, <- !app_assoc. done.
Qed.

Lemma ReassignReviewer_refuses_unknown_PR_unknown_user_and_no_team_witness :
  ∃ e s',
    service.ReassignReviewer 1 5 office_with_two_prs = (Err e, s')
    ∧ e = service.Errorf_w service.ErrBadRequest "reviewer has no team"
    ∧ database s' = database office_with_two_prs.
Proof.
  destruct (proj2 (proj2 ReassignReviewer_refuses_unknown_PR_unknown_user_and_no_team)
              (mkPR 1 "Add login" 1 PRStatusOpen 1700000000)
              (mkUser 5 None "Eve" true 1700000000) office_with_two_prs
              office_with_two_prs_consistent)
    as (e & s' & E & He & _ & Hdb & _).
  - apply healthy_without_faults. vm_compute. reflexivity.
  - vm_compute. repeat constructor.
  - discriminate.
  - vm_compute. repeat constructor.
  - reflexivity.
  - exists e, s'. split; [exact E|]. split; [exact He|exact Hdb].
Defined.

(** ** Whom [ReassignReviewer] picks *)



(** ** Teams and users *)

Section registry_facts.
Import repository postgres service.
Context `{RandSource Rng}.
Implicit Types s : Engine Rng.





End registry_facts.





(** * What every request keeps *)

(** ** Assertions about the database, call by call *)

Section triples.
Import postgres.
Context {S : Type} (get : S → DB).

(** From a state whose database satisfies [P], [op] returns a value [a] and
    a database that satisfies [Q a], or fails or panics and leaves a database
    that satisfies [I]. *)
Definition triple {A} (P : DB → Prop) (op : M S A) (Q : A → DB → Prop)
    (I : DB → Prop) : Prop :=
  ∀ s, P (get s) →
    match (op s).1 with
    | Ok a => Q a (get (op s).2)
    | _ => I (get (op s).2)
    end.

Lemma triple_ret {A} (P : DB → Prop) (a : A) (Q : A → DB → Prop) I :
  (∀ d, P d → Q a d) → triple P (ret a) Q I.
Proof. intros HQ s HP. by apply HQ. Qed.

Lemma triple_fail {A} (P : DB → Prop) (e : error) (Q : A → DB → Prop)
    (I : DB → Prop) :
  (∀ d, P d → I d) → triple P (fail e) Q I.
Proof. intros HI s HP. by apply HI. Qed.

Lemma triple_panic {A} (P : DB → Prop) (Q : A → DB → Prop) (I : DB → Prop) :
  (∀ d, P d → I d) → triple P panic Q I.
Proof. intros HI s HP. by apply HI. Qed.

Lemma triple_bind {A B} (P : DB → Prop) (c : M S A) (k : A → M S B)
    (Q1 : A → DB → Prop) (Q : B → DB → Prop) (I : DB → Prop) :
  triple P c Q1 I → (∀ a, triple (Q1 a) (k a) Q I) → triple P (bind c k) Q I.
Proof.
  intros Hc Hk s HP. unfold bind. specialize (Hc s HP).
  destruct (c s) as [[a|e|] s1]; simpl in *; [by apply Hk|done..].
Qed.

Lemma triple_bind_or {A B} (P : DB → Prop) (c : M S A) (h : error → error)
    (k : A → M S B) (Q1 : A → DB → Prop) (Q : B → DB → Prop) (I : DB → Prop) :
  triple P c Q1 I → (∀ a, triple (Q1 a) (k a) Q I) →
  triple P (bind_or c h k) Q I.
Proof.
  intros Hc Hk s HP. unfold bind_or. specialize (Hc s HP).
  destruct (c s) as [[a|e|] s1]; simpl in *; [by apply Hk|done..].
Qed.

Lemma triple_bind_ignoring {A B} (P : DB → Prop) (c : M S A) (a0 : A)
    (k : A → M S B) (Q1 : A → DB → Prop) (Q : B → DB → Prop) (I : DB → Prop) :
  triple P c Q1 (Q1 a0) → (∀ a, triple (Q1 a) (k a) Q I) →
  (∀ d, Q1 a0 d → I d) →
  triple P (bind_ignoring c a0 k) Q I.
Proof.
  intros Hc Hk HI s HP. unfold bind_ignoring. specialize (Hc s HP).
  destruct (c s) as [[a|e|] s1]; simpl in *; [by apply Hk..|by apply HI].
Qed.

Lemma triple_weaken {A} (P P' : DB → Prop) (op : M S A)
    (Q Q' : A → DB → Prop) (I I' : DB → Prop) :
  triple P' op Q' I' →
  (∀ d, P d → P' d) → (∀ a d, Q' a d → Q a d) → (∀ d, I' d → I d) →
  triple P op Q I.
Proof.
  intros Hop HP HQ HI s Hs. specialize (Hop s (HP _ Hs)).
  destruct (op s).1; auto.
Qed.

(** An operation that neither fails nor panics. *)
Lemma triple_total {A} (P : DB → Prop) (op : M S A) (Q : A → DB → Prop)
    (I : DB → Prop) :
  triple P op Q (λ _, False) → triple P op Q I.
Proof. intros Hop. by apply (triple_weaken P P op Q Q I (λ _, False)). Qed.

(** A fact that does not depend on the database can be assumed. *)
Lemma triple_pure {A} (φ : Prop) (P : DB → Prop) (op : M S A)
    (Q : A → DB → Prop) (I : DB → Prop) :
  (φ → triple P op Q I) → triple (λ d, P d ∧ φ) op Q I.
Proof. intros Hop s [HP Hφ]. by apply Hop. Qed.

End triples.

Section postgres_triples.
Import postgres.

Lemma triple_round_trip {A} (P : DB → Prop) (stmt : DB → outcome A * DB)
    (Q : A → DB → Prop) (I : DB → Prop) :
  (∀ d, P d → I d) →
  (∀ d, P d → match (stmt d).1 with
              | Ok a => Q a (stmt d).2
              | _ => I (stmt d).2
              end) →
  triple db P (round_trip stmt) Q I.
Proof.
  intros HI Hstmt p HP. unfold round_trip.
  destruct (head (faults p)) as [[e|]|]; simpl; [by apply HI|..];
    specialize (Hstmt _ HP); by destruct (stmt (db p)) as [[a|e|] d].
Qed.

(** A method that is one statement. *)
Lemma triple_statement {A B} (P : DB → Prop) (stmt : DB → outcome A * DB)
    (prefix : string) (f : A → B) (Q : B → DB → Prop) (I : DB → Prop) :
  (∀ d, P d → I d) →
  (∀ d, P d → match (stmt d).1 with
              | Ok a => Q (f a) (stmt d).2
              | _ => I (stmt d).2
              end) →
  triple db P (bind_or (round_trip stmt) (wrap prefix) (λ x, ret (f x))) Q I.
Proof.
  intros HI Hstmt.
  apply triple_bind_or with (Q1 := λ a d, Q (f a) d).
  - by apply triple_round_trip.
  - intros a. by apply triple_ret.
Qed.

(** A method that is one query: the database is as it was, and the value
    is the one the query finds in it. *)
Lemma triple_query {A} (P : DB → Prop) (stmt : DB → outcome A * DB)
    (prefix : string) (I : DB → Prop) :
  (∀ d, (stmt d).2 = d) → (∀ d, P d → I d) →
  triple db P (bind_or (round_trip stmt) (wrap prefix) (λ x, ret x))
         (λ a d, P d ∧ stmt d = (Ok a, d)) I.
Proof.
  intros Hread HI. apply (triple_statement _ _ _ (λ x, x)); [done|].
  intros d HP. specialize (Hread d).
  destruct (stmt d) as [[a|e|] d'] eqn:E; simpl in *; subst d'; auto.
Qed.

Lemma triple_transaction {A} (P : DB → Prop) (body : M Pool A)
    (Q : A → DB → Prop) (I : DB → Prop) :
  (∀ d, P d → I d) → triple db P body Q (λ _, True) →
  triple db P (transaction body) Q I.
Proof.
  intros HI Hb p HP. unfold transaction. specialize (Hb p HP).
  destruct (body p) as [[a|e|] tx]; simpl in *; [done|by apply HI..].
Qed.

End postgres_triples.

Section engine_triples.
Import repository service.
Context `{RandSource Rng}.

Local Abbreviation triple_db := (triple (database (Rng := Rng))).

Lemma triple_call {A} (c : Call) (m : M postgres.Pool A)
    (P : postgres.DB → Prop) (Q : A → postgres.DB → Prop)
    (I : postgres.DB → Prop) :
  triple postgres.db P m Q I → triple_db P (s_repo (record c m)) Q I.
Proof.
  intros Hm s HP. rewrite s_repo_record_eq. unfold database, pool. simpl.
  by apply Hm.
Qed.

(** The sampler and the draws do not reach the database. *)
Lemma triple_call_query {A} (c : Call) (stmt : postgres.DB → outcome A * postgres.DB)
    (prefix : string) (P I : postgres.DB → Prop) :
  (∀ d, (stmt d).2 = d) → (∀ d, P d → I d) →
  triple_db P
    (s_repo (record c (bind_or (postgres.round_trip stmt)
                               (postgres.wrap prefix) (λ x, ret x))))
    (λ a d, P d ∧ stmt d = (Ok a, d)) I.
Proof. intros Hread HI. by apply triple_call, triple_query. Qed.

Lemma triple_randomSample (n k : Z) (P : postgres.DB → Prop) :
  0 ≤ n → 0 ≤ k →
  triple_db P (randomSample n k)
    (λ idxs d, P d ∧ Z.of_nat (length idxs) = Z.min n k
               ∧ ∀ i, i ∈ idxs → 0 ≤ i < n) (λ _, False).
Proof.
  intros Hn Hk s HP.
  destruct (randomSample_returns n k s Hn Hk) as (idxs & s' & E & Hlen & _ & Hr).
  pose proof (randomSample_keeps_repo n k s) as Hrepo.
  rewrite E in *. simpl in *. unfold database, pool. by rewrite Hrepo.
Qed.

Lemma triple_s_rand_Intn (n : Z) (P : postgres.DB → Prop) :
  0 < n → triple_db P (s_rand_Intn n) (λ x d, P d ∧ 0 ≤ x < n) (λ _, False).
Proof.
  intros Hn s HP. unfold s_rand_Intn, rand_Intn.
  rewrite decide_True by done.
  pose proof (Intn_draw_range n (rand s) Hn) as Hx.
  by destruct (Intn_draw n (rand s)) as [x g].
Qed.

Lemma triple_collect_ids (filtered : list User) (idxs : list Z)
    (P : postgres.DB → Prop) :
  (∀ i, i ∈ idxs → 0 ≤ i < len filtered) →
  triple_db P (collect_ids filtered idxs [])
    (λ chosenIDs d, P d ∧ length chosenIDs = length idxs
                    ∧ ∀ id, id ∈ chosenIDs → id ∈ ID <$> filtered)
    (λ _, False).
Proof.
  intros Hr s HP.
  destruct (collect_ids_in_range filtered idxs [] s Hr) as (us & Hus & E).
  rewrite E. simpl. split; [done|]. split.
  - rewrite length_fmap. symmetry. by eapply Forall2_length.
  - intros id (u & -> & Hu)%list_elem_of_fmap.
    apply list_elem_of_fmap. exists u. split; [done|].
    by eapply picked_rows_elem.
Qed.

End engine_triples.

(** ** No author reviews their own PR, no PR has more than two reviewers *)

(** What the README promises of the assignments in the table. *)
Record well_assigned (d : postgres.DB) : Prop := mkWellAssigned {
  authors_do_not_review :
    ∀ p, p ∈ postgres.prs d → (PR_ID p, AuthorID p) ∉ postgres.pr_reviewers d;
  two_reviewers_at_most :
    ∀ prID, (length (postgres.reviewer_ids prID d) ≤ 2)%nat
}.

Definition sound (d : postgres.DB) : Prop :=
  postgres.consistent d ∧ well_assigned d.

Section assignment_facts.
Import postgres.

Lemma filter_other_rows {A} `{EqDecision A} (rows : list A) (x : A) :
  x ∉ rows → filter (λ y, y ≠ x) rows = rows.
Proof.
  induction rows as [|a rows IH]; intros Hx; [done|].
  apply not_elem_of_cons in Hx as [Hne Hx].
  rewrite filter_cons, decide_True by done. by rewrite IH.
Qed.

Lemma length_filter_delete {A} `{EqDecision A} (P : A → Prop)
    `{∀ x, Decision (P x)} (rows : list A) (x : A) :
  NoDup rows → x ∈ rows → P x →
  Datatypes.S (length (filter P (filter (λ y, y ≠ x) rows)))
  = length (filter P rows).
Proof.
  induction rows as [|a rows IH]; intros Hnd Hx HP.
  - by apply elem_of_nil in Hx.
  - apply NoDup_cons in Hnd as [Ha Hnd].
    destruct (decide (a = x)) as [->|Hne].
    + rewrite (filter_cons (λ y, y ≠ x)), decide_False by (by intros ?).
      rewrite filter_other_rows by done.
      by rewrite filter_cons, decide_True.
    + apply elem_of_cons in Hx as [->|Hx]; [done|].
      rewrite (filter_cons (λ y, y ≠ x)), decide_True by done.
      rewrite !(filter_cons P). case_decide; simpl; by rewrite IH.
Qed.

Lemma length_filter_filter {A} (P Q : A → Prop) `{∀ x, Decision (P x)}
    `{∀ x, Decision (Q x)} (rows : list A) :
  (length (filter P (filter Q rows)) ≤ length (filter P rows))%nat.
Proof.
  induction rows as [|a rows IH]; [done|].
  rewrite (filter_cons Q). case_decide.
  - rewrite !(filter_cons P). case_decide; simpl; lia.
  - rewrite (filter_cons P). case_decide; simpl; lia.
Qed.

Lemma well_assigned_same_rows (d d' : DB) :
  (∀ p, p ∈ prs d' →
        ∃ q, q ∈ prs d ∧ PR_ID q = PR_ID p ∧ AuthorID q = AuthorID p) →
  pr_reviewers d' = pr_reviewers d →
  well_assigned d → well_assigned d'.
Proof.
  intros Hprs Hrows [Ha Ht]. split.
  - intros p (q & Hq & E1 & E2)%Hprs. rewrite Hrows, <- E1, <- E2. by apply Ha.
  - intros prID. unfold reviewer_ids in *. rewrite Hrows. apply Ht.
Qed.

Lemma insert_team_sound (name : string) (d : DB) :
  sound d → sound (insert_team name d).2.
Proof.
  intros [W Hw]. split; [by apply insert_team_consistent|].
  apply (well_assigned_same_rows d); [| |done];
    unfold insert_team; case_decide; simpl; eauto.
Qed.

Lemma insert_user_sound (u : User) (d : DB) :
  sound d → sound (insert_user u d).2.
Proof.
  intros [W Hw]. split; [by apply insert_user_consistent|].
  apply (well_assigned_same_rows d); [| |done];
    unfold insert_user; case_match; simpl; eauto.
Qed.

Lemma update_pr_status_sound (status : string) (id : Z) (d : DB) :
  sound d → sound (update_pr_status status id d).2.
Proof.
  intros [W Hw]. split; [by apply update_pr_status_consistent|].
  apply (well_assigned_same_rows d); [| done |done].
  intros p (q & Hq & ->)%update_pr_status_rows. exists q.
  split; [done|]. by case_decide.
Qed.

(** A new PR has no reviewers yet. *)
Lemma insert_pr_sound (pr : PR) (d : DB) :
  sound d →
  match insert_pr pr d with
  | (Ok row, d') =>
      sound d' ∧ row ∈ prs d' ∧ AuthorID row = AuthorID pr
      ∧ reviewer_ids (PR_ID row) d' = []
  | (_, d') => sound d'
  end.
Proof.
  intros [W Hw]. pose proof (insert_pr_consistent pr d W) as W'.
  assert (∀ r, r ∈ pr_reviewers d → r.1 ≠ prs_id_seq d + 1) as Hfresh.
  { intros r Hr E. apply W in Hr. apply list_elem_of_fmap in Hr as (q & Eq & Hq).
    apply W in Hq. lia. }
  unfold insert_pr in *. case_decide; simpl in *.
  - split; [split; [done|]|].
    + destruct Hw as [Ha Ht]. split; simpl.
      * intros p [Hp| ->%list_elem_of_singleton]%elem_of_app; [by apply Ha|].
        simpl. intros Hr. by apply Hfresh in Hr.
      * apply Ht.
    + split; [apply elem_of_app; right; by left|]. split; [done|].
      unfold reviewer_ids. simpl.
      rewrite (filter_key_absent fst); [done|].
      intros (r & E & Hr)%list_elem_of_fmap. by apply Hfresh in Hr.
  - split; [done|]. by apply (well_assigned_same_rows d); simpl; eauto.
Qed.

(** One more reviewer, other than the author, for a PR that has room. *)
Lemma insert_reviewer_sound (pr : PR) (uid : Z) (n : nat) (d : DB) :
  sound d → pr ∈ prs d → uid ≠ AuthorID pr →
  (length (reviewer_ids (PR_ID pr) d) ≤ n)%nat → (n < 2)%nat →
  let d' := (insert_reviewer (PR_ID pr) uid d).2 in
  sound d' ∧ pr ∈ prs d'
  ∧ (length (reviewer_ids (PR_ID pr) d') ≤ Datatypes.S n)%nat.
Proof.
  intros [W Hw] Hpr Hne Hlen Hn d'.
  pose proof (insert_reviewer_consistent (PR_ID pr) uid d W) as W'.
  subst d'. unfold insert_reviewer in *.
  repeat case_decide; simpl in *; try (split; [done|]; split; [done|]; lia).
  destruct Hw as [Ha Ht]. split; [split; [done|]|].
  - split; simpl.
    + intros p Hp [Hr|Hr%list_elem_of_singleton]%elem_of_app; [by eapply Ha|].
      injection Hr as Hid Hauthor.
      assert (p = pr) as ->; [|done].
      destruct (proj1 (list_elem_of_lookup _ _) Hp) as [i Hi].
      destruct (proj1 (list_elem_of_lookup _ _) Hpr) as [j Hj].
      assert (i = j) as ->; [|congruence].
      apply (NoDup_lookup (PR_ID <$> prs d) _ _ (PR_ID pr)); [apply W|..];
        rewrite list_lookup_fmap; [rewrite Hi; simpl; congruence | by rewrite Hj].
    + intros id. unfold reviewer_ids in *. simpl.
      rewrite filter_app, fmap_app, length_app, filter_cons, filter_nil. simpl.
      destruct (decide (PR_ID pr = id)) as [<-|Hid]; simpl; [lia|].
      specialize (Ht id). lia.
  - split; [done|]. unfold reviewer_ids in *. simpl.
    rewrite filter_app, fmap_app, length_app, filter_cons, filter_nil. simpl.
    rewrite decide_True by done. simpl. lia.
Qed.

(** One reviewer fewer for the PR. *)
Lemma delete_reviewer_sound (prID uid : Z) (d : DB) :
  sound d → uid ∈ reviewer_ids prID d →
  let d' := (delete_reviewer prID uid d).2 in
  sound d' ∧ prs d' = prs d ∧ (length (reviewer_ids prID d') ≤ 1)%nat.
Proof.
  intros [W [Ha Ht]] Hin d'. subst d'.
  split; [split; [by apply delete_reviewer_consistent|]|].
  - split; simpl.
    + intros p Hp [_ Hr]%list_elem_of_filter. by eapply Ha.
    + intros id. unfold reviewer_ids in *. simpl.
      rewrite !length_fmap. specialize (Ht id). rewrite length_fmap in Ht.
      pose proof (length_filter_filter (λ r : Z * Z, r.1 = id)
                    (λ r, r ≠ (prID, uid)) (pr_reviewers d)). lia.
  - split; [done|]. unfold reviewer_ids in *. simpl.
    specialize (Ht prID). rewrite !length_fmap in *.
    pose proof (length_filter_delete (λ r : Z * Z, r.1 = prID)
                  (pr_reviewers d) (prID, uid)) as Hdel.
    rewrite <- Hdel in Ht; [lia|apply W| |done].
    apply list_elem_of_fmap in Hin as ([a b] & -> & [E Hr]%list_elem_of_filter).
    simpl in E. by subst.
Qed.

End assignment_facts.

Section sound_methods.
Import postgres.

(** The round trips of [AssignReviewers] may fail one by one; the rows
    inserted before a failure stay. *)
Lemma AssignReviewers_sound (pr : PR) (userIDs : list Z) (n : nat) :
  (n + length userIDs ≤ 2)%nat →
  (∀ uid, uid ∈ userIDs → uid ≠ AuthorID pr) →
  triple db
    (λ d, sound d ∧ pr ∈ prs d
          ∧ (length (reviewer_ids (PR_ID pr) d) ≤ n)%nat)
    (AssignReviewers (PR_ID pr) userIDs) (λ _, sound) sound.
Proof.
  revert n. induction userIDs as [|uid rest IH]; intros n Hn Hne; simpl.
  - apply triple_ret. tauto.
  - simpl in Hn.
    apply triple_bind_or
      with (Q1 := λ _ d, sound d ∧ pr ∈ prs d
                         ∧ (length (reviewer_ids (PR_ID pr) d)
                            ≤ Datatypes.S n)%nat).
    + apply triple_round_trip; [tauto|].
      intros d (Hs & Hpr & Hlen).
      destruct (insert_reviewer_sound pr uid n d) as (Hs' & Hpr' & Hlen');
        [done|done|apply Hne; by left|done|lia|].
      by destruct (insert_reviewer (PR_ID pr) uid d) as [[[]|e|] d'].
    + intros _. apply IH; [lia|]. intros u Hu. apply Hne. by right.
Qed.

(** [ReplaceReviewer] for a reviewer of the PR and a user other than its
    author. *)
Lemma ReplaceReviewer_sound (pr : PR) (oldUserID newUserID : Z) :
  newUserID ≠ AuthorID pr →
  triple db
    (λ d, sound d ∧ pr ∈ prs d ∧ oldUserID ∈ reviewer_ids (PR_ID pr) d)
    (ReplaceReviewer (PR_ID pr) oldUserID newUserID) (λ _, sound) sound.
Proof.
  intros Hne p (Hs & Hpr & Hold).
  pose proof (ReplaceReviewer_atomic (PR_ID pr) oldUserID newUserID p) as Ha.
  destruct (ReplaceReviewer (PR_ID pr) oldUserID newUserID p) as [r p'].
  simpl. destruct Ha as [(-> & E & _)|(e & -> & ->)]; [|done].
  destruct (delete_reviewer_sound (PR_ID pr) oldUserID (db p) Hs Hold)
    as (Hs1 & Hprs & Hlen).
  destruct (insert_reviewer_sound pr newUserID 1
              (delete_reviewer (PR_ID pr) oldUserID (db p)).2)
    as (Hs2 & _); [done|by rewrite Hprs|done|done|lia|].
  by rewrite E in Hs2.
Qed.

Lemma attach_reviewers_reads (P : DB → Prop) (rows : list PR)
    (out : list PRWithReviewers) :
  triple db P (attach_reviewers rows out) (λ _, P) P.
Proof.
  revert out. induction rows as [|p rows IH]; intros out; simpl.
  - by apply triple_ret.
  - apply triple_bind_or with (Q1 := λ _, P); [|done].
    eapply triple_weaken;
      [apply (triple_query P (select_reviewers (PR_ID p)) _ P)|..];
      try done. by intros a d [? _].
Qed.

End sound_methods.

Section sound_engine.
Import repository postgres service.
Context `{RandSource Rng}.

Local Abbreviation keeps_sound op :=
  (triple (database (Rng := Rng)) sound op (λ _, sound) sound).

(** A query whose answer is not looked at. *)
Lemma triple_call_read {A} (c : Call) (stmt : DB → outcome A * DB)
    (prefix : string) (P I : DB → Prop) :
  (∀ d, (stmt d).2 = d) → (∀ d, P d → I d) →
  triple (database (Rng := Rng)) P
    (s_repo (record c (bind_or (round_trip stmt) (wrap prefix) (λ x, ret x))))
    (λ _, P) I.
Proof.
  intros Hread HI.
  eapply triple_weaken; [by apply (triple_call_query c stmt prefix P I)|..];
    try done. by intros a d [? _].
Qed.

Lemma CreateTeam_sound (name : string) : keeps_sound (service.CreateTeam name).
Proof.
  unfold service.CreateTeam. case_decide; [by apply triple_fail|].
  apply triple_bind with (Q1 := λ _, sound); [|intros; by apply triple_ret].
  apply triple_call, (triple_statement _ _ _ (λ x, x)); [done|].
  intros d Hs. apply (insert_team_sound name) in Hs.
  by destruct (insert_team name d) as [[t|e|] d'].
Qed.

Lemma CreateUser_sound (teamID : option Z) (name : string) (isActive : bool) :
  keeps_sound (service.CreateUser teamID name isActive).
Proof.
  unfold service.CreateUser. case_decide; [by apply triple_fail|].
  apply triple_bind with (Q1 := λ _, sound).
  { destruct teamID as [t|]; [|by apply triple_ret].
    apply triple_bind_or with (Q1 := λ _, sound);
      [|intros; by apply triple_ret].
    by apply (triple_call_read (CallGetTeamByID t) (select_team t)
                "get team: "). }
  intros _.
  apply triple_bind with (Q1 := λ _, sound); [|intros; by apply triple_ret].
  apply triple_call, (triple_statement _ _ _ (λ x, x)); [done|].
  intros d Hs. apply (insert_user_sound (mkUser 0 teamID name isActive 0)) in Hs.
  by destruct (insert_user _ d) as [[t|e|] d'].
Qed.

Lemma MergePR_sound (prID : Z) : keeps_sound (service.MergePR prID).
Proof.
  assert (∀ I, (∀ d, sound d → I d) →
               triple (database (Rng := Rng)) sound
                 (s_repo (repository.GetReviewersByPR prID))
                 (λ _, sound) I) as Hread.
  { intros I HI.
    by apply (triple_call_read (CallGetReviewersByPR prID)
                (select_reviewers prID) "get reviewers by PR: "). }
  unfold service.MergePR.
  apply triple_bind_or with (Q1 := λ _, sound).
  { by apply (triple_call_read (CallGetPRByID prID) (select_pr prID)
                "get PR: "). }
  intros pr. case_decide.
  { apply triple_bind_ignoring with (Q1 := λ _, sound);
      [by apply Hread|intros; by apply triple_ret|done]. }
  case_decide; [by apply triple_fail|].
  apply triple_bind with (Q1 := λ _, sound).
  { apply triple_call, (triple_statement _ _ _ (λ _, ())); [done|].
    intros d Hs. by apply (update_pr_status_sound PRStatusMerged prID) in Hs. }
  intros _. apply triple_bind with (Q1 := λ _, sound);
    [by apply Hread|intros; by apply triple_ret].
Qed.

Lemma ListPRsAssignedToUser_sound (userID : Z) :
  keeps_sound (service.ListPRsAssignedToUser userID).
Proof.
  unfold service.ListPRsAssignedToUser.
  apply triple_bind_or with (Q1 := λ _, sound).
  { by apply (triple_call_read (CallGetUserByID userID) (select_user userID)
                "get user: "). }
  intros _. apply triple_bind with (Q1 := λ _, sound);
    [|intros; by apply triple_ret].
  apply triple_call. unfold postgres.ListPRsAssignedToUser.
  apply triple_bind_or with (Q1 := λ _, sound).
  - by apply triple_round_trip.
  - intros rows. apply attach_reviewers_reads.
Qed.

Lemma StatsAssignments_sound : keeps_sound service.StatsAssignments.
Proof.
  unfold service.StatsAssignments.
  apply triple_bind with (Q1 := λ _, sound); [|intros; by apply triple_ret].
  by apply (triple_call_read CallCountAssignments count_reviewers
              "count assignments: ").
Qed.

Lemma CreatePR_sound (title : string) (authorID : Z) :
  keeps_sound (service.CreatePR title authorID).
Proof.
  unfold service.CreatePR.
  apply triple_bind_or with (Q1 := λ _, sound).
  { by apply (triple_call_read (CallGetUserByID authorID)
                (select_user authorID) "get user: "). }
  intros author. destruct (negb (IsActive author)); [by apply triple_fail|].
  set (fresh := λ (pr : PR) d,
         (sound d ∧ pr ∈ prs d ∧ reviewer_ids (PR_ID pr) d = [])
         ∧ AuthorID pr = authorID).
  apply triple_bind with (Q1 := fresh).
  { apply triple_call, (triple_statement _ _ _ (λ x, x)); [done|].
    intros d Hs.
    apply (insert_pr_sound (mkPR 0 title authorID PRStatusOpen 0)) in Hs.
    destruct (insert_pr _ d) as [[row|e|] d']; simpl; [|done..].
    unfold fresh. tauto. }
  intros pr. unfold fresh. apply triple_pure. intros Hauthor.
  destruct (TeamID author) as [teamID|]; [|apply triple_ret; tauto].
  eapply triple_bind.
  { apply (triple_call_query (CallListActiveUsersInTeam teamID)
             (select_active_users teamID) "list active users: " _ sound);
      [done|tauto]. }
  intros candidates.
  set (filtered := filter (λ u, ID u ≠ authorID) candidates).
  set (count := if decide (len filtered < 2) then len filtered else 2).
  assert (0 ≤ len filtered) as Hlen by (unfold len; lia).
  assert (0 ≤ count ≤ 2) as Hcount by (unfold count; case_decide; lia).
  apply triple_bind with (Q1 := λ _, sound).
  { case_decide; [|apply triple_ret; tauto].
    eapply triple_bind.
    { apply triple_total, triple_randomSample; lia. }
    intros idxs. apply triple_pure. intros [Hidxs Hrange].
    eapply triple_bind.
    { by apply triple_total, triple_collect_ids. }
    intros chosenIDs. apply triple_pure. intros [Hchosen Hin].
    apply triple_bind with (Q1 := λ _, sound); [|intros; by apply triple_ret].
    apply triple_call.
    eapply triple_weaken; [apply (AssignReviewers_sound pr chosenIDs 0)|..];
      try done.
    - simpl. lia.
    - intros uid (u & -> & [Hu _]%list_elem_of_filter)%Hin%list_elem_of_fmap.
      by rewrite Hauthor.
    - intros d [(Hs & Hpr & Hnone) _]. rewrite Hnone. simpl.
      split; [done|]. split; [done|lia]. }
  intros _. apply triple_bind with (Q1 := λ _, sound);
    [|intros; by apply triple_ret].
  by apply (triple_call_read (CallGetReviewersByPR (PR_ID pr))
              (select_reviewers (PR_ID pr)) "get reviewers by PR: ").
Qed.

Lemma ReassignReviewer_sound (prID oldUserID : Z) :
  keeps_sound (service.ReassignReviewer prID oldUserID).
Proof.
  unfold service.ReassignReviewer.
  eapply triple_bind_or.
  { by apply (triple_call_query (CallGetPRByID prID) (select_pr prID)
                "get PR: " sound sound). }
  intros pr. case_decide; [apply triple_fail; tauto|].
  eapply triple_bind_or.
  { apply (triple_call_query (CallGetUserByID oldUserID)
             (select_user oldUserID) "get user: " _ sound); [done|tauto]. }
  intros oldUser.
  destruct (TeamID oldUser) as [teamID|]; [|apply triple_fail; tauto].
  eapply triple_bind.
  { apply (triple_call_query (CallGetReviewersByPR prID)
             (select_reviewers prID) "get reviewers by PR: " _ sound);
      [done|tauto]. }
  intros currentReviewers.
  destruct (negb (has_reviewer currentReviewers oldUserID)) eqn:Hhas;
    [apply triple_fail; tauto|].
  apply negb_false_iff, has_reviewer_elem in Hhas.
  eapply triple_bind.
  { apply (triple_call_query (CallListActiveUsersInTeam teamID)
             (select_active_users teamID) "list active users: " _ sound);
      [done|tauto]. }
  intros candidates.
  set (filtered := replacement_pool pr oldUserID currentReviewers candidates).
  case_decide as Hnone; [apply triple_fail; tauto|].
  eapply triple_bind.
  { apply triple_total, triple_s_rand_Intn. unfold len in *. lia. }
  intros newIdx. apply triple_pure. intros Hidx.
  destruct (index filtered newIdx) as [newUser|] eqn:Hnew;
    [|apply triple_panic; tauto].
  assert (ID newUser ≠ AuthorID pr) as Hne.
  { unfold index in Hnew. case_decide; [done|].
    apply list_elem_of_lookup_2 in Hnew.
    apply list_elem_of_filter in Hnew as [[? _] _]. done. }
  apply triple_bind with (Q1 := λ _, sound).
  { apply triple_call.
    assert (∀ d, select_pr prID d = (Ok pr, d) → pr ∈ prs d ∧ PR_ID pr = prID)
      as Hsel.
    { intros d E. apply select_pr_Ok in E. tauto. }
    intros p ((((Hs & Hpr%Hsel) & _) & Hrevs) & _).
    destruct Hpr as [Hpr <-].
    apply (ReplaceReviewer_sound pr oldUserID (ID newUser) Hne).
    split; [done|]. split; [done|].
    injection Hrevs as Hrevs. rewrite <- (reviewers_of_ids _ _ (proj1 Hs)).
    by rewrite Hrevs. }
  intros _. apply triple_bind with (Q1 := λ _, sound);
    [|intros; by apply triple_ret].
  by apply (triple_call_read (CallGetReviewersByPR prID)
              (select_reviewers prID) "get reviewers by PR: ").
Qed.

End sound_engine.

(** ** The requests the handlers make of the service *)

(** [type ServiceInterface interface]: one request per method. *)
Inductive request : Type :=
  | ReqCreateTeam (name : string)
  | ReqCreateUser (teamID : option Z) (name : string) (isActive : bool)
  | ReqCreatePR (title : string) (authorID : Z)
  | ReqReassignReviewer (prID oldUserID : Z)
  | ReqMergePR (prID : Z)
  | ReqListPRsAssignedToUser (userID : Z)
  | ReqStatsAssignments.

(** The engine after it has served a request, whatever it answered. *)
Definition serve `{RandSource Rng} (r : request) (s : Engine Rng)
  : Engine Rng :=
  match r with
  | ReqCreateTeam name => exec (service.CreateTeam name) s
  | ReqCreateUser teamID name isActive =>
      exec (service.CreateUser teamID name isActive) s
  | ReqCreatePR title authorID => exec (service.CreatePR title authorID) s
  | ReqReassignReviewer prID oldUserID =>
      exec (service.ReassignReviewer prID oldUserID) s
  | ReqMergePR prID => exec (service.MergePR prID) s
  | ReqListPRsAssignedToUser userID =>
      exec (service.ListPRsAssignedToUser userID) s
  | ReqStatsAssignments => exec service.StatsAssignments s
  end.

Definition run `{RandSource Rng} (requests : list request) (s : Engine Rng)
  : Engine Rng :=
  foldl (λ s r, serve r s) s requests.

Lemma triple_exec `{RandSource Rng} {A} (P : postgres.DB → Prop)
    (op : M (Engine Rng) A) (s : Engine Rng) :
  triple database P op (λ _, P) P → P (database s) → P (database (exec op s)).
Proof.
  intros Hop HP. specialize (Hop s HP). unfold exec.
  by destruct (op s).1.
Qed.

Lemma serve_sound `{RandSource Rng} (r : request) (s : Engine Rng) :
  sound (database s) → sound (database (serve r s)).
Proof.
  destruct r; simpl; apply triple_exec.
  - apply CreateTeam_sound.
  - apply CreateUser_sound.
  - apply CreatePR_sound.
  - apply ReassignReviewer_sound.
  - apply MergePR_sound.
  - apply ListPRsAssignedToUser_sound.
  - apply StatsAssignments_sound.
Qed.

(** X7. Whatever requests the engine serves and whatever the network does to
    their round trips, no PR's author is among its reviewers and no PR has
    more than two reviewers, if that was so before. *)
Theorem no_author_reviews_and_no_PR_has_three_reviewers `{RandSource Rng}
    (requests : list request) (s : Engine Rng) :
  postgres.consistent (database s) → well_assigned (database s) →
  well_assigned (database (run requests s)).
Proof.
  intros W Hw. assert (sound (database s)) as Hs by done. clear W Hw.
  revert s Hs. unfold run.
  induction requests as [|r requests IH]; intros s Hs; simpl.
  - apply Hs.
  - apply IH. by apply serve_sound.
Qed.

(** The two PRs of the office and their three reviewers are well assigned. *)
Lemma office_with_two_prs_well_assigned :
  well_assigned (database office_with_two_prs).
Proof.
  assert (postgres.prs (database office_with_two_prs)
          = [mkPR 1 "Add login" 1 PRStatusOpen 1700000000;
             mkPR 2 "Fix styles" 6 PRStatusOpen 1700000000]) as Hprs
    by (vm_compute; reflexivity).
  assert (postgres.pr_reviewers (database office_with_two_prs)
          = [(1, 3); (1, 2); (2, 7)]) as Hrevs
    by (vm_compute; reflexivity).
  split.
  - intros p Hp. rewrite Hprs in Hp. rewrite Hrevs. clear Hprs Hrevs.
    apply elem_of_cons in Hp as [->|Hp];
      [|apply list_elem_of_singleton in Hp as ->]; simpl; intros Hin;
      repeat (apply elem_of_cons in Hin as [Hin|Hin]; [discriminate Hin|]);
      by apply elem_of_nil in Hin.
  - intros prID. unfold postgres.reviewer_ids. rewrite Hrevs, length_fmap.
    clear Hprs Hrevs. rewrite !filter_cons, filter_nil.
    repeat case_decide; simpl in *; lia.
Qed.

(** From the office with its two PRs and three reviewers: a reassignment
    whose answer is lost with the reading of the reviewers, a PR that gets
    one reviewer because the insertion of the second is refused, a merge, a
    reassignment on the new PR, one more PR and a reassignment refused on the
    merged one.  Five reviewers are stored in the end, on four PRs. *)
Lemma no_author_reviews_and_no_PR_has_three_reviewers_witness :
  let s := on_network
             [None; None; None; None; None; None; None; None;
              Some connection_reset;
              None; None; None; None; Some connection_reset]
             office_with_two_prs in
  let d' := database
              (run [ReqReassignReviewer 1 3; ReqCreatePR "Add logout" 2;
                    ReqMergePR 2; ReqReassignReviewer 3 1;
                    ReqCreatePR "Fix layout" 7; ReqReassignReviewer 2 7]
                   s) in
  postgres.pr_reviewers (database s) = [(1, 3); (1, 2); (2, 7)]
  ∧ postgres.pr_reviewers d' = [(1, 2); (2, 7); (1, 4); (3, 3); (4, 6)]
  ∧ ((λ p, (PR_ID p, AuthorID p, Status p)) <$> postgres.prs d')
    = [(1, 1, PRStatusOpen); (2, 6, PRStatusMerged);
       (3, 2, PRStatusOpen); (4, 7, PRStatusOpen)]
  ∧ well_assigned d'.
Proof.
  cbv zeta. split; [vm_compute; reflexivity|].
  split; [vm_compute; reflexivity|]. split; [vm_compute; reflexivity|].
  apply no_author_reviews_and_no_PR_has_three_reviewers.
  - rewrite database_on_network. exact office_with_two_prs_consistent.
  - rewrite database_on_network. exact office_with_two_prs_well_assigned.
Defined.

(** ** A merged PR is never changed again *)

Section frozen_facts.
Import postgres.

(** The PR [p] is stored with the reviewers [revs]. *)
Definition stored_with (p : PR) (revs : list User) (d : DB) : Prop :=
  consistent d ∧ p ∈ prs d ∧ reviewers_of (PR_ID p) d = revs.

Lemma reviewers_of_same (id : Z) (d d' : DB) :
  users d' = users d → pr_reviewers d' = pr_reviewers d →
  reviewers_of id d' = reviewers_of id d.
Proof. unfold reviewers_of. by intros -> ->. Qed.

Lemma reviewers_of_new_user (id : Z) (d : DB) (u : User) :
  consistent d → users_id_seq d < ID u →
  (r ← filter (λ r, r.1 = id) (pr_reviewers d);
   filter (λ x, ID x = r.2) (users d ++ [u]))
  = reviewers_of id d.
Proof.
  intros W Hu. unfold reviewers_of.
  assert (∀ r, r ∈ filter (λ r : Z * Z, r.1 = id) (pr_reviewers d) →
               r.2 ≠ ID u) as Hold.
  { intros r [_ Hr]%list_elem_of_filter E.
    apply (pr_reviewers_user_id_fkey d W) in Hr.
    apply list_elem_of_fmap in Hr as (x & Ex & Hx).
    apply (users_serial d W) in Hx. lia. }
  induction (filter (λ r : Z * Z, r.1 = id) (pr_reviewers d)) as [|r rows IH];
    [done|].
  rewrite !bind_cons, IH by (intros; apply Hold; by right).
  f_equal. rewrite filter_app, filter_cons, filter_nil.
  rewrite decide_False; [by rewrite app_nil_r|].
  intros E. by apply (Hold r ltac:(left)).
Qed.

Lemma reviewers_of_other_rows (id prID uid : Z) (d : DB) :
  id ≠ prID →
  reviewers_of id (insert_reviewer prID uid d).2 = reviewers_of id d
  ∧ reviewers_of id (delete_reviewer prID uid d).2 = reviewers_of id d.
Proof.
  intros Hne. unfold reviewers_of, insert_reviewer, delete_reviewer. split.
  - repeat case_decide; simpl; try done.
    rewrite filter_app, filter_cons, filter_nil. simpl.
    rewrite decide_False by (by intros ?). by rewrite app_nil_r.
  - simpl. f_equal. rewrite list_filter_filter. apply list_filter_iff.
    intros [a b]. simpl. split; [tauto|]. intros ->. split; [done|].
    intros [= ? ?]. done.
Qed.

Lemma insert_team_stored (name : string) (p : PR) (revs : list User) (d : DB) :
  stored_with p revs d → stored_with p revs (insert_team name d).2.
Proof.
  intros (W & Hp & Hr). split; [by apply insert_team_consistent|].
  unfold insert_team. by case_decide.
Qed.

Lemma insert_user_stored (u : User) (p : PR) (revs : list User) (d : DB) :
  stored_with p revs d → stored_with p revs (insert_user u d).2.
Proof.
  intros (W & Hp & Hr). split; [by apply insert_user_consistent|].
  unfold insert_user. case_match; simpl; [|done]. split; [done|].
  unfold reviewers_of at 1. simpl.
  rewrite reviewers_of_new_user; [done..|simpl; lia].
Qed.

(** The rows of the PRs that were there stay, and a new PR has the next
    identifier. *)
Lemma insert_pr_stored (pr p : PR) (revs : list User) (d : DB) :
  stored_with p revs d →
  match insert_pr pr d with
  | (Ok row, d') => stored_with p revs d' ∧ PR_ID row ≠ PR_ID p
  | (_, d') => stored_with p revs d'
  end.
Proof.
  intros (W & Hp & Hr). pose proof (insert_pr_consistent pr d W) as W'.
  pose proof (prs_serial d W p Hp) as Hid.
  unfold insert_pr in *. case_decide; simpl in *; [|done].
  split; [|lia]. split; [done|]. split; [|done]. apply elem_of_app. by left.
Qed.

(** [UPDATE prs SET status='MERGED'] rewrites a merged PR to itself. *)
Lemma update_pr_status_stored (id : Z) (p : PR) (revs : list User) (d : DB) :
  Status p = PRStatusMerged →
  stored_with p revs d →
  stored_with p revs (update_pr_status PRStatusMerged id d).2.
Proof.
  intros Hm (W & Hp & Hr). split; [by apply update_pr_status_consistent|].
  split; [|done]. apply update_pr_status_rows. exists p. split; [done|].
  case_decide; [|done]. destruct p. simpl in *. by subst.
Qed.

Lemma AssignReviewers_stored (prID : Z) (userIDs : list Z) (p : PR)
    (revs : list User) :
  prID ≠ PR_ID p →
  triple db (stored_with p revs) (AssignReviewers prID userIDs)
         (λ _, stored_with p revs) (stored_with p revs).
Proof.
  intros Hne. induction userIDs as [|uid rest IH]; simpl.
  - by apply triple_ret.
  - apply triple_bind_or with (Q1 := λ _, stored_with p revs); [|done].
    apply triple_round_trip; [done|].
    intros d (W & Hp & Hr).
    assert (stored_with p revs (insert_reviewer prID uid d).2) as Hs.
    { split; [by apply insert_reviewer_consistent|]. split.
      - unfold insert_reviewer. by repeat case_decide.
      - by rewrite (proj1 (reviewers_of_other_rows _ prID uid d
                             (not_eq_sym Hne))). }
    by destruct (insert_reviewer prID uid d) as [[[]|e|] d'].
Qed.

Lemma ReplaceReviewer_stored (prID oldUserID newUserID : Z) (p : PR)
    (revs : list User) :
  prID ≠ PR_ID p →
  triple db (stored_with p revs) (ReplaceReviewer prID oldUserID newUserID)
         (λ _, stored_with p revs) (stored_with p revs).
Proof.
  intros Hne t (W & Hp & Hr).
  pose proof (ReplaceReviewer_atomic prID oldUserID newUserID t) as Ha.
  destruct (ReplaceReviewer prID oldUserID newUserID t) as [r t'].
  simpl. destruct Ha as [(-> & E & _)|(e & -> & ->)]; [|done].
  pose proof (insert_reviewer_consistent prID newUserID _
                (delete_reviewer_consistent prID oldUserID _ W)) as W'.
  pose proof (proj1 (reviewers_of_other_rows (PR_ID p) prID newUserID
                       (delete_reviewer prID oldUserID (db t)).2
                       (not_eq_sym Hne))) as E1.
  pose proof (proj2 (reviewers_of_other_rows (PR_ID p) prID oldUserID (db t)
                       (not_eq_sym Hne))) as E2.
  assert (prs (insert_reviewer prID newUserID
                 (delete_reviewer prID oldUserID (db t)).2).2 = prs (db t))
    as E3.
  { unfold insert_reviewer. by repeat case_decide. }
  rewrite E in *. simpl in *. split; [done|]. split; [by rewrite E3|].
  by rewrite E1, E2.
Qed.

End frozen_facts.

Section frozen_engine.
Import repository postgres service.
Context `{RandSource Rng} (p : PR) (revs : list User).
Hypothesis p_merged : Status p = PRStatusMerged.

Local Abbreviation stored := (stored_with p revs).
Local Abbreviation keeps_stored op :=
  (triple (database (Rng := Rng)) stored op (λ _, stored) stored).

Lemma CreateTeam_stored (name : string) :
  keeps_stored (service.CreateTeam name).
Proof.
  unfold service.CreateTeam. case_decide; [by apply triple_fail|].
  apply triple_bind with (Q1 := λ _, stored); [|intros; by apply triple_ret].
  apply triple_call, (triple_statement _ _ _ (λ x, x)); [done|].
  intros d Hs. apply (insert_team_stored name) in Hs.
  by destruct (insert_team name d) as [[t|e|] d'].
Qed.

Lemma CreateUser_stored (teamID : option Z) (name : string) (isActive : bool) :
  keeps_stored (service.CreateUser teamID name isActive).
Proof.
  unfold service.CreateUser. case_decide; [by apply triple_fail|].
  apply triple_bind with (Q1 := λ _, stored).
  { destruct teamID as [t|]; [|by apply triple_ret].
    apply triple_bind_or with (Q1 := λ _, stored);
      [|intros; by apply triple_ret].
    by apply (triple_call_read (CallGetTeamByID t) (select_team t)
                "get team: "). }
  intros _.
  apply triple_bind with (Q1 := λ _, stored); [|intros; by apply triple_ret].
  apply triple_call, (triple_statement _ _ _ (λ x, x)); [done|].
  intros d Hs.
  apply (insert_user_stored (mkUser 0 teamID name isActive 0)) in Hs.
  by destruct (insert_user _ d) as [[t|e|] d'].
Qed.

Lemma CreatePR_stored (title : string) (authorID : Z) :
  keeps_stored (service.CreatePR title authorID).
Proof.
  unfold service.CreatePR.
  apply triple_bind_or with (Q1 := λ _, stored).
  { by apply (triple_call_read (CallGetUserByID authorID)
                (select_user authorID) "get user: "). }
  intros author. destruct (negb (IsActive author)); [by apply triple_fail|].
  apply triple_bind with (Q1 := λ pr d, stored d ∧ PR_ID pr ≠ PR_ID p).
  { apply triple_call, (triple_statement _ _ _ (λ x, x)); [done|].
    intros d Hs.
    apply (insert_pr_stored (mkPR 0 title authorID PRStatusOpen 0)) in Hs.
    by destruct (insert_pr _ d) as [[row|e|] d']. }
  intros pr. apply triple_pure. intros Hnew.
  destruct (TeamID author) as [teamID|]; [|by apply triple_ret].
  apply triple_bind with (Q1 := λ _, stored).
  { by apply (triple_call_read (CallListActiveUsersInTeam teamID)
                (select_active_users teamID) "list active users: "). }
  intros candidates.
  set (filtered := filter (λ u, ID u ≠ authorID) candidates).
  set (count := if decide (len filtered < 2) then len filtered else 2).
  assert (0 ≤ len filtered) as Hlen by (unfold len; lia).
  assert (0 ≤ count ≤ 2) as Hcount by (unfold count; case_decide; lia).
  apply triple_bind with (Q1 := λ _, stored).
  { case_decide; [|by apply triple_ret].
    eapply triple_bind.
    { apply triple_total, triple_randomSample; lia. }
    intros idxs. apply triple_pure. intros [Hidxs Hrange].
    eapply triple_bind.
    { by apply triple_total, triple_collect_ids. }
    intros chosenIDs. apply triple_pure. intros _.
    apply triple_bind with (Q1 := λ _, stored); [|intros; by apply triple_ret].
    by apply triple_call, AssignReviewers_stored. }
  intros _. apply triple_bind with (Q1 := λ _, stored);
    [|intros; by apply triple_ret].
  by apply (triple_call_read (CallGetReviewersByPR (PR_ID pr))
              (select_reviewers (PR_ID pr)) "get reviewers by PR: ").
Qed.

Lemma ReassignReviewer_stored (prID oldUserID : Z) :
  keeps_stored (service.ReassignReviewer prID oldUserID).
Proof.
  unfold service.ReassignReviewer.
  eapply triple_bind_or.
  { by apply (triple_call_query (CallGetPRByID prID) (select_pr prID)
                "get PR: " stored stored). }
  intros pr. case_decide as Hopen; [apply triple_fail; tauto|].
  (* the PR that was read is not merged: it is not [p] *)
  apply triple_weaken
    with (P' := λ d, stored d ∧ prID ≠ PR_ID p)
         (Q' := λ _, stored) (I' := stored); [| |done..].
  2:{ intros d [(W & Hp & Hr) E]. split; [done|]. intros ->.
      rewrite (select_pr_found d p W Hp) in E. congruence. }
  apply triple_pure. intros Hne.
  apply triple_bind_or with (Q1 := λ _, stored).
  { by apply (triple_call_read (CallGetUserByID oldUserID)
                (select_user oldUserID) "get user: "). }
  intros oldUser.
  destruct (TeamID oldUser) as [teamID|]; [|by apply triple_fail].
  apply triple_bind with (Q1 := λ _, stored).
  { by apply (triple_call_read (CallGetReviewersByPR prID)
                (select_reviewers prID) "get reviewers by PR: "). }
  intros currentReviewers.
  destruct (negb (has_reviewer currentReviewers oldUserID));
    [by apply triple_fail|].
  apply triple_bind with (Q1 := λ _, stored).
  { by apply (triple_call_read (CallListActiveUsersInTeam teamID)
                (select_active_users teamID) "list active users: "). }
  intros candidates.
  case_decide as Hnone; [by apply triple_fail|].
  eapply triple_bind.
  { apply triple_total, triple_s_rand_Intn. unfold len in *. lia. }
  intros newIdx. apply triple_pure. intros _.
  destruct (index _ newIdx) as [newUser|]; [|by apply triple_panic].
  apply triple_bind with (Q1 := λ _, stored).
  { by apply triple_call, ReplaceReviewer_stored. }
  intros _. apply triple_bind with (Q1 := λ _, stored);
    [|intros; by apply triple_ret].
  by apply (triple_call_read (CallGetReviewersByPR prID)
              (select_reviewers prID) "get reviewers by PR: ").
Qed.

Lemma MergePR_stored (prID : Z) : keeps_stored (service.MergePR prID).
Proof.
  unfold service.MergePR.
  apply triple_bind_or with (Q1 := λ _, stored).
  { by apply (triple_call_read (CallGetPRByID prID) (select_pr prID)
                "get PR: "). }
  intros pr. case_decide.
  { apply triple_bind_ignoring with (Q1 := λ _, stored);
      [|intros; by apply triple_ret|done].
    by apply (triple_call_read (CallGetReviewersByPR prID)
                (select_reviewers prID) "get reviewers by PR: "). }
  case_decide; [by apply triple_fail|].
  apply triple_bind with (Q1 := λ _, stored).
  { apply triple_call, (triple_statement _ _ _ (λ _, ())); [done|].
    intros d Hs. by apply (update_pr_status_stored prID) in Hs. }
  intros _. apply triple_bind with (Q1 := λ _, stored);
    [|intros; by apply triple_ret].
  by apply (triple_call_read (CallGetReviewersByPR prID)
              (select_reviewers prID) "get reviewers by PR: ").
Qed.

Lemma ListPRsAssignedToUser_stored (userID : Z) :
  keeps_stored (service.ListPRsAssignedToUser userID).
Proof.
  unfold service.ListPRsAssignedToUser.
  apply triple_bind_or with (Q1 := λ _, stored).
  { by apply (triple_call_read (CallGetUserByID userID) (select_user userID)
                "get user: "). }
  intros _. apply triple_bind with (Q1 := λ _, stored);
    [|intros; by apply triple_ret].
  apply triple_call. unfold postgres.ListPRsAssignedToUser.
  apply triple_bind_or with (Q1 := λ _, stored).
  - by apply triple_round_trip.
  - intros rows. apply attach_reviewers_reads.
Qed.

Lemma StatsAssignments_stored : keeps_stored service.StatsAssignments.
Proof.
  unfold service.StatsAssignments.
  apply triple_bind with (Q1 := λ _, stored); [|intros; by apply triple_ret].
  by apply (triple_call_read CallCountAssignments count_reviewers
              "count assignments: ").
Qed.

Lemma serve_stored (r : request) (s : Engine Rng) :
  stored (database s) → stored (database (serve r s)).
Proof.
  destruct r; simpl; apply triple_exec.
  - apply CreateTeam_stored.
  - apply CreateUser_stored.
  - apply CreatePR_stored.
  - apply ReassignReviewer_stored.
  - apply MergePR_stored.
  - apply ListPRsAssignedToUser_stored.
  - apply StatsAssignments_stored.
Qed.

End frozen_engine.

(** X8. A PR that is stored as [MERGED] is stored unchanged, with the same
    reviewers, after any requests the engine serves, whatever the network
    does to their round trips. *)
Theorem merged_PRs_are_frozen `{RandSource Rng} (requests : list request)
    (p : PR) (s : Engine Rng) :
  postgres.consistent (database s) →
  p ∈ postgres.prs (database s) → Status p = PRStatusMerged →
  p ∈ postgres.prs (database (run requests s))
  ∧ postgres.reviewers_of (PR_ID p) (database (run requests s))
    = postgres.reviewers_of (PR_ID p) (database s).
Proof.
  intros W Hp Hm.
  assert (stored_with p (postgres.reviewers_of (PR_ID p) (database s))
            (database s)) as Hs by done.
  revert Hs. generalize (postgres.reviewers_of (PR_ID p) (database s)).
  intros revs. clear W Hp. revert s. unfold run.
  induction requests as [|r requests IH]; intros s Hs; simpl.
  - destruct Hs as (_ & ? & ?). done.
  - apply IH. by apply serve_stored.
Qed.

Lemma merged_PRs_are_frozen_witness :
  let p := mkPR 1 "Add login" 1 PRStatusMerged 1700000000 in
  let requests := [ReqReassignReviewer 1 2; ReqMergePR 1;
                   ReqCreateUser (Some 1) "Hanna" true;
                   ReqCreatePR "Add logout" 1; ReqReassignReviewer 1 3] in
  p ∈ postgres.prs (database (run requests office_after_merge))
  ∧ postgres.reviewers_of 1 (database (run requests office_after_merge))
    = postgres.reviewers_of 1 (database office_after_merge).
Proof.
  apply (merged_PRs_are_frozen _
           (mkPR 1 "Add login" 1 PRStatusMerged 1700000000)
           office_after_merge office_after_merge_consistent).
  - vm_compute. repeat constructor.
  - reflexivity.
Defined.

(** ** The PRs assigned to a user *)

Section assigned_facts.
Import repository postgres service.
Context `{RandSource Rng}.
Implicit Types s : Engine Rng.

Lemma round_trip_healthy {A} (stmt : DB → outcome A * DB) (p : Pool) :
  healthy 1 p →
  round_trip stmt p
  = ((stmt (db p)).1, mkPool (stmt (db p)).2 (tail (faults p))).
Proof.
  unfold healthy, round_trip.
  destruct (faults p) as [|[e|] rest]; simpl; intros Hh.
  - by destruct (stmt (db p)).
  - by apply Forall_cons in Hh as [? _].
  - by destruct (stmt (db p)).
Qed.

Lemma healthy_tail (n : nat) (p : Pool) (d : DB) :
  healthy (Datatypes.S n) p → healthy n (mkPool d (tail (faults p))).
Proof.
  unfold healthy. simpl. destruct (faults p) as [|x l]; simpl.
  - by rewrite take_nil.
  - by intros [_ ?]%Forall_cons.
Qed.

(** The entry [ListPRsAssignedToUser] builds for a PR. *)
Definition with_reviewers (d : DB) (p : PR) : PRWithReviewers :=
  mkPRWithReviewers p (reviewers_of (PR_ID p) d).

(** One round trip per row, each for the reviewers of the row's PR. *)
Lemma attach_reviewers_healthy (rows : list PR) (out : list PRWithReviewers)
    (p : Pool) :
  healthy (length rows) p →
  attach_reviewers rows out p
  = (Ok (out ++ (with_reviewers (db p) <$> rows)),
     mkPool (db p) (drop (length rows) (faults p))).
Proof.
  revert out p. induction rows as [|row rows IH]; intros out p Hh;
    simpl in *.
  - unfold ret. rewrite app_nil_r. by destruct p.
  - unfold bind_or at 1, GetReviewersByPR, bind_or at 1.
    rewrite round_trip_healthy by (eapply healthy_le; [|done]; lia).
    simpl. rewrite IH by (by apply healthy_tail). simpl.
    rewrite <- app_assoc. simpl.
    destruct (faults p); simpl; by rewrite ?drop_nil.
Qed.

Lemma ListPRsAssignedToUser_healthy (userID : Z) (rows : list PR) (p : Pool) :
  select_prs_of_reviewer userID (db p) = (Ok rows, db p) →
  healthy (Datatypes.S (length rows)) p →
  postgres.ListPRsAssignedToUser userID p
  = (Ok (with_reviewers (db p) <$> rows),
     mkPool (db p) (drop (Datatypes.S (length rows)) (faults p))).
Proof.
  intros E Hh. unfold postgres.ListPRsAssignedToUser, bind_or.
  rewrite round_trip_healthy by (eapply healthy_le; [|done]; lia).
  rewrite E. simpl.
  rewrite attach_reviewers_healthy by (by apply healthy_tail). simpl.
  destruct (faults p); simpl; by rewrite ?drop_nil.
Qed.

(** The join of [ListPRsAssignedToUser] returns one PR per assignment. *)
Lemma join_prs_ids (d : DB) (rows : list (Z * Z)) :
  NoDup (PR_ID <$> prs d) →
  (∀ r, r ∈ rows → r.1 ∈ PR_ID <$> prs d) →
  PR_ID <$> (r ← rows; filter (λ p, PR_ID p = r.1) (prs d)) = fst <$> rows.
Proof.
  intros Hnd. induction rows as [|r rows IH]; intros Hfk; [done|].
  rewrite bind_cons, fmap_app, fmap_cons, IH
    by (intros; apply Hfk; right; done).
  pose proof (Hfk r ltac:(left)) as Hr.
  apply list_elem_of_fmap in Hr as (p & E & Hp).
  rewrite E, (filter_key_singleton PR_ID) by done. reflexivity.
Qed.

End assigned_facts.

(** X9. [ListPRsAssignedToUser] for a user who is not in [users] fails with
    an [ErrBadRequest], "user not found", after the one look-up.  For a
    stored user, on a connection that stays healthy for one round trip per
    assignment and two more, it returns one entry per row of [pr_reviewers]
    that names the user, in whatever order the join yields them (the query
    has no [ORDER BY]): the stored PR of the row, with the reviewers stored
    for that PR, in some order, the user among them.  The database is as it
    was. *)
Theorem ListPRsAssignedToUser_lists_each_assignment_of_the_user
    `{RandSource Rng} :
  (∀ (userID : Z) (s : Engine Rng),
     postgres.healthy 1 (pool s) →
     userID ∉ ID <$> postgres.users (database s) →
     ∃ s',
       service.ListPRsAssignedToUser userID s
       = (Err (service.Errorf_w service.ErrBadRequest "user not found"), s')
       ∧ calls_since s s' = [repository.CallGetUserByID userID])
  ∧ (∀ (u : User) (s : Engine Rng),
       postgres.consistent (database s) →
       u ∈ postgres.users (database s) →
       postgres.healthy (2 + length (postgres.pr_reviewers (database s)))
                        (pool s) →
       ∃ out s',
         service.ListPRsAssignedToUser (ID u) s = (Ok out, s')
         ∧ database s' = database s
         ∧ (PR_ID <$> (PR_of <$> out))
           ≡ₚ fst <$> filter (λ r, r.2 = ID u)
                             (postgres.pr_reviewers (database s))
         ∧ ∀ x, x ∈ out →
                PR_of x ∈ postgres.prs (database s)
                ∧ Reviewers x
                  ≡ₚ postgres.reviewers_of (PR_ID (PR_of x)) (database s)
                ∧ u ∈ Reviewers x).
Proof.
  split.
  - intros userID s Hh Hid. eexists.
    unfold service.ListPRsAssignedToUser. unfold bind_or at 1.
    rewrite GetUserByID_absent by done.
    split; [reflexivity|].
    by apply (calls_since_journal s _
                [repository.mkEvent _
                   (Some (postgres.wrap "get user: " postgres.ErrNoRows))]).
  - intros u s W Hu Hh.
    set (d := database s) in *.
    set (mine := filter (λ r : Z * Z, r.2 = ID u) (postgres.pr_reviewers d)).
    set (rows := r ← mine; filter (λ p, PR_ID p = r.1) (postgres.prs d)).
    assert (PR_ID <$> rows = fst <$> mine) as Hids.
    { apply join_prs_ids; [apply W|].
      intros r [_ Hr]%list_elem_of_filter.
      by apply (postgres.pr_reviewers_pr_id_fkey d W). }
    assert (length rows ≤ length (postgres.pr_reviewers d))%nat as Hlen.
    { rewrite <- (length_fmap PR_ID), Hids, length_fmap. apply length_filter. }
    exists (with_reviewers d <$> rows). eexists.
    unfold service.ListPRsAssignedToUser. unfold bind_or at 1.
    rewrite (GetUserByID_found s u); [| |done|done].
    2:{ eapply healthy_le; [|exact Hh]. lia. }
    unfold bind at 1.
    match goal with |- context [service.s_repo ?op ?s1] =>
      change (service.s_repo op s1)
        with (service.s_repo
                (repository.record
                   (repository.CallListPRsAssignedToUser (ID u))
                   (postgres.ListPRsAssignedToUser (ID u))) s1)
    end.
    rewrite s_repo_record_eq.
    rewrite (ListPRsAssignedToUser_healthy (ID u) rows); [| done |].
    2:{ simpl. apply healthy_tail. eapply healthy_le; [|done].
        simpl. lia. }
    simpl. unfold ret. split; [reflexivity|]. split; [reflexivity|]. split.
    + rewrite <- !list_fmap_compose.
      change (PR_ID <$> rows ≡ₚ fst <$> mine). by rewrite Hids.
    + intros x (p & -> & Hp)%list_elem_of_fmap. simpl.
      apply list_elem_of_bind in Hp as (r & Hp & Hr).
      apply list_elem_of_filter in Hp as [Hid Hp].
      apply list_elem_of_filter in Hr as [Hmine Hr].
      split; [done|]. split; [done|].
      destruct r as [a b]. simpl in *. subst a b.
      apply list_elem_of_bind. exists (PR_ID p, ID u). split.
      * apply list_elem_of_filter. split; [done|]. done.
      * by apply list_elem_of_filter.
Qed.

(** A third PR, by user 4: user 2 then reviews PR 1 and PR 3. *)
Definition office_with_three_prs : Engine Z :=
  exec (service.CreatePR "Add logout" 4) office_with_two_prs.

Lemma office_with_three_prs_consistent :
  postgres.consistent (database office_with_three_prs).
Proof.
  apply exec_keeps; [|apply office_with_two_prs_consistent].
  apply engine_keeps_schema_constraints.
Qed.

Lemma ListPRsAssignedToUser_lists_each_assignment_of_the_user_witness :
  ∃ out s',
    service.ListPRsAssignedToUser 2 office_with_three_prs = (Ok out, s')
    ∧ postgres.pr_reviewers (database office_with_three_prs)
      = [(1, 3); (1, 2); (2, 7); (3, 1); (3, 2)]
    ∧ database s' = database office_with_three_prs
    ∧ length out = 2%nat
    ∧ (PR_ID <$> (PR_of <$> out)) ≡ₚ [1; 3]
    ∧ ∀ x, x ∈ out → 2 ∈ ID <$> Reviewers x.
Proof.
  destruct (proj2 ListPRsAssignedToUser_lists_each_assignment_of_the_user
              (mkUser 2 (Some 1) "Boris" true 1700000000)
              office_with_three_prs office_with_three_prs_consistent)
    as (out & s' & E & Hdb & Hids & Hout).
  - vm_compute. repeat constructor.
  - apply healthy_without_faults. vm_compute. reflexivity.
  - assert (fst <$> filter (λ r : Z * Z,
                               r.2 = ID (mkUser 2 (Some 1) "Boris" true
                                                1700000000))
                      (postgres.pr_reviewers (database office_with_three_prs))
            = [1; 3]) as Hrows by (vm_compute; reflexivity).
    exists out, s'. split; [exact E|].
    split; [vm_compute; reflexivity|]. split; [exact Hdb|].
    split; [|split].
    + apply Permutation_length in Hids.
      rewrite !length_fmap in Hids. rewrite Hids.
      change (length (fst <$> filter (λ r : Z * Z,
                               r.2 = ID (mkUser 2 (Some 1) "Boris" true
                                                1700000000))
                      (postgres.pr_reviewers (database office_with_three_prs)))
              = 2%nat).
      by rewrite Hrows.
    + etrans; [exact Hids|]. by rewrite Hrows.
    + intros x Hx. destruct (Hout x Hx) as (_ & _ & Hu).
      apply list_elem_of_fmap.
      exists (mkUser 2 (Some 1) "Boris" true 1700000000).
      split; [reflexivity|exact Hu].
Defined.

(** ** The count of assignments *)

Section count_facts.
Import postgres.

Lemma sum_indicator (keys : list Z) (k : Z) :
  NoDup keys → k ∈ keys →
  sum_list_with (λ x, if decide (k = x) then 1%nat else 0%nat) keys = 1%nat.
Proof.
  induction keys as [|x keys IH]; intros Hnd Hk.
  - by apply elem_of_nil in Hk.
  - apply NoDup_cons in Hnd as [Hx Hnd]. simpl.
    destruct (decide (k = x)) as [->|Hne].
    + assert (sum_list_with (λ y, if decide (x = y) then 1%nat else 0%nat) keys
              = 0%nat) as ->; [|done].
      clear IH Hnd Hk. induction keys as [|y keys IH]; [done|].
      apply not_elem_of_cons in Hx as [Hne Hx]. simpl.
      rewrite decide_False by done. by apply IH.
    + apply elem_of_cons in Hk as [->|Hk]; [done|]. by rewrite IH.
Qed.

(** Rows that each refer to one of the keys are counted once, under their
    key. *)
Lemma length_by_key (rows : list (Z * Z)) (keys : list Z) :
  NoDup keys → (∀ r, r ∈ rows → r.1 ∈ keys) →
  length rows
  = sum_list_with (λ k, length (filter (λ r : Z * Z, r.1 = k) rows)) keys.
Proof.
  intros Hnd. induction rows as [|r rows IH]; intros Hfk.
  - clear. induction keys as [|k keys IHk]; [done|]. simpl. exact IHk.
  - assert (∀ ks : list Z,
              sum_list_with
                (λ k, length (filter (λ r : Z * Z, r.1 = k) (r :: rows))) ks
              = (sum_list_with
                   (λ x, if decide (r.1 = x) then 1%nat else 0%nat) ks
                 + sum_list_with
                     (λ k, length (filter (λ r : Z * Z, r.1 = k) rows)) ks)%nat)
      as Hsplit.
    { induction ks as [|k ks IHk]; [done|]. simpl. rewrite IHk.
      rewrite filter_cons. repeat case_decide; simpl; lia. }
    rewrite Hsplit, sum_indicator by (try done; apply Hfk; by left).
    rewrite <- IH by (intros; apply Hfk; by right). done.
Qed.

Lemma CountAssignments_healthy `{RandSource Rng} (s : Engine Rng) :
  healthy 1 (pool s) →
  service.s_repo repository.CountAssignments s
  = (Ok (Z.of_nat (length (pr_reviewers (database s)))),
     after_call s (database s) repository.CallCountAssignments None).
Proof.
  intros Hh.
  exact (statement_call_healthy repository.CallCountAssignments
           count_reviewers "count assignments: " (λ x, x) s Hh).
Qed.

End count_facts.

(** X10. On a healthy connection [StatsAssignments] returns the number of rows
    of [pr_reviewers] and leaves the database as it was; that number is the
    total, over the stored PRs, of the reviewers [GetReviewersByPR] returns
    for each. *)
Theorem StatsAssignments_totals_the_reviewers_of_all_PRs `{RandSource Rng}
    (s : Engine Rng) :
  postgres.consistent (database s) → postgres.healthy 1 (pool s) →
  ∃ s',
    service.StatsAssignments s
    = (Ok (Z.of_nat (length (postgres.pr_reviewers (database s)))), s')
    ∧ database s' = database s
    ∧ length (postgres.pr_reviewers (database s))
      = sum_list_with
          (λ p, length (postgres.reviewers_of (PR_ID p) (database s)))
          (postgres.prs (database s)).
Proof.
  intros W Hh. eexists. unfold service.StatsAssignments. unfold bind at 1.
  rewrite CountAssignments_healthy by done. unfold ret. split; [reflexivity|]. split; [reflexivity|].
  rewrite (length_by_key _ (PR_ID <$> postgres.prs (database s)));
    [|apply W|apply W].
  generalize (postgres.prs (database s)). intros l.
  induction l as [|p l IH]; [done|].
  rewrite fmap_cons. cbn [sum_list_with]. rewrite IH. f_equal.
  rewrite <- (length_fmap ID (postgres.reviewers_of _ _)).
  rewrite reviewers_of_ids by done. unfold postgres.reviewer_ids.
  by rewrite length_fmap.
Qed.

Lemma StatsAssignments_totals_the_reviewers_of_all_PRs_witness :
  ∃ s',
    service.StatsAssignments office_with_two_prs
    = (Ok (Z.of_nat (length (postgres.pr_reviewers
                               (database office_with_two_prs)))), s')
    ∧ database s' = database office_with_two_prs.
Proof.
  destruct (StatsAssignments_totals_the_reviewers_of_all_PRs
              office_with_two_prs office_with_two_prs_consistent)
    as (s' & E & Hdb & _).
  - apply healthy_without_faults. vm_compute. reflexivity.
  - exists s'. split; [exact E|exact Hdb].
Defined.

(** ** What the statements keep, the requests keep *)

Section carried.
Import repository postgres service.
Context `{RandSource Rng} (P : DB → Prop).

(** [P] holds of the database after [op], whatever [op] returns, if it held
    before. *)
Definition carries {S A} (get : S → DB) (op : M S A) : Prop :=
  triple get P op (λ _, P) P.

Lemma carries_bind {S A B} (get : S → DB) (c : M S A) (k : A → M S B) :
  carries get c → (∀ a, carries get (k a)) → carries get (bind c k).
Proof. intros Hc Hk. by apply triple_bind with (Q1 := λ _, P). Qed.

Lemma carries_bind_or {S A B} (get : S → DB) (c : M S A) (h : error → error)
    (k : A → M S B) :
  carries get c → (∀ a, carries get (k a)) → carries get (bind_or c h k).
Proof. intros Hc Hk. by apply triple_bind_or with (Q1 := λ _, P). Qed.

Lemma carries_bind_ignoring {S A B} (get : S → DB) (c : M S A) (a0 : A)
    (k : A → M S B) :
  carries get c → (∀ a, carries get (k a)) →
  carries get (bind_ignoring c a0 k).
Proof. intros Hc Hk. by apply triple_bind_ignoring with (Q1 := λ _, P). Qed.

Lemma carries_ret {S A} (get : S → DB) (a : A) : carries get (ret a : M S A).
Proof. by apply triple_ret. Qed.

Lemma carries_fail {S A} (get : S → DB) (e : error) :
  carries get (fail e : M S A).
Proof. by apply triple_fail. Qed.

Lemma carries_panic {S A} (get : S → DB) : carries get (panic : M S A).
Proof. by apply triple_panic. Qed.

Lemma carries_round_trip {A} (stmt : DB → outcome A * DB) :
  (∀ d, P d → P (stmt d).2) → carries db (round_trip stmt).
Proof.
  intros Hstmt. apply triple_round_trip; [done|].
  intros d HP. specialize (Hstmt d HP). by destruct (stmt d).1.
Qed.

Lemma carries_transaction {A} (body : M Pool A) :
  carries db body → carries db (transaction body).
Proof.
  intros Hb. apply triple_transaction; [done|].
  eapply triple_weaken; [exact Hb|done..].
Qed.

Lemma carries_call {A} (c : Call) (m : M Pool A) :
  carries db m → carries (database (Rng := Rng)) (s_repo (record c m)).
Proof. apply triple_call. Qed.

Lemma carries_randomSample (n k : Z) :
  carries (database (Rng := Rng)) (randomSample n k).
Proof.
  intros s HP. pose proof (randomSample_keeps_repo n k s) as E.
  unfold database, pool in *. destruct (randomSample n k s) as [o s1].
  simpl in *. rewrite E. by destruct o.
Qed.

Lemma carries_s_rand_Intn (n : Z) :
  carries (database (Rng := Rng)) (s_rand_Intn n).
Proof.
  intros s HP. unfold s_rand_Intn.
  by destruct (rand_Intn n (rand s)) as [[x g]|].
Qed.

Lemma carries_collect_ids (filtered : list User) (idxs chosenIDs : list Z) :
  carries (database (Rng := Rng)) (collect_ids filtered idxs chosenIDs).
Proof.
  revert chosenIDs. induction idxs as [|i idxs IH]; intros chosenIDs; simpl.
  - apply carries_ret.
  - destruct (index filtered i); [apply IH|apply carries_panic].
Qed.

(** The statements that write, as the engine runs them. *)
Hypothesis carried_by_insert_team : ∀ name d, P d → P (insert_team name d).2.
Hypothesis carried_by_insert_user : ∀ u d, P d → P (insert_user u d).2.
Hypothesis carried_by_insert_pr :
  ∀ title authorID d,
    P d → P (insert_pr (mkPR 0 title authorID PRStatusOpen 0) d).2.
Hypothesis carried_by_update_pr_status :
  ∀ id d, P d → P (update_pr_status PRStatusMerged id d).2.
Hypothesis carried_by_insert_reviewer :
  ∀ prID uid d, P d → P (insert_reviewer prID uid d).2.
Hypothesis carried_by_delete_reviewer :
  ∀ prID uid d, P d → P (delete_reviewer prID uid d).2.

Lemma carries_AssignReviewers (prID : Z) (userIDs : list Z) :
  carries db (AssignReviewers prID userIDs).
Proof.
  induction userIDs as [|uid rest IH]; simpl; [apply carries_ret|].
  apply carries_bind_or; [|done].
  apply carries_round_trip. intros d. apply carried_by_insert_reviewer.
Qed.

Lemma carries_attach_reviewers (rows : list PR) (out : list PRWithReviewers) :
  carries db (attach_reviewers rows out).
Proof. apply attach_reviewers_reads. Qed.

Ltac carrying :=
  repeat first
    [ apply carries_ret | apply carries_fail | apply carries_panic
    | apply carries_randomSample | apply carries_s_rand_Intn
    | apply carries_collect_ids
    | apply carries_AssignReviewers
    | apply carries_attach_reviewers
    | apply carries_call
    | apply carries_transaction
    | apply carries_bind; [|intros]
    | apply carries_bind_or; [|intros]
    | apply carries_bind_ignoring; [|intros]
    | apply carries_round_trip; intros d Hd; first
        [ exact Hd
        | by apply carried_by_insert_team
        | by apply carried_by_insert_user
        | by apply carried_by_insert_pr
        | by apply carried_by_update_pr_status
        | by apply carried_by_insert_reviewer
        | by apply carried_by_delete_reviewer ]
    | match goal with
      | |- carries _ (if ?b then _ else _) => destruct b
      | |- carries _ (match ?o with _ => _ end) => destruct o
      end ].

(** A property of the database that each of the engine's writing statements
    carries over is carried over by every request, whatever the network
    does to its round trips. *)
Lemma serve_carries (r : request) (s : Engine Rng) :
  P (database s) → P (database (serve r s)).
Proof.
  assert (∀ A (op : M (Engine Rng) A),
            carries database op → P (database s) → P (database (exec op s)))
    as Hexec by (intros A op; apply triple_exec).
  destruct r; simpl; apply Hexec; clear Hexec.
  - unfold service.CreateTeam. carrying.
  - unfold service.CreateUser. carrying.
  - unfold service.CreatePR. carrying.
  - unfold service.ReassignReviewer. carrying.
  - unfold service.MergePR. carrying.
  - unfold service.ListPRsAssignedToUser. carrying.
  - unfold service.StatsAssignments. carrying.
Qed.

(** The same of the requests that insert no user, for a property the
    insertion of a user may break. *)
Lemma serve_carries_apart_from_CreateUser (r : request) (s : Engine Rng) :
  (∀ teamID name isActive, r ≠ ReqCreateUser teamID name isActive) →
  P (database s) → P (database (serve r s)).
Proof.
  assert (∀ A (op : M (Engine Rng) A),
            carries database op → P (database s) → P (database (exec op s)))
    as Hexec by (intros A op; apply triple_exec).
  intros Hr. destruct r; simpl; try (by destruct (Hr teamID name isActive));
    apply Hexec; clear Hexec.
  - unfold service.CreateTeam. carrying.
  - unfold service.CreatePR. carrying.
  - unfold service.ReassignReviewer. carrying.
  - unfold service.MergePR. carrying.
  - unfold service.ListPRsAssignedToUser. carrying.
  - unfold service.StatsAssignments. carrying.
Qed.

Lemma run_carries (requests : list request) (s : Engine Rng) :
  P (database s) → P (database (run requests s)).
Proof.
  revert s. unfold run.
  induction requests as [|r requests IH]; intros s HP; simpl; [done|].
  by apply IH, serve_carries.
Qed.

End carried.

(** X11. The constraints of the schema (primary keys, unique names, foreign
    keys, identifiers below their sequences) hold after any requests the
    engine serves, whatever the network does to their round trips, if they
    held before. *)
Theorem every_run_keeps_the_schema_constraints `{RandSource Rng}
    (requests : list request) (s : Engine Rng) :
  postgres.consistent (database s) →
  postgres.consistent (database (run requests s)).
Proof.
  apply run_carries; intros.
  - by apply insert_team_consistent.
  - by apply insert_user_consistent.
  - by apply insert_pr_consistent.
  - by apply update_pr_status_consistent.
  - by apply insert_reviewer_consistent.
  - by apply delete_reviewer_consistent.
Qed.

Lemma every_run_keeps_the_schema_constraints_witness :
  postgres.consistent
    (database
       (run [ReqCreateTeam "Backend"; ReqCreateTeam "Backend";
             ReqCreateUser (Some 1) "Anna" true;
             ReqCreateUser (Some 7) "Boris" true;
             ReqCreateUser (Some 1) "Clara" true;
             ReqCreatePR "Add login" 1; ReqCreatePR "Add logout" 9;
             ReqReassignReviewer 1 3; ReqMergePR 1; ReqMergePR 1]
            (on_network [None; None; Some connection_reset] boot))).
Proof.
  apply every_run_keeps_the_schema_constraints.
  apply migrated_consistent.
Defined.

(** ** The engine only appends *)

(** What of a PR no statement of the engine rewrites. *)
Definition PR_row (p : PR) : Z * string * Z * Z :=
  (PR_ID p, Title p, AuthorID p, PR_CreatedAt p).

(** The tables of [d'] are those of [d] with rows appended, the status of
    the PRs apart. *)
Definition extends (d d' : postgres.DB) : Prop :=
  postgres.teams d `prefix_of` postgres.teams d'
  ∧ postgres.users d `prefix_of` postgres.users d'
  ∧ (PR_row <$> postgres.prs d) `prefix_of` (PR_row <$> postgres.prs d').

Section extends_facts.
Import postgres.

Lemma extends_trans (d0 d d' : DB) : extends d0 d → extends d d' → extends d0 d'.
Proof.
  intros (? & ? & ?) (? & ? & ?). repeat split; by etrans.
Qed.

Lemma extends_statements (d : DB) :
  (∀ name, extends d (insert_team name d).2)
  ∧ (∀ u, extends d (insert_user u d).2)
  ∧ (∀ pr, extends d (insert_pr pr d).2)
  ∧ (∀ status id, extends d (update_pr_status status id d).2)
  ∧ (∀ prID uid, extends d (insert_reviewer prID uid d).2)
  ∧ (∀ prID uid, extends d (delete_reviewer prID uid d).2).
Proof.
  repeat apply conj; intros.
  - unfold insert_team. case_decide; repeat split; simpl; try done.
    by apply prefix_app_r.
  - unfold insert_user. case_match; repeat split; simpl; try done.
    by apply prefix_app_r.
  - unfold insert_pr. case_decide; repeat split; simpl; try done.
    rewrite fmap_app. by apply prefix_app_r.
  - repeat split; simpl; try done.
    match goal with |- _ `prefix_of` ?rows =>
      assert (rows = PR_row <$> prs d) as ->; [|done] end.
    rewrite <- list_fmap_compose. apply list_fmap_ext.
    intros i p _. simpl. by case_decide.
  - unfold insert_reviewer. repeat case_decide; by repeat split.
  - by repeat split.
Qed.

End extends_facts.

(** X12. After any requests, whatever the network does, every team and every
    user that was stored is stored unchanged at the same place of its
    table, and so is every PR, its status apart: the engine deletes nothing,
    and it never deactivates a user. *)
Theorem the_engine_only_appends_teams_users_and_PRs `{RandSource Rng}
    (requests : list request) (s : Engine Rng) :
  extends (database s) (database (run requests s)).
Proof.
  apply (run_carries (extends (database s))).
  - intros name d Hd. eapply extends_trans; [done|apply extends_statements].
  - intros u d Hd. eapply extends_trans; [done|apply extends_statements].
  - intros title authorID d Hd.
    eapply extends_trans; [done|apply extends_statements].
  - intros id d Hd. eapply extends_trans; [done|apply extends_statements].
  - intros prID uid d Hd. eapply extends_trans; [done|apply extends_statements].
  - intros prID uid d Hd. eapply extends_trans; [done|apply extends_statements].
  - by repeat split.
Qed.

Section query_facts.
Import repository postgres service.
Context `{RandSource Rng} (P : DB → Prop).

Lemma ListPRsAssignedToUser_carries (userID : Z) :
  carries P (database (Rng := Rng)) (service.ListPRsAssignedToUser userID).
Proof.
  unfold service.ListPRsAssignedToUser.
  apply carries_bind_or.
  { apply carries_call, carries_bind_or; [by apply carries_round_trip|].
    intros. apply carries_ret. }
  intros _. apply carries_bind; [|intros; apply carries_ret].
  apply carries_call, carries_bind_or; [by apply carries_round_trip|].
  intros rows. apply attach_reviewers_reads.
Qed.

Lemma StatsAssignments_carries :
  carries P (database (Rng := Rng)) service.StatsAssignments.
Proof.
  unfold service.StatsAssignments.
  apply carries_bind; [|intros; apply carries_ret].
  apply carries_call, carries_bind_or; [by apply carries_round_trip|].
  intros. apply carries_ret.
Qed.

End query_facts.

(** X13. [ListPRsAssignedToUser] and [StatsAssignments] leave the database as
    it was, whatever they return and whatever the network does to their
    round trips. *)
Theorem the_queries_leave_the_database_as_it_was `{RandSource Rng}
    (s : Engine Rng) :
  (∀ userID,
     database (exec (service.ListPRsAssignedToUser userID) s) = database s)
  ∧ database (exec service.StatsAssignments s) = database s.
Proof.
  split; [intros userID|].
  - apply (triple_exec (λ d, d = database s)); [|done].
    apply ListPRsAssignedToUser_carries.
  - apply (triple_exec (λ d, d = database s)); [|done].
    apply StatsAssignments_carries.
Qed.

(** ** More of [MergePR] *)

Section MergePR_more.
Import repository postgres service.
Context `{RandSource Rng}.
Implicit Types s : Engine Rng.

Lemma head_tail_lookup {A} (l : list A) : head (tail l) = l !! 1%nat.
Proof. by destruct l as [|? [|? ?]]. Qed.

Lemma GetReviewersByPR_fault s (prID : Z) (e : error) :
  head (faults (pool s)) = Some (Some e) →
  s_repo (repository.GetReviewersByPR prID) s
  = (Err (wrap "get reviewers by PR: " e),
     after_call s (database s) (CallGetReviewersByPR prID)
       (Some (wrap "get reviewers by PR: " e))).
Proof.
  intros Hh.
  exact (statement_call_fault (CallGetReviewersByPR prID)
           (select_reviewers prID) "get reviewers by PR: " (λ x, x) s e Hh).
Qed.

End MergePR_more.

(** X14. [MergePR] on a PR that is stored as [MERGED] drops the error of the
    reviewers read: when that round trip fails, it answers with success, the
    PR and no reviewers, whatever reviewers are stored for the PR. *)
Theorem MergePR_of_merged_PR_hides_a_failed_reviewers_read `{RandSource Rng}
    (pr : PR) (e : error) (s : Engine Rng) :
  postgres.consistent (database s) → pr ∈ postgres.prs (database s) →
  Status pr = PRStatusMerged →
  postgres.healthy 1 (pool s) →
  postgres.faults (pool s) !! 1%nat = Some (Some e) →
  ∃ s',
    service.MergePR (PR_ID pr) s = (Ok (mkPRWithReviewers pr []), s')
    ∧ events_since s s'
      = [repository.mkEvent (repository.CallGetPRByID (PR_ID pr)) None;
         repository.mkEvent (repository.CallGetReviewersByPR (PR_ID pr))
           (Some (postgres.wrap "get reviewers by PR: " e))]
    ∧ database s' = database s.
Proof.
  intros W Hpr Hm Hh He. eexists.
  unfold service.MergePR. unfold bind_or at 1.
  rewrite GetPRByID_found by done. rewrite decide_True by done.
  unfold bind_ignoring.
  rewrite (GetReviewersByPR_fault _ _ e)
    by (rewrite faults_after_call, head_tail_lookup; exact He).
  unfold ret. split; [reflexivity|]. split; [|reflexivity].
  apply events_since_app. rewrite !journal_after_call, <- app_assoc. done.
Qed.

Lemma MergePR_of_merged_PR_hides_a_failed_reviewers_read_witness :
  let s := on_network [None; Some connection_reset] office_after_merge in
  ∃ s',
    service.MergePR 1 s
    = (Ok (mkPRWithReviewers
             (mkPR 1 "Add login" 1 PRStatusMerged 1700000000) []), s')
    ∧ length (postgres.reviewers_of 1 (database s)) = 2%nat.
Proof.
  cbv zeta.
  destruct (MergePR_of_merged_PR_hides_a_failed_reviewers_read
              (mkPR 1 "Add login" 1 PRStatusMerged 1700000000)
              connection_reset
              (on_network [None; Some connection_reset] office_after_merge))
    as (s' & E & _).
  - rewrite database_on_network. exact office_after_merge_consistent.
  - vm_compute. repeat constructor.
  - reflexivity.
  - vm_compute. repeat constructor.
  - vm_compute. reflexivity.
  - exists s'. split; [exact E|vm_compute; reflexivity].
Defined.

(** X15. [MergePR] refuses a PR that is not in [prs] with an [ErrBadRequest],
    "pr not found", which the handler answers with [NOT_FOUND]; and a PR
    whose stored status is neither [OPEN] nor [MERGED] with an
    [ErrBadRequest], "can only merge OPEN pull requests", which the handler
    answers with [BAD_REQUEST].  Either way the look-up of the PR is the
    only call it made and the database is as it was. *)
Theorem MergePR_refuses_unknown_PRs_and_other_statuses `{RandSource Rng} :
  (∀ (prID : Z) (s : Engine Rng),
     postgres.healthy 1 (pool s) →
     prID ∉ PR_ID <$> postgres.prs (database s) →
     ∃ e s',
       service.MergePR prID s = (Err e, s')
       ∧ e = service.Errorf_w service.ErrBadRequest "pr not found"
       ∧ api.merge_error e = ("NOT_FOUND", 404)
       ∧ database s' = database s
       ∧ calls_since s s' = [repository.CallGetPRByID prID])
  ∧ (∀ (pr : PR) (s : Engine Rng),
       postgres.consistent (database s) → postgres.healthy 1 (pool s) →
       pr ∈ postgres.prs (database s) →
       Status pr ≠ PRStatusMerged → Status pr ≠ PRStatusOpen →
       ∃ e s',
         service.MergePR (PR_ID pr) s = (Err e, s')
         ∧ e = service.Errorf_w service.ErrBadRequest
                 "can only merge OPEN pull requests"
         ∧ api.merge_error e = ("BAD_REQUEST", 400)
         ∧ database s' = database s
         ∧ calls_since s s' = [repository.CallGetPRByID (PR_ID pr)]).
Proof.
  split.
  - intros prID s Hh Hid. eexists _, _.
    unfold service.MergePR. unfold bind_or at 1.
    rewrite GetPRByID_absent by done.
    split; [reflexivity|]. do 3 (split; [done|]).
    by apply (calls_since_journal s _
                [repository.mkEvent _
                   (Some (postgres.wrap "get PR: " postgres.ErrNoRows))]).
  - intros pr s W Hh Hpr Hm Ho. eexists _, _.
    unfold service.MergePR. unfold bind_or at 1.
    rewrite GetPRByID_found by done.
    rewrite decide_False by done. rewrite decide_True by done.
    unfold fail. split; [reflexivity|]. do 3 (split; [done|]).
    by apply (calls_since_journal s _ [repository.mkEvent _ None]).
Qed.

Lemma MergePR_refuses_unknown_PRs_and_other_statuses_witness :
  ∃ e s',
    service.MergePR 99 office_with_two_prs = (Err e, s')
    ∧ api.merge_error e = ("NOT_FOUND", 404)
    ∧ database s' = database office_with_two_prs.
Proof.
  destruct (proj1 MergePR_refuses_unknown_PRs_and_other_statuses 99
              office_with_two_prs)
    as (e & s' & E & _ & Hcode & Hdb & _).
  - apply healthy_without_faults. vm_compute. reflexivity.
  - apply not_elem_of_literal. vm_compute. reflexivity.
  - exists e, s'. split; [exact E|]. split; [exact Hcode|exact Hdb].
Defined.

(** ** What a failure of storage leaves behind *)

Section partial_facts.
Import repository postgres service.
Context `{RandSource Rng}.
Implicit Types s : Engine Rng.

Lemma CreatePR_call_healthy s (pr : PR) :
  healthy 1 (pool s) →
  s_repo (repository.CreatePR pr) s
  = match insert_pr pr (database s) with
    | (Ok row, d) => (Ok row, after_call s d (CallCreatePR pr) None)
    | (Err e, d) => (Err (wrap "create PR: " e),
                     after_call s d (CallCreatePR pr)
                       (Some (wrap "create PR: " e)))
    | (Panic, d) => (Panic, after_call s d (CallCreatePR pr) None)
    end.
Proof.
  intros Hh.
  exact (statement_call_healthy (CallCreatePR pr) (insert_pr pr)
           "create PR: " (λ x, x) s Hh).
Qed.

Lemma ListActiveUsersInTeam_fault s (teamID : Z) (e : error) :
  head (faults (pool s)) = Some (Some e) →
  s_repo (repository.ListActiveUsersInTeam teamID) s
  = (Err (wrap "list active users: " e),
     after_call s (database s) (CallListActiveUsersInTeam teamID)
       (Some (wrap "list active users: " e))).
Proof.
  intros Hh.
  exact (statement_call_fault (CallListActiveUsersInTeam teamID)
           (select_active_users teamID) "list active users: " (λ x, x) s e Hh).
Qed.

Lemma head_tail_tail_lookup {A} (l : list A) :
  head (tail (tail l)) = l !! 2%nat.
Proof. by destruct l as [|? [|? [|? ?]]]. Qed.

(** The rows of a successful [AssignReviewers] are in the table. *)
Lemma AssignReviewers_rows (prID : Z) (userIDs : list Z) (p p' : Pool) :
  AssignReviewers prID userIDs p = (Ok (), p') →
  (∀ r, r ∈ pr_reviewers (db p) → r ∈ pr_reviewers (db p'))
  ∧ (∀ uid, uid ∈ userIDs → (prID, uid) ∈ pr_reviewers (db p')).
Proof.
  revert p. induction userIDs as [|uid rest IH]; intros p E.
  - simpl in E. unfold ret in E. injection E as <-.
    split; [done|]. intros uid Hin. by apply elem_of_nil in Hin.
  - simpl in E. unfold bind_or in E.
    destruct (round_trip (insert_reviewer prID uid) p) as [[[]|e|] p1] eqn:E1;
      try discriminate E.
    apply round_trip_Ok in E1 as (d & E1 & ->).
    apply IH in E as [Hold Hnew]. simpl in *.
    assert (∀ r, r ∈ pr_reviewers (db p) → r ∈ pr_reviewers d) as Hstep.
    { unfold insert_reviewer in E1. repeat case_decide; simplify_eq/=; [done|].
      intros r Hr. apply elem_of_app. by left. }
    assert ((prID, uid) ∈ pr_reviewers d) as Hrow.
    { unfold insert_reviewer in E1. repeat case_decide; simplify_eq/=; [done|].
      apply elem_of_app. right. by left. }
    split; [by auto|].
    intros u [->|Hu]%elem_of_cons; [by apply Hold|by apply Hnew].
Qed.

(** [ON CONFLICT DO NOTHING]: rows that are in the table are left alone. *)
Lemma AssignReviewers_again (prID : Z) (userIDs : list Z) (p : Pool) :
  healthy (length userIDs) p →
  (∀ uid, uid ∈ userIDs → (prID, uid) ∈ pr_reviewers (db p)) →
  AssignReviewers prID userIDs p
  = (Ok (), mkPool (db p) (drop (length userIDs) (faults p))).
Proof.
  revert p. induction userIDs as [|uid rest IH]; intros p Hh Hin; simpl in *.
  - unfold ret. by destruct p.
  - unfold bind_or.
    rewrite round_trip_healthy by (eapply healthy_le; [|done]; lia).
    unfold insert_reviewer. rewrite decide_True by (apply Hin; by left).
    simpl. rewrite IH; simpl.
    + destruct (faults p); simpl; by rewrite ?drop_nil.
    + by apply healthy_tail.
    + intros u Hu. apply Hin. by right.
Qed.

End partial_facts.

(** X16. [CreatePR] is not atomic.  When the author is stored, active and in
    a team and the read of the team's roster fails, [CreatePR] returns the
    error of the repository, and the PR it has inserted stays in [prs],
    without reviewers. *)
Theorem CreatePR_leaves_the_PR_when_the_roster_read_fails `{RandSource Rng}
    (title : string) (author : User) (teamID : Z) (e : error)
    (s : Engine Rng) :
  postgres.consistent (database s) →
  author ∈ postgres.users (database s) →
  IsActive author = true → TeamID author = Some teamID →
  postgres.healthy 2 (pool s) →
  postgres.faults (pool s) !! 2%nat = Some (Some e) →
  let pr := mkPR (postgres.prs_id_seq (database s) + 1) title (ID author)
                 PRStatusOpen (postgres.now (database s)) in
  ∃ s',
    service.CreatePR title (ID author) s
    = (Err (postgres.wrap "list active users: " e), s')
    ∧ postgres.prs (database s') = postgres.prs (database s) ++ [pr]
    ∧ postgres.reviewers_of (PR_ID pr) (database s') = [].
Proof.
  intros W Hin Hactive Hteam Hh He pr. eexists.
  unfold service.CreatePR. unfold bind_or at 1.
  rewrite GetUserByID_found by (try done; solve_healthy).
  rewrite Hactive. cbn [negb]. unfold bind at 1.
  rewrite CreatePR_call_healthy by solve_healthy.
  rewrite database_after_call.
  assert (postgres.insert_pr (mkPR 0 title (ID author) PRStatusOpen 0)
            (database s)
          = (Ok pr, (postgres.insert_pr
                       (mkPR 0 title (ID author) PRStatusOpen 0)
                       (database s)).2)) as Ei.
  { unfold postgres.insert_pr. simpl.
    rewrite decide_True; [done|]. apply list_elem_of_fmap. eauto. }
  rewrite Ei, Hteam. unfold bind at 1.
  rewrite (ListActiveUsersInTeam_fault _ _ e)
    by (rewrite !faults_after_call, head_tail_tail_lookup; exact He).
  split; [reflexivity|]. rewrite !database_after_call.
  assert (sound_row :
    postgres.prs (postgres.insert_pr (mkPR 0 title (ID author) PRStatusOpen 0)
                    (database s)).2 = postgres.prs (database s) ++ [pr]).
  { unfold postgres.insert_pr. simpl.
    rewrite decide_True; [done|]. apply list_elem_of_fmap. eauto. }
  split; [exact sound_row|].
  unfold postgres.reviewers_of.
  rewrite (filter_key_absent fst); [done|].
  intros (r & E & Hr)%list_elem_of_fmap.
  assert (postgres.pr_reviewers
            (postgres.insert_pr (mkPR 0 title (ID author) PRStatusOpen 0)
               (database s)).2 = postgres.pr_reviewers (database s)) as Erows.
  { unfold postgres.insert_pr. simpl. by case_decide. }
  rewrite Erows in Hr.
  apply (postgres.pr_reviewers_pr_id_fkey _ W) in Hr.
  apply list_elem_of_fmap in Hr as (q & Eq & Hq).
  apply (postgres.prs_serial _ W) in Hq. simpl in E. lia.
Qed.

Lemma CreatePR_leaves_the_PR_when_the_roster_read_fails_witness :
  let s := on_network [None; None; Some connection_reset] office in
  ∃ s',
    service.CreatePR "Add login" 1 s
    = (Err (postgres.wrap "list active users: " connection_reset), s')
    ∧ postgres.prs (database s')
      = postgres.prs (database s)
        ++ [mkPR (postgres.prs_id_seq (database s) + 1) "Add login" 1
                 PRStatusOpen (postgres.now (database s))].
Proof.
  cbv zeta.
  destruct (CreatePR_leaves_the_PR_when_the_roster_read_fails
              "Add login" (mkUser 1 (Some 1) "Anna" true 1700000000) 1
              connection_reset
              (on_network [None; None; Some connection_reset] office))
    as (s' & E & Hprs & _).
  - rewrite database_on_network. exact office_consistent.
  - vm_compute. repeat constructor.
  - reflexivity.
  - reflexivity.
  - vm_compute. repeat constructor.
  - vm_compute. reflexivity.
  - exists s'. split; [exact E|exact Hprs].
Defined.

(** X17. [AssignReviewers] is not atomic, and assigning again does nothing.
    When its round trip for one of the users fails, it returns that error
    under "assign reviewer <id>: " and the rows it inserted for the users
    before stay in [pr_reviewers].  After it has succeeded, the same call on
    a healthy connection succeeds and leaves the database as it is. *)
Theorem AssignReviewers_keeps_what_it_inserted (prID : Z) :
  (∀ (before rest : list Z) (uid : Z) (e : error) (p : postgres.Pool),
     postgres.healthy (length before) p →
     postgres.faults p !! length before = Some (Some e) →
     prID ∈ PR_ID <$> postgres.prs (postgres.db p) →
     (∀ u, u ∈ before → u ∈ ID <$> postgres.users (postgres.db p)) →
     ∃ p',
       postgres.AssignReviewers prID (before ++ uid :: rest) p
       = (Err (postgres.wrap ("assign reviewer " +:+ pretty uid +:+ ": ") e),
          p')
       ∧ ∀ u, u ∈ before → (prID, u) ∈ postgres.pr_reviewers (postgres.db p'))
  ∧ (∀ (userIDs : list Z) (p p1 : postgres.Pool),
       postgres.AssignReviewers prID userIDs p = (Ok (), p1) →
       postgres.healthy (length userIDs) p1 →
       ∃ p2,
         postgres.AssignReviewers prID userIDs p1 = (Ok (), p2)
         ∧ postgres.db p2 = postgres.db p1).
Proof.
  split.
  - intros before. induction before as [|u0 before IH];
      intros rest uid e p Hh He Hpr Husers; simpl in *.
    + destruct p as [d [|f fs]]; simpl in *; [done|].
      injection He as ->. eexists. unfold bind_or, postgres.round_trip. simpl.
      split; [reflexivity|]. intros u Hu. by apply elem_of_nil in Hu.
    + unfold bind_or at 1.
      rewrite round_trip_healthy by (eapply healthy_le; [|done]; lia).
      assert (∃ d1, postgres.insert_reviewer prID u0 (postgres.db p)
                    = (Ok (), d1)
                    ∧ (prID, u0) ∈ postgres.pr_reviewers d1
                    ∧ postgres.prs d1 = postgres.prs (postgres.db p)
                    ∧ postgres.users d1 = postgres.users (postgres.db p))
        as (d1 & E1 & Hrow & Eprs & Eusers).
      { unfold postgres.insert_reviewer. case_decide; [by eexists|].
        rewrite decide_True by (split; [done|apply Husers; by left]).
        eexists. split; [done|]. split; [|done].
        simpl. apply elem_of_app. right. by left. }
      rewrite E1. simpl.
      destruct (IH rest uid e
                  (postgres.mkPool d1 (tail (postgres.faults p))))
        as (p' & E & Hrows).
      * by apply healthy_tail.
      * simpl. destruct (postgres.faults p); [done|exact He].
      * simpl. by rewrite Eprs.
      * simpl. intros u Hu. rewrite Eusers. apply Husers. by right.
      * exists p'. split; [exact E|].
        intros u [->|Hu]%elem_of_cons; [|by apply Hrows].
        clear IH Hrows. revert E. generalize (before ++ uid :: rest).
        intros l E.
        assert (∀ l q o q',
                  postgres.AssignReviewers prID l q = (o, q') →
                  ∀ r, r ∈ postgres.pr_reviewers (postgres.db q) →
                       r ∈ postgres.pr_reviewers (postgres.db q')) as Hmono.
        { clear. intros l. induction l as [|x l IHl]; intros q o q' E r Hr.
          - simpl in E. unfold ret in E. by simplify_eq.
          - simpl in E. unfold bind_or in E.
            pose proof (round_trip_db (postgres.insert_reviewer prID x) q)
              as Hdb.
            destruct (postgres.round_trip (postgres.insert_reviewer prID x) q)
              as [[[]|e|] q1] eqn:E1; simplify_eq/=.
            + eapply IHl; [done|]. destruct Hdb as [->| ->]; [done|].
              unfold postgres.insert_reviewer. repeat case_decide; try done.
              simpl. apply elem_of_app. by left.
            + destruct Hdb as [->| ->]; [done|].
              unfold postgres.insert_reviewer. repeat case_decide; try done.
              simpl. apply elem_of_app. by left.
            + destruct Hdb as [->| ->]; [done|].
              unfold postgres.insert_reviewer. repeat case_decide; try done.
              simpl. apply elem_of_app. by left. }
        by apply (Hmono _ _ _ _ E).
  - intros userIDs p p1 E Hh. eexists.
    apply AssignReviewers_rows in E as [_ Hrows].
    rewrite AssignReviewers_again by done. done.
Qed.

Lemma AssignReviewers_keeps_what_it_inserted_witness :
  let p := postgres.mkPool (database office_with_pr)
             [None; Some connection_reset] in
  ∃ p',
    postgres.AssignReviewers 1 ([4] ++ 5 :: []) p
    = (Err (postgres.wrap ("assign reviewer " +:+ pretty 5 +:+ ": ")
              connection_reset), p')
    ∧ (1, 4) ∈ postgres.pr_reviewers (postgres.db p').
Proof.
  cbv zeta.
  destruct (proj1 (AssignReviewers_keeps_what_it_inserted 1) [4] [] 5
              connection_reset
              (postgres.mkPool (database office_with_pr)
                 [None; Some connection_reset]))
    as (p' & E & Hrows).
  - vm_compute. repeat constructor.
  - reflexivity.
  - vm_compute. repeat constructor.
  - intros u Hu. apply list_elem_of_singleton in Hu. subst u.
    vm_compute. repeat constructor.
  - exists p'. split; [exact E|]. apply Hrows. by left.
Defined.

(** ** The errors an operation can return *)

(** Membership in a list that is written out. *)
Ltac in_list :=
  solve [repeat first [apply list_elem_of_here | apply list_elem_of_further]].

Section failure_shapes.

(** Every error [op] returns satisfies [E]. *)
Definition fails_with {S A} (E : error → Prop) (op : M S A) : Prop :=
  ∀ s e s', op s = (Err e, s') → E e.

Context {S : Type} (E : error → Prop).

Lemma fails_with_ret {A} (a : A) : fails_with E (ret a : M S A).
Proof. intros s e s' [=]. Qed.

Lemma fails_with_panic {A} : fails_with E (panic : M S A).
Proof. intros s e s' [=]. Qed.

Lemma fails_with_fail {A} (e : error) : E e → fails_with E (fail e : M S A).
Proof. intros He s e' s' [= <- _]. exact He. Qed.

Lemma fails_with_bind {A B} (c : M S A) (k : A → M S B) :
  fails_with E c → (∀ a, fails_with E (k a)) → fails_with E (bind c k).
Proof.
  intros Hc Hk s e s'. unfold bind.
  destruct (c s) as [[a|e1|] s1] eqn:E1; [apply Hk| |done].
  intros [= <- <-]. by eapply Hc.
Qed.

Lemma fails_with_bind_or {A B} (E1 : error → Prop) (c : M S A)
    (h : error → error) (k : A → M S B) :
  fails_with E1 c → (∀ e, E1 e → E (h e)) → (∀ a, fails_with E (k a)) →
  fails_with E (bind_or c h k).
Proof.
  intros Hc Hh Hk s e s'. unfold bind_or.
  destruct (c s) as [[a|e1|] s1] eqn:Ec; [apply Hk| |done].
  intros [= <- <-]. eapply Hh, Hc. done.
Qed.

Lemma fails_with_bind_ignoring {A B} (c : M S A) (a0 : A) (k : A → M S B) :
  (∀ a, fails_with E (k a)) → fails_with E (bind_ignoring c a0 k).
Proof.
  intros Hk s e s'. unfold bind_ignoring.
  destruct (c s) as [[a|e1|] s1]; [apply Hk|apply Hk|done].
Qed.

End failure_shapes.

Lemma fails_with_weaken {S A} (E E' : error → Prop) (op : M S A) :
  fails_with E' op → (∀ e, E' e → E e) → fails_with E op.
Proof. intros Hop HE s e s' Hs. eapply HE, Hop. done. Qed.

Section postgres_failures.
Import postgres.

(** The error of a method that is one statement is the error of its round
    trip under the method's prefix. *)
Lemma fails_with_statement {A B} (stmt : DB → outcome A * DB)
    (prefix : string) (f : A → B) :
  fails_with (λ e, ∃ e0, e = wrap prefix e0)
    (bind_or (round_trip stmt) (wrap prefix) (λ x, ret (f x))).
Proof.
  apply fails_with_bind_or with (E1 := λ _, True).
  - done.
  - intros e _. by exists e.
  - intros a. apply fails_with_ret.
Qed.

Lemma fails_with_transaction {A} (E : error → Prop) (body : M Pool A) :
  fails_with E body → fails_with E (transaction body).
Proof.
  intros Hb p e p'. unfold transaction.
  destruct (body p) as [[a|e1|] tx] eqn:Eb; [done| |done].
  intros [= <- _]. by eapply Hb.
Qed.

Lemma ReplaceReviewer_fails_with (prID oldUserID newUserID : Z) :
  fails_with
    (λ e, ∃ prefix e0,
       e = wrap prefix e0
       ∧ prefix ∈ ["begin transaction: "; "delete old reviewer: ";
                   "insert new reviewer: "; "commit transaction: "])
    (ReplaceReviewer prID oldUserID newUserID).
Proof.
  unfold ReplaceReviewer.
  apply fails_with_bind_or with (E1 := λ _, True); [done| |intros _].
  { intros e _. eexists _, e. split; [done|]. in_list. }
  apply fails_with_transaction.
  apply fails_with_bind_or with (E1 := λ _, True); [done| |intros _].
  { intros e _. eexists _, e. split; [done|]. in_list. }
  apply fails_with_bind_or with (E1 := λ _, True); [done| |intros _].
  { intros e _. eexists _, e. split; [done|]. in_list. }
  apply fails_with_bind_or with (E1 := λ _, True); [done| |intros _].
  { intros e _. eexists _, e. split; [done|]. in_list. }
  apply fails_with_ret.
Qed.

End postgres_failures.

Section engine_failures.
Import repository service.
Context `{RandSource Rng}.

Lemma fails_with_call {A} (E : error → Prop) (c : Call)
    (m : M postgres.Pool A) :
  fails_with E m →
  fails_with E (s_repo (record c m) : M (Engine Rng) A).
Proof.
  intros Hm s e s'. rewrite s_repo_record_eq. intros [= Ee _].
  destruct (m (repo s).1) as [o st] eqn:Em. simpl in Ee. subst o.
  by eapply Hm.
Qed.

Lemma fails_with_s_rand_Intn (E : error → Prop) (n : Z) :
  fails_with E (s_rand_Intn n : M (Engine Rng) Z).
Proof.
  intros s e s'. unfold s_rand_Intn.
  by destruct (rand_Intn n (rand s)) as [[x g]|].
Qed.

End engine_failures.

(** The handler of [/prs/{pr_id}/reassign] answers an error of storage with
    [BAD_REQUEST]. *)
Lemma reassign_error_of_storage (prefix : string) (e0 : error) :
  prefix ∈ ["get reviewers by PR: "; "list active users: ";
            "begin transaction: "; "delete old reviewer: ";
            "insert new reviewer: "; "commit transaction: "] →
  api.reassign_error (postgres.wrap prefix e0) = ("BAD_REQUEST", 400).
Proof.
  intros Hp. unfold api.reassign_error, postgres.wrap. cbn [Error].
  repeat (apply elem_of_cons in Hp as [->|Hp]);
    [..|by apply elem_of_nil in Hp];
    rewrite !decide_False; try done; simpl;
    first [discriminate | intros [?|?]; discriminate].
Qed.

(** X18. Whatever error [ReassignReviewer] returns, on whatever state and
    network, the handler of [/prs/{pr_id}/reassign] answers it with
    [NOT_ASSIGNED], [NOT_FOUND] or [BAD_REQUEST]: never with [PR_MERGED] or
    [NO_CANDIDATE], whose texts in the handler's [switch] are not the texts
    of the errors the service builds from [ErrPRMerged] and
    [ErrNoCandidate]. *)
Theorem reassign_handler_never_answers_PR_MERGED_or_NO_CANDIDATE
    `{RandSource Rng} (prID oldUserID : Z) (s s' : Engine Rng) (e : error) :
  service.ReassignReviewer prID oldUserID s = (Err e, s') →
  api.reassign_error e
  ∈ [("NOT_ASSIGNED", 409); ("NOT_FOUND", 404); ("BAD_REQUEST", 400)].
Proof.
  revert s e s'.
  change (fails_with
            (λ e, api.reassign_error e
                  ∈ [("NOT_ASSIGNED", 409); ("NOT_FOUND", 404);
                     ("BAD_REQUEST", 400)])
            (service.ReassignReviewer prID oldUserID : M (Engine Rng) _)).
  assert (∀ A (c : repository.Call) (stmt : postgres.DB → outcome A * postgres.DB)
            (prefix : string),
            prefix ∈ ["get reviewers by PR: "; "list active users: ";
                      "begin transaction: "; "delete old reviewer: ";
                      "insert new reviewer: "; "commit transaction: "] →
            fails_with
              (λ e, api.reassign_error e
                    ∈ [("NOT_ASSIGNED", 409); ("NOT_FOUND", 404);
                       ("BAD_REQUEST", 400)])
              (service.s_repo
                 (repository.record c
                    (bind_or (postgres.round_trip stmt) (postgres.wrap prefix)
                       (λ x, ret x))) : M (Engine Rng) A)) as Hstorage.
  { intros A c stmt prefix Hp. apply fails_with_call.
    eapply fails_with_weaken; [apply (fails_with_statement _ _ (λ x, x))|].
    intros e [e0 ->]. rewrite reassign_error_of_storage by done.
    in_list. }
  unfold service.ReassignReviewer.
  apply fails_with_bind_or with (E1 := λ _, True); [done| |intros pr].
  { intros _ _. vm_compute. in_list. }
  case_decide; [apply fails_with_fail; vm_compute; in_list|].
  apply fails_with_bind_or with (E1 := λ _, True); [done| |intros oldUser].
  { intros _ _. vm_compute. in_list. }
  destruct (TeamID oldUser) as [teamID|];
    [|apply fails_with_fail; vm_compute; in_list].
  apply fails_with_bind; [apply Hstorage; in_list|intros currentReviewers].
  destruct (negb _); [apply fails_with_fail; vm_compute; in_list|].
  apply fails_with_bind; [apply Hstorage; in_list|intros candidates].
  case_decide; [apply fails_with_fail; vm_compute; in_list|].
  apply fails_with_bind; [apply fails_with_s_rand_Intn|intros newIdx].
  destruct (index _ newIdx) as [newUser|]; [|apply fails_with_panic].
  apply fails_with_bind; [|intros _].
  { apply fails_with_call.
    eapply fails_with_weaken; [apply ReplaceReviewer_fails_with|].
    intros e0 (prefix & e1 & -> & Hp).
    repeat (apply elem_of_cons in Hp as [->|Hp]);
      [..|by apply elem_of_nil in Hp];
      rewrite reassign_error_of_storage by in_list; in_list. }
  apply fails_with_bind; [apply Hstorage; in_list|intros revs].
  apply fails_with_ret.
Qed.

Lemma reassign_handler_never_answers_PR_MERGED_or_NO_CANDIDATE_witness :
  (service.ReassignReviewer 1 2 office_after_merge).1
  = Err (service.Errorf_w service.ErrPRMerged "cannot reassign merged pr")
  ∧ api.reassign_error
      (service.Errorf_w service.ErrPRMerged "cannot reassign merged pr")
    ∈ [("NOT_ASSIGNED", 409); ("NOT_FOUND", 404); ("BAD_REQUEST", 400)].
Proof.
  assert ((service.ReassignReviewer 1 2 office_after_merge).1
          = Err (service.Errorf_w service.ErrPRMerged
                   "cannot reassign merged pr")) as E
    by (vm_compute; reflexivity).
  split; [exact E|].
  apply (reassign_handler_never_answers_PR_MERGED_or_NO_CANDIDATE 1 2
           office_after_merge
           (service.ReassignReviewer 1 2 office_after_merge).2).
  rewrite <- E. apply surjective_pairing.
Defined.

(** ** A refusal changes nothing *)

(** An error the service builds itself, [fmt.Errorf("%w: detail", sentinel)],
    and an error a method of the repository returns,
    [fmt.Errorf("prefix: %w", err)]. *)
Definition refusal (e : error) : Prop :=
  ∃ sentinel detail, e = service.Errorf_w sentinel detail.

Definition from_storage (e : error) : Prop :=
  ∃ prefix e0, e = postgres.wrap prefix e0.

Lemma from_storage_not_refusal (e : error) : from_storage e → ¬ refusal e.
Proof.
  intros (prefix & e0 & ->) (sentinel & detail & E).
  unfold postgres.wrap, service.Errorf_w in E. by injection E.
Qed.

Section answers.
Import postgres.
Context {S : Type} (get : S → DB).

(** From a state whose database satisfies [P], [op] returns a value [a] and
    a database that satisfies [Q a], or an error [e] and a database that
    satisfies [I e]. *)
Definition answers {A} (P : DB → Prop) (op : M S A) (Q : A → DB → Prop)
    (I : error → DB → Prop) : Prop :=
  ∀ s, P (get s) →
    match (op s).1 with
    | Ok a => Q a (get (op s).2)
    | Err e => I e (get (op s).2)
    | Panic => True
    end.

Lemma answers_ret {A} (P : DB → Prop) (a : A) (Q : A → DB → Prop) I :
  (∀ d, P d → Q a d) → answers P (ret a) Q I.
Proof. intros HQ s HP. by apply HQ. Qed.

Lemma answers_fail {A} (P : DB → Prop) (e : error) (Q : A → DB → Prop)
    (I : error → DB → Prop) :
  (∀ d, P d → I e d) → answers P (fail e) Q I.
Proof. intros HI s HP. by apply HI. Qed.

Lemma answers_panic {A} (P : DB → Prop) (Q : A → DB → Prop)
    (I : error → DB → Prop) :
  answers P panic Q I.
Proof. by intros s HP. Qed.

Lemma answers_bind {A B} (P : DB → Prop) (c : M S A) (k : A → M S B)
    (Q1 : A → DB → Prop) (Q : B → DB → Prop) (I : error → DB → Prop) :
  answers P c Q1 I → (∀ a, answers (Q1 a) (k a) Q I) →
  answers P (bind c k) Q I.
Proof.
  intros Hc Hk s HP. unfold bind. specialize (Hc s HP).
  destruct (c s) as [[a|e|] s1]; simpl in *; [by apply Hk|done..].
Qed.

Lemma answers_bind_or {A B} (P : DB → Prop) (c : M S A) (h : error → error)
    (k : A → M S B) (Q1 : A → DB → Prop) (I1 : error → DB → Prop)
    (Q : B → DB → Prop) (I : error → DB → Prop) :
  answers P c Q1 I1 → (∀ e d, I1 e d → I (h e) d) →
  (∀ a, answers (Q1 a) (k a) Q I) →
  answers P (bind_or c h k) Q I.
Proof.
  intros Hc Hh Hk s HP. unfold bind_or. specialize (Hc s HP).
  destruct (c s) as [[a|e|] s1]; simpl in *; [by apply Hk|by apply Hh|done].
Qed.

Lemma answers_bind_ignoring {A B} (P : DB → Prop) (c : M S A) (a0 : A)
    (k : A → M S B) (Q1 : A → DB → Prop) (Q : B → DB → Prop)
    (I : error → DB → Prop) :
  answers P c Q1 (λ _, Q1 a0) → (∀ a, answers (Q1 a) (k a) Q I) →
  answers P (bind_ignoring c a0 k) Q I.
Proof.
  intros Hc Hk s HP. unfold bind_ignoring. specialize (Hc s HP).
  destruct (c s) as [[a|e|] s1]; simpl in *; [by apply Hk..|done].
Qed.

Lemma answers_weaken {A} (P P' : DB → Prop) (op : M S A)
    (Q Q' : A → DB → Prop) (I I' : error → DB → Prop) :
  answers P' op Q' I' →
  (∀ d, P d → P' d) → (∀ a d, Q' a d → Q a d) → (∀ e d, I' e d → I e d) →
  answers P op Q I.
Proof.
  intros Hop HP HQ HI s Hs. specialize (Hop s (HP _ Hs)).
  destruct (op s).1; auto.
Qed.

(** What is known of the errors alone. *)
Lemma answers_fails_with {A} (E : error → Prop) (P : DB → Prop) (op : M S A) :
  fails_with E op → answers P op (λ _ _, True) (λ e _, E e).
Proof.
  intros Hop s _. destruct (op s) as [[a|e|] s'] eqn:Es; simpl; [done| |done].
  by eapply Hop.
Qed.

End answers.

Section refusal_facts.
Import repository postgres service.
Context `{RandSource Rng}.

Lemma answers_query {A} (c : Call) (stmt : DB → outcome A * DB)
    (prefix : string) (P : DB → Prop) :
  (∀ d, (stmt d).2 = d) →
  answers (database (Rng := Rng)) P
    (s_repo (record c (bind_or (round_trip stmt) (wrap prefix) (λ x, ret x))))
    (λ a d, P d ∧ stmt d = (Ok a, d)) (λ e d, P d ∧ from_storage e).
Proof.
  intros Hread s HP. rewrite s_repo_record_eq. unfold database, pool. simpl.
  unfold bind_or.
  pose proof (round_trip_db stmt (repo s).1) as Hdb. rewrite Hread in Hdb.
  fold (pool s) in *. fold (database s) in *.
  destruct (round_trip stmt (pool s)) as [[a|e|] p'] eqn:E; simpl in *.
  - apply round_trip_Ok in E as (d & E & ->). simpl in *.
    specialize (Hread (db (pool s))). rewrite E in Hread. simpl in Hread.
    subst d. done.
  - split; [by destruct Hdb as [->| ->]|]. by eexists _, _.
  - done.
Qed.

Lemma statement_from_storage {A B} (c : Call) (stmt : DB → outcome A * DB)
    (prefix : string) (f : A → B) :
  fails_with from_storage
    (s_repo (record c (bind_or (round_trip stmt) (wrap prefix)
                               (λ x, ret (f x)))) : M (Engine Rng) B).
Proof.
  apply fails_with_call.
  eapply fails_with_weaken; [apply fails_with_statement|].
  intros e [e0 ->]. by eexists _, _.
Qed.

Lemma AssignReviewers_from_storage (prID : Z) (userIDs : list Z) :
  fails_with from_storage (AssignReviewers prID userIDs).
Proof.
  induction userIDs as [|uid rest IH]; simpl; [apply fails_with_ret|].
  apply fails_with_bind_or with (E1 := λ _, True); [done| |done].
  intros e _. by eexists _, _.
Qed.

Lemma randomSample_never_fails (E : error → Prop) (n k : Z) :
  fails_with E (randomSample n k : M (Engine Rng) (list Z)).
Proof.
  intros s e s'. unfold randomSample. repeat case_match; by intros [=].
Qed.

Lemma collect_ids_never_fails (E : error → Prop) (filtered : list User)
    (idxs chosenIDs : list Z) :
  fails_with E (collect_ids filtered idxs chosenIDs : M (Engine Rng) (list Z)).
Proof.
  revert chosenIDs. induction idxs as [|i idxs IH]; intros chosenIDs; simpl.
  - apply fails_with_ret.
  - destruct (index filtered i); [apply IH|apply fails_with_panic].
Qed.

(** The database is [d0], and stays so when the operation refuses. *)
Local Abbreviation unchanged_when_refused d0 op :=
  (answers (database (Rng := Rng)) (λ d, d = d0) op
           (λ _ _, True) (λ e d, refusal e → d = d0)).

(** After the first write, only storage can fail. *)
Lemma answers_after_write {A} (d0 : DB) (P : DB → Prop)
    (op : M (Engine Rng) A) :
  fails_with from_storage op →
  answers database P op (λ _ _, True) (λ e d, refusal e → d = d0).
Proof.
  intros Hop.
  apply (answers_weaken _ P P op _ (λ _ _, True) _ (λ e _, from_storage e)).
  - by apply answers_fails_with.
  - done.
  - done.
  - intros e d He Hr. by apply from_storage_not_refusal in He.
Qed.

Lemma answers_read {A} (d0 : DB) (c : Call) (stmt : DB → outcome A * DB)
    (prefix : string) :
  (∀ d, (stmt d).2 = d) →
  answers (database (Rng := Rng)) (λ d, d = d0)
    (s_repo (record c (bind_or (round_trip stmt) (wrap prefix) (λ x, ret x))))
    (λ _ d, d = d0) (λ e d, refusal e → d = d0).
Proof.
  intros Hread.
  eapply answers_weaken;
    [apply (answers_query c stmt prefix (λ d, d = d0)); exact Hread|..].
  - done.
  - by intros a d [-> _].
  - by intros e d [-> _] _.
Qed.

Lemma answers_lookup {A} (d0 : DB) (c : Call) (stmt : DB → outcome A * DB)
    (prefix : string) :
  (∀ d, (stmt d).2 = d) →
  answers (database (Rng := Rng)) (λ d, d = d0)
    (s_repo (record c (bind_or (round_trip stmt) (wrap prefix) (λ x, ret x))))
    (λ _ d, d = d0) (λ _ d, d = d0).
Proof.
  intros Hread.
  eapply answers_weaken;
    [apply (answers_query c stmt prefix (λ d, d = d0)); exact Hread|..].
  - done.
  - by intros a d [-> _].
  - by intros e d [-> _].
Qed.

Lemma CreateTeam_refusal (d0 : DB) (name : string) :
  unchanged_when_refused d0 (service.CreateTeam name).
Proof.
  unfold service.CreateTeam. case_decide; [by apply answers_fail|].
  apply answers_after_write.
  apply fails_with_bind; [|intros; apply fails_with_ret].
  apply (statement_from_storage (CallCreateTeam name) _ _ (λ x, x)).
Qed.

Lemma CreateUser_refusal (d0 : DB) (teamID : option Z) (name : string)
    (isActive : bool) :
  unchanged_when_refused d0 (service.CreateUser teamID name isActive).
Proof.
  unfold service.CreateUser. case_decide; [by apply answers_fail|].
  apply answers_bind with (Q1 := λ _ d, d = d0).
  { destruct teamID as [t|]; [|by apply answers_ret].
    eapply answers_bind_or;
      [by apply (answers_lookup d0 (CallGetTeamByID t) (select_team t)
                   "get team: ")
      |done|intros; by apply answers_ret]. }
  intros _. apply answers_after_write.
  apply fails_with_bind; [|intros; apply fails_with_ret].
  apply (statement_from_storage (CallCreateUser _) _ _ (λ x, x)).
Qed.

Lemma CreatePR_refusal (d0 : DB) (title : string) (authorID : Z) :
  unchanged_when_refused d0 (service.CreatePR title authorID).
Proof.
  unfold service.CreatePR.
  eapply answers_bind_or;
    [by apply (answers_lookup d0 (CallGetUserByID authorID)
                 (select_user authorID) "get user: ")
    |done|intros author].
  destruct (negb (IsActive author)); [by apply answers_fail|].
  apply answers_after_write.
  apply fails_with_bind; [|intros pr].
  { apply (statement_from_storage (CallCreatePR _) _ _ (λ x, x)). }
  destruct (TeamID author) as [teamID|]; [|apply fails_with_ret].
  apply fails_with_bind; [|intros candidates].
  { apply (statement_from_storage (CallListActiveUsersInTeam teamID)
             (select_active_users teamID) _ (λ x, x)). }
  apply fails_with_bind; [|intros chosenIDs].
  { case_decide; [|apply fails_with_ret].
    apply fails_with_bind; [apply randomSample_never_fails|intros idxs].
    apply fails_with_bind; [apply collect_ids_never_fails|intros chosenIDs].
    apply fails_with_bind; [|intros; apply fails_with_ret].
    apply fails_with_call, AssignReviewers_from_storage. }
  apply fails_with_bind; [|intros; apply fails_with_ret].
  apply (statement_from_storage (CallGetReviewersByPR _)
           (select_reviewers _) _ (λ x, x)).
Qed.

Lemma ReassignReviewer_refusal (d0 : DB) (prID oldUserID : Z) :
  unchanged_when_refused d0 (service.ReassignReviewer prID oldUserID).
Proof.
  unfold service.ReassignReviewer.
  eapply answers_bind_or;
    [by apply (answers_lookup d0 (CallGetPRByID prID) (select_pr prID)
                 "get PR: ")
    |done|intros pr].
  case_decide; [by apply answers_fail|].
  eapply answers_bind_or;
    [by apply (answers_lookup d0 (CallGetUserByID oldUserID)
                 (select_user oldUserID) "get user: ")
    |done|intros oldUser].
  destruct (TeamID oldUser) as [teamID|]; [|by apply answers_fail].
  eapply answers_bind;
    [by apply (answers_read d0 (CallGetReviewersByPR prID)
                 (select_reviewers prID) "get reviewers by PR: ")
    |intros currentReviewers].
  destruct (negb _); [by apply answers_fail|].
  eapply answers_bind;
    [by apply (answers_read d0 (CallListActiveUsersInTeam teamID)
                 (select_active_users teamID) "list active users: ")
    |intros candidates].
  case_decide; [by apply answers_fail|].
  apply answers_after_write.
  apply fails_with_bind; [apply fails_with_s_rand_Intn|intros newIdx].
  destruct (index _ newIdx) as [newUser|]; [|apply fails_with_panic].
  apply fails_with_bind; [|intros _].
  { apply fails_with_call.
    eapply fails_with_weaken; [apply ReplaceReviewer_fails_with|].
    intros e (prefix & e0 & -> & _). by eexists _, _. }
  apply fails_with_bind; [|intros; apply fails_with_ret].
  apply (statement_from_storage (CallGetReviewersByPR _)
           (select_reviewers _) _ (λ x, x)).
Qed.

Lemma MergePR_refusal (d0 : DB) (prID : Z) :
  unchanged_when_refused d0 (service.MergePR prID).
Proof.
  unfold service.MergePR.
  eapply answers_bind_or;
    [by apply (answers_lookup d0 (CallGetPRByID prID) (select_pr prID)
                 "get PR: ")
    |done|intros pr].
  case_decide.
  { apply answers_bind_ignoring with (Q1 := λ _ d, d = d0);
      [|intros; by apply answers_ret].
    by apply (answers_lookup d0 (CallGetReviewersByPR prID)
                (select_reviewers prID) "get reviewers by PR: "). }
  case_decide; [by apply answers_fail|].
  apply answers_after_write.
  apply fails_with_bind; [|intros _].
  { apply (statement_from_storage (CallSetPRStatus _ _) _ _ (λ _, ())). }
  apply fails_with_bind; [|intros; apply fails_with_ret].
  apply (statement_from_storage (CallGetReviewersByPR _)
           (select_reviewers _) _ (λ x, x)).
Qed.

End refusal_facts.

(** X19. When an operation of the engine refuses, that is, returns an error
    it has built itself from one of its sentinels with
    [fmt.Errorf("%w: ...")], it has written nothing: the database is as it
    was, whatever the network did to the round trips before the refusal. *)
Theorem a_refusal_changes_nothing `{RandSource Rng} (s s' : Engine Rng)
    (sentinel : error) (detail : string) :
  let e := service.Errorf_w sentinel detail in
  (∀ name, service.CreateTeam name s = (Err e, s') → database s' = database s)
  ∧ (∀ teamID name isActive,
       service.CreateUser teamID name isActive s = (Err e, s') →
       database s' = database s)
  ∧ (∀ title authorID,
       service.CreatePR title authorID s = (Err e, s') →
       database s' = database s)
  ∧ (∀ prID oldUserID,
       service.ReassignReviewer prID oldUserID s = (Err e, s') →
       database s' = database s)
  ∧ (∀ prID, service.MergePR prID s = (Err e, s') → database s' = database s).
Proof.
  intros e.
  assert (∀ A (op : M (Engine Rng) A),
            answers database (λ d, d = database s) op
                    (λ _ _, True) (λ e d, refusal e → d = database s) →
            op s = (Err e, s') → database s' = database s) as Huse.
  { intros A op Hop E. specialize (Hop s eq_refl). rewrite E in Hop.
    simpl in Hop. apply Hop. by eexists _, _. }
  repeat apply conj; intros; eapply Huse; try done.
  - apply CreateTeam_refusal.
  - apply CreateUser_refusal.
  - apply CreatePR_refusal.
  - apply ReassignReviewer_refusal.
  - apply MergePR_refusal.
Qed.

Lemma a_refusal_changes_nothing_witness :
  (service.ReassignReviewer 1 2 office_after_merge).1
  = Err (service.Errorf_w service.ErrPRMerged "cannot reassign merged pr")
  ∧ database (service.ReassignReviewer 1 2 office_after_merge).2
    = database office_after_merge.
Proof.
  assert ((service.ReassignReviewer 1 2 office_after_merge).1
          = Err (service.Errorf_w service.ErrPRMerged
                   "cannot reassign merged pr")) as E
    by (vm_compute; reflexivity).
  split; [exact E|].
  apply (proj1 (proj2 (proj2 (proj2
           (a_refusal_changes_nothing office_after_merge
              (service.ReassignReviewer 1 2 office_after_merge).2
              service.ErrPRMerged "cannot reassign merged pr")))) 1 2).
  rewrite <- E. apply surjective_pairing.
Defined.

(** ** When the writes go through *)

Section progress_facts.
Import repository postgres service.
Context `{RandSource Rng}.
Implicit Types s : Engine Rng.

Lemma healthy_drop (n m : nat) (p : Pool) (d : DB) :
  healthy (n + m) p → healthy m (mkPool d (drop n (faults p))).
Proof.
  unfold healthy. simpl. intros Hh.
  rewrite <- (take_drop n (faults p)) in Hh.
  destruct (decide (length (faults p) ≤ n)%nat) as [Hle|Hgt].
  - rewrite drop_ge by done. rewrite take_nil. constructor.
  - rewrite take_app_ge in Hh by (rewrite length_take; lia).
    apply Forall_app in Hh as [_ Hh].
    rewrite length_take in Hh.
    replace (n + m - n `min` length (faults p))%nat with m in Hh by lia.
    done.
Qed.

(** [ReplaceReviewer] on a connection that stays healthy for its four
    round trips, when the row to insert is accepted. *)
Lemma ReplaceReviewer_healthy (prID oldUserID newUserID : Z) (p : Pool)
    (d' : DB) :
  healthy 4 p →
  insert_reviewer prID newUserID (delete_reviewer prID oldUserID (db p)).2
  = (Ok (), d') →
  postgres.ReplaceReviewer prID oldUserID newUserID p
  = (Ok (), mkPool d' (drop 4 (faults p))).
Proof.
  intros Hh E. destruct p as [d fs]. unfold healthy in Hh. simpl in *.
  unfold postgres.ReplaceReviewer, transaction, bind_or, round_trip, ret.
  simpl.
  destruct fs as [|f1 [|f2 [|f3 [|f4 fs]]]]; simpl in *;
    repeat match goal with
           | H : Forall _ (_ :: _) |- _ => apply Forall_cons in H as [-> H]
           end; simpl; rewrite ?E; simpl; try done.
Qed.

Lemma ReplaceReviewer_call_healthy s (prID oldUserID newUserID : Z) (d' : DB) :
  healthy 4 (pool s) →
  insert_reviewer prID newUserID
    (delete_reviewer prID oldUserID (database s)).2 = (Ok (), d') →
  s_repo (repository.ReplaceReviewer prID oldUserID newUserID) s
  = (Ok (),
     mkService (mkPool d' (drop 4 (faults (pool s))),
                journal s
                ++ [mkEvent (CallReplaceReviewer prID oldUserID newUserID)
                            None])
               (rand s)).
Proof.
  intros Hh E.
  change (s_repo (repository.ReplaceReviewer prID oldUserID newUserID) s)
    with (s_repo (record (CallReplaceReviewer prID oldUserID newUserID)
                    (postgres.ReplaceReviewer prID oldUserID newUserID)) s).
  rewrite s_repo_record_eq.
  fold (pool s). rewrite (ReplaceReviewer_healthy _ _ _ _ d') by done.
  done.
Qed.

End progress_facts.

(** X20. [ReassignReviewer] succeeds on a connection that stays healthy when
    the PR is stored and not merged, the old reviewer is stored, has a team
    and is assigned to the PR, and the team has an eligible replacement.  It
    returns the PR as it is stored. *)
Theorem ReassignReviewer_succeeds_when_a_replacement_exists `{RandSource Rng}
    (pr : PR) (oldUser : User) (t : Z) (s : Engine Rng) :
  postgres.consistent (database s) → postgres.healthy 9 (pool s) →
  pr ∈ postgres.prs (database s) → Status pr ≠ PRStatusMerged →
  oldUser ∈ postgres.users (database s) → TeamID oldUser = Some t →
  ID oldUser ∈ postgres.reviewer_ids (PR_ID pr) (database s) →
  eligible_replacements pr (ID oldUser) t (database s) ≠ [] →
  ∃ r s',
    service.ReassignReviewer (PR_ID pr) (ID oldUser) s = (Ok r, s')
    ∧ PR_of r = pr
    ∧ Reviewers r = postgres.reviewers_of (PR_ID pr) (database s').
Proof.
  intros W Hh Hpr Hopen Hold Ht Hin Hsome.
  assert (postgres.healthy 4 (pool s)) as Hh4
    by (eapply healthy_le; [|exact Hh]; lia).
  rewrite (ReassignReviewer_reads s pr oldUser t)
    by (try done; solve_healthy).
  destruct (service.has_reviewer _ _) eqn:Hhas.
  2:{ apply not_true_iff_false in Hhas. exfalso. apply Hhas.
      apply has_reviewer_elem. by rewrite reviewers_of_ids. }
  cbn [negb]. unfold bind at 1.
  rewrite ListActiveUsersInTeam_healthy by solve_healthy.
  rewrite !database_after_call.
  rewrite replacement_pool_eligible by done.
  set (pool_ := eligible_replacements pr (ID oldUser) t (database s)) in *.
  assert (0 < service.len pool_) as Hlen.
  { unfold service.len. destruct pool_; [done|]. simpl. lia. }
  rewrite decide_False by lia.
  unfold bind at 1, service.s_rand_Intn at 1, rand_Intn.
  rewrite decide_True by done.
  set (s4 := after_call _ _ (repository.CallListActiveUsersInTeam t) None).
  pose proof (Intn_draw_range (service.len pool_) (rand s4) Hlen) as Hx.
  destruct (Intn_draw (service.len pool_) (rand s4)) as [x g]. simpl in Hx.
  destruct (lookup_lt_is_Some_2 pool_ (Z.to_nat x)) as [newUser Hnew].
  { unfold service.len in Hx. lia. }
  unfold index. rewrite decide_False by lia. rewrite Hnew.
  assert (newUser ∈ postgres.users (database s)) as Huser.
  { apply list_elem_of_lookup_2 in Hnew.
    by apply list_elem_of_filter in Hnew as [_ ?]. }
  assert (∃ d', postgres.insert_reviewer (PR_ID pr) (ID newUser)
                  (postgres.delete_reviewer (PR_ID pr) (ID oldUser)
                     (database s)).2 = (Ok (), d')) as [d' Ed].
  { unfold postgres.insert_reviewer. case_decide; [by eexists|].
    rewrite decide_True; [by eexists|]. simpl. split.
    - apply list_elem_of_fmap. eauto.
    - apply list_elem_of_fmap. eauto. }
  unfold bind at 1.
  rewrite (ReplaceReviewer_call_healthy _ _ _ _ d').
  2:{ change (postgres.healthy 4 (pool s4)).
      unfold s4. do 4 apply healthy_after_call.
      eapply healthy_le; [|exact Hh]. lia. }
  2:{ exact Ed. }
  unfold bind at 1.
  rewrite GetReviewersByPR_healthy.
  2:{ change (postgres.healthy 1
                (postgres.mkPool d' (drop 4 (postgres.faults (pool s4))))).
      apply (healthy_drop 4 1). unfold s4. do 4 apply healthy_after_call.
      exact Hh. }
  unfold ret. eexists _, _. split; [reflexivity|]. done.
Qed.

Lemma ReassignReviewer_succeeds_when_a_replacement_exists_witness :
  ∃ r s',
    service.ReassignReviewer 1 2 office_with_two_prs = (Ok r, s')
    ∧ PR_of r = mkPR 1 "Add login" 1 PRStatusOpen 1700000000.
Proof.
  destruct (ReassignReviewer_succeeds_when_a_replacement_exists
              (mkPR 1 "Add login" 1 PRStatusOpen 1700000000)
              (mkUser 2 (Some 1) "Boris" true 1700000000) 1
              office_with_two_prs office_with_two_prs_consistent)
    as (r & s' & E & Hpr & _).
  - apply healthy_without_faults. vm_compute. reflexivity.
  - vm_compute. repeat constructor.
  - discriminate.
  - vm_compute. repeat constructor.
  - reflexivity.
  - vm_compute. repeat constructor.
  - vm_compute. discriminate.
  - exists r, s'. split; [exact E|exact Hpr].
Defined.

Section CreatePR_progress.
Import repository postgres service.
Context `{RandSource Rng}.
Implicit Types s : Engine Rng.


End CreatePR_progress.



(** ** The engine does not panic *)

Section returns.
Context {S : Type}.

(** [op] does not panic, and a value it returns satisfies [Q]. *)
Definition returns {A} (Q : A → Prop) (op : M S A) : Prop :=
  ∀ s, match (op s).1 with
       | Ok a => Q a
       | Err _ => True
       | Panic => False
       end.

Lemma returns_ret {A} (Q : A → Prop) (a : A) : Q a → returns Q (ret a).
Proof. by intros HQ s. Qed.

Lemma returns_fail {A} (Q : A → Prop) (e : error) : returns Q (fail e).
Proof. by intros s. Qed.

Lemma returns_bind {A B} (Q1 : A → Prop) (Q : B → Prop) (c : M S A)
    (k : A → M S B) :
  returns Q1 c → (∀ a, Q1 a → returns Q (k a)) → returns Q (bind c k).
Proof.
  intros Hc Hk s. unfold bind. specialize (Hc s).
  destruct (c s) as [[a|e|] s1]; simpl in *; [by apply Hk|done..].
Qed.

Lemma returns_bind_or {A B} (Q1 : A → Prop) (Q : B → Prop) (c : M S A)
    (h : error → error) (k : A → M S B) :
  returns Q1 c → (∀ a, Q1 a → returns Q (k a)) → returns Q (bind_or c h k).
Proof.
  intros Hc Hk s. unfold bind_or. specialize (Hc s).
  destruct (c s) as [[a|e|] s1]; simpl in *; [by apply Hk|done..].
Qed.

Lemma returns_bind_ignoring {A B} (Q : B → Prop) (c : M S A) (a0 : A)
    (k : A → M S B) :
  returns (λ _, True) c → (∀ a, returns Q (k a)) →
  returns Q (bind_ignoring c a0 k).
Proof.
  intros Hc Hk s. unfold bind_ignoring. specialize (Hc s).
  destruct (c s) as [[a|e|] s1]; simpl in *; [by apply Hk..|done].
Qed.

Lemma returns_weaken {A} (Q Q' : A → Prop) (op : M S A) :
  returns Q' op → (∀ a, Q' a → Q a) → returns Q op.
Proof.
  intros Hop HQ s. specialize (Hop s). destruct (op s).1; auto.
Qed.

End returns.

Section postgres_returns.
Import postgres.

Lemma returns_round_trip {A} (stmt : DB → outcome A * DB) :
  (∀ d, (stmt d).1 ≠ Panic) → returns (λ _, True) (round_trip stmt).
Proof.
  intros Hstmt p. unfold round_trip.
  destruct (head (faults p)) as [[e|]|]; simpl; [done|..];
    specialize (Hstmt (db p)); by destruct (stmt (db p)) as [[a|e|] d].
Qed.

Lemma returns_statement {A B} (stmt : DB → outcome A * DB) (prefix : string)
    (f : A → B) :
  (∀ d, (stmt d).1 ≠ Panic) →
  returns (λ _, True)
    (bind_or (round_trip stmt) (wrap prefix) (λ x, ret (f x))).
Proof.
  intros Hstmt. eapply returns_bind_or; [by apply returns_round_trip|].
  intros a _. by apply returns_ret.
Qed.

Lemma returns_transaction {A} (body : M Pool A) :
  returns (λ _, True) body → returns (λ _, True) (transaction body).
Proof.
  intros Hb p. unfold transaction. specialize (Hb p).
  by destruct (body p) as [[a|e|] tx].
Qed.

(** No statement of the repository panics. *)
Lemma statements_do_not_panic (d : DB) :
  (∀ name, (insert_team name d).1 ≠ Panic)
  ∧ (∀ id, (select_team id d).1 ≠ Panic)
  ∧ (∀ u, (insert_user u d).1 ≠ Panic)
  ∧ (∀ id, (select_user id d).1 ≠ Panic)
  ∧ (∀ t, (select_active_users t d).1 ≠ Panic)
  ∧ (∀ pr, (insert_pr pr d).1 ≠ Panic)
  ∧ (∀ id, (select_pr id d).1 ≠ Panic)
  ∧ (∀ status id, (update_pr_status status id d).1 ≠ Panic)
  ∧ (∀ prID uid, (insert_reviewer prID uid d).1 ≠ Panic)
  ∧ (∀ prID uid, (delete_reviewer prID uid d).1 ≠ Panic)
  ∧ (∀ prID, (select_reviewers prID d).1 ≠ Panic)
  ∧ (∀ uid, (select_prs_of_reviewer uid d).1 ≠ Panic)
  ∧ (count_reviewers d).1 ≠ Panic
  ∧ (no_statement d).1 ≠ Panic.
Proof.
  repeat apply conj; intros;
    unfold insert_team, select_team, insert_user, select_user,
      select_active_users, insert_pr, select_pr, update_pr_status,
      insert_reviewer, delete_reviewer, select_reviewers,
      select_prs_of_reviewer, count_reviewers, no_statement, first_row;
    simpl; repeat case_match; simpl; done.
Qed.

Ltac no_panic :=
  intros d; first
    [ apply (proj1 (statements_do_not_panic d))
    | apply (proj1 (proj2 (statements_do_not_panic d)))
    | apply (proj1 (proj2 (proj2 (statements_do_not_panic d))))
    | apply (proj1 (proj2 (proj2 (proj2 (statements_do_not_panic d)))))
    | apply (proj1 (proj2 (proj2 (proj2 (proj2
               (statements_do_not_panic d))))))
    | apply (proj1 (proj2 (proj2 (proj2 (proj2 (proj2
               (statements_do_not_panic d)))))))
    | apply (proj1 (proj2 (proj2 (proj2 (proj2 (proj2 (proj2
               (statements_do_not_panic d))))))))
    | apply (proj1 (proj2 (proj2 (proj2 (proj2 (proj2 (proj2 (proj2
               (statements_do_not_panic d)))))))))
    | apply (proj1 (proj2 (proj2 (proj2 (proj2 (proj2 (proj2 (proj2 (proj2
               (statements_do_not_panic d))))))))))
    | apply (proj1 (proj2 (proj2 (proj2 (proj2 (proj2 (proj2 (proj2 (proj2
               (proj2 (statements_do_not_panic d)))))))))))
    | apply (proj1 (proj2 (proj2 (proj2 (proj2 (proj2 (proj2 (proj2 (proj2
               (proj2 (proj2 (statements_do_not_panic d))))))))))))
    | apply (proj1 (proj2 (proj2 (proj2 (proj2 (proj2 (proj2 (proj2 (proj2
               (proj2 (proj2 (proj2 (statements_do_not_panic d)))))))))))))
    | apply (proj1 (proj2 (proj2 (proj2 (proj2 (proj2 (proj2 (proj2 (proj2
               (proj2 (proj2 (proj2 (proj2
               (statements_do_not_panic d))))))))))))))
    | apply (proj2 (proj2 (proj2 (proj2 (proj2 (proj2 (proj2 (proj2 (proj2
               (proj2 (proj2 (proj2 (proj2
               (statements_do_not_panic d)))))))))))))) ].

(** No method of the repository panics. *)
Lemma NewRepo_does_not_panic :
  (∀ name, returns (λ _, True) (CreateTeam name))
  ∧ (∀ id, returns (λ _, True) (GetTeamByID id))
  ∧ (∀ u, returns (λ _, True) (CreateUser u))
  ∧ (∀ id, returns (λ _, True) (GetUserByID id))
  ∧ (∀ teamID, returns (λ _, True) (ListActiveUsersInTeam teamID))
  ∧ (∀ pr, returns (λ _, True) (CreatePR pr))
  ∧ (∀ id, returns (λ _, True) (GetPRByID id))
  ∧ (∀ id status, returns (λ _, True) (SetPRStatus id status))
  ∧ (∀ prID userIDs, returns (λ _, True) (AssignReviewers prID userIDs))
  ∧ (∀ prID, returns (λ _, True) (GetReviewersByPR prID))
  ∧ (∀ prID oldUserID newUserID,
       returns (λ _, True) (ReplaceReviewer prID oldUserID newUserID))
  ∧ (∀ userID, returns (λ _, True) (ListPRsAssignedToUser userID))
  ∧ returns (λ _, True) CountAssignments.
Proof.
  assert (∀ prID, returns (λ _, True) (GetReviewersByPR prID)) as Hrevs.
  { intros prID. apply (returns_statement _ _ (λ x, x)). no_panic. }
  repeat apply conj; intros; try apply Hrevs;
    try (apply (returns_statement _ _ (λ x, x)); no_panic);
    try (apply (returns_statement _ _ (λ _, ())); no_panic).
  - induction userIDs as [|uid rest IH]; simpl; [by apply returns_ret|].
    eapply returns_bind_or; [apply returns_round_trip; no_panic|done].
  - unfold ReplaceReviewer.
    eapply returns_bind_or; [apply returns_round_trip; no_panic|intros _ _].
    apply returns_transaction.
    eapply returns_bind_or; [apply returns_round_trip; no_panic|intros _ _].
    eapply returns_bind_or; [apply returns_round_trip; no_panic|intros _ _].
    eapply returns_bind_or; [apply returns_round_trip; no_panic|intros _ _].
    by apply returns_ret.
  - unfold ListPRsAssignedToUser.
    eapply returns_bind_or; [apply returns_round_trip; no_panic|intros rows _].
    generalize (@nil PRWithReviewers).
    induction rows as [|p rows IH]; intros out; simpl;
      [by apply returns_ret|].
    eapply returns_bind_or; [apply Hrevs|]. intros revs _. apply IH.
Qed.

End postgres_returns.

Section engine_returns.
Import repository service.
Context `{RandSource Rng}.

Lemma returns_call {A} (c : Call) (m : M postgres.Pool A) :
  returns (λ _, True) m →
  returns (λ _, True) (s_repo (record c m) : M (Engine Rng) A).
Proof.
  intros Hm s. rewrite s_repo_record_eq. simpl. apply Hm.
Qed.

Lemma returns_randomSample (n k : Z) :
  0 ≤ n → 0 ≤ k →
  returns (λ idxs, ∀ i, i ∈ idxs → 0 ≤ i < n)
    (randomSample n k : M (Engine Rng) (list Z)).
Proof.
  intros Hn Hk s.
  destruct (randomSample_returns n k s Hn Hk) as (idxs & s' & E & _ & _ & Hr).
  by rewrite E.
Qed.

Lemma returns_collect_ids (filtered : list User) (idxs : list Z) :
  (∀ i, i ∈ idxs → 0 ≤ i < len filtered) →
  returns (λ _, True) (collect_ids filtered idxs [] : M (Engine Rng) (list Z)).
Proof.
  intros Hr s.
  destruct (collect_ids_in_range filtered idxs [] s Hr) as (us & _ & E).
  by rewrite E.
Qed.

Lemma returns_s_rand_Intn (n : Z) :
  0 < n → returns (λ x, 0 ≤ x < n) (s_rand_Intn n : M (Engine Rng) Z).
Proof.
  intros Hn s. unfold s_rand_Intn, rand_Intn. rewrite decide_True by done.
  pose proof (Intn_draw_range n (rand s) Hn) as Hx.
  by destruct (Intn_draw n (rand s)) as [x g].
Qed.

End engine_returns.

(** Discharge a call to a method of the repository. *)
Ltac repo_call :=
  apply returns_call;
  first
    [ apply (proj1 NewRepo_does_not_panic)
    | apply (proj1 (proj2 NewRepo_does_not_panic))
    | apply (proj1 (proj2 (proj2 NewRepo_does_not_panic)))
    | apply (proj1 (proj2 (proj2 (proj2 NewRepo_does_not_panic))))
    | apply (proj1 (proj2 (proj2 (proj2 (proj2 NewRepo_does_not_panic)))))
    | apply (proj1 (proj2 (proj2 (proj2 (proj2 (proj2
               NewRepo_does_not_panic))))))
    | apply (proj1 (proj2 (proj2 (proj2 (proj2 (proj2 (proj2
               NewRepo_does_not_panic)))))))
    | apply (proj1 (proj2 (proj2 (proj2 (proj2 (proj2 (proj2 (proj2
               NewRepo_does_not_panic))))))))
    | apply (proj1 (proj2 (proj2 (proj2 (proj2 (proj2 (proj2 (proj2 (proj2
               NewRepo_does_not_panic)))))))))
    | apply (proj1 (proj2 (proj2 (proj2 (proj2 (proj2 (proj2 (proj2 (proj2
               (proj2 NewRepo_does_not_panic))))))))))
    | apply (proj1 (proj2 (proj2 (proj2 (proj2 (proj2 (proj2 (proj2 (proj2
               (proj2 (proj2 NewRepo_does_not_panic)))))))))))
    | apply (proj1 (proj2 (proj2 (proj2 (proj2 (proj2 (proj2 (proj2 (proj2
               (proj2 (proj2 (proj2 NewRepo_does_not_panic))))))))))))
    | apply (proj2 (proj2 (proj2 (proj2 (proj2 (proj2 (proj2 (proj2 (proj2
               (proj2 (proj2 (proj2 NewRepo_does_not_panic)))))))))))) ].

(** X22. No operation of the engine panics, on any state and whatever the
    network does: the sampler is asked for a count that is not negative, the
    draw of a replacement has a positive bound, and every index the
    operations read a slice at is an index of the slice. *)
Theorem the_engine_never_panics `{RandSource Rng} (s : Engine Rng) :
  (∀ name, (service.CreateTeam name s).1 ≠ Panic)
  ∧ (∀ teamID name isActive,
       (service.CreateUser teamID name isActive s).1 ≠ Panic)
  ∧ (∀ title authorID, (service.CreatePR title authorID s).1 ≠ Panic)
  ∧ (∀ prID oldUserID,
       (service.ReassignReviewer prID oldUserID s).1 ≠ Panic)
  ∧ (∀ prID, (service.MergePR prID s).1 ≠ Panic)
  ∧ (∀ userID, (service.ListPRsAssignedToUser userID s).1 ≠ Panic)
  ∧ (service.StatsAssignments s).1 ≠ Panic.
Proof.
  assert (∀ A (op : M (Engine Rng) A),
            returns (λ _, True) op → (op s).1 ≠ Panic) as Huse.
  { intros A op Hop. specialize (Hop s). by destruct (op s).1. }
  repeat apply conj; intros; apply Huse; clear Huse.
  - unfold service.CreateTeam. case_decide; [apply returns_fail|].
    eapply returns_bind; [repo_call|]. intros; by apply returns_ret.
  - unfold service.CreateUser. case_decide; [apply returns_fail|].
    eapply returns_bind with (Q1 := λ _, True).
    { destruct teamID; [|by apply returns_ret].
      eapply returns_bind_or; [repo_call|]. intros; by apply returns_ret. }
    intros _ _. eapply returns_bind; [repo_call|].
    intros; by apply returns_ret.
  - unfold service.CreatePR.
    eapply returns_bind_or; [repo_call|intros author _].
    destruct (negb _); [apply returns_fail|].
    eapply returns_bind; [repo_call|intros pr _].
    destruct (TeamID author) as [t|]; [|by apply returns_ret].
    eapply returns_bind; [repo_call|intros candidates _].
    set (filtered := filter (λ u, ID u ≠ authorID) candidates).
    assert (0 ≤ service.len filtered) as Hlen by (unfold service.len; lia).
    eapply returns_bind with (Q1 := λ _, True).
    { case_decide; [|by apply returns_ret].
      eapply returns_bind; [apply returns_randomSample; lia|].
      intros idxs Hr.
      eapply returns_bind; [by apply returns_collect_ids|].
      intros chosenIDs _.
      eapply returns_bind; [repo_call|]. intros; by apply returns_ret. }
    intros _ _. eapply returns_bind; [repo_call|].
    intros; by apply returns_ret.
  - unfold service.ReassignReviewer.
    eapply returns_bind_or; [repo_call|intros pr _].
    case_decide; [apply returns_fail|].
    eapply returns_bind_or; [repo_call|intros oldUser _].
    destruct (TeamID oldUser) as [t|]; [|apply returns_fail].
    eapply returns_bind; [repo_call|intros currentReviewers _].
    destruct (negb _); [apply returns_fail|].
    eapply returns_bind; [repo_call|intros candidates _].
    case_decide as Hnone; [apply returns_fail|].
    eapply returns_bind.
    { apply returns_s_rand_Intn. unfold service.len in *. lia. }
    intros newIdx Hidx. simpl in Hidx.
    unfold index. rewrite decide_False by lia.
    destruct (lookup_lt_is_Some_2
                (service.replacement_pool pr oldUserID currentReviewers
                   candidates) (Z.to_nat newIdx)) as [newUser ->].
    { unfold service.len in Hidx. lia. }
    eapply returns_bind; [repo_call|intros _ _].
    eapply returns_bind; [repo_call|]. intros; by apply returns_ret.
  - unfold service.MergePR.
    eapply returns_bind_or; [repo_call|intros pr _].
    case_decide.
    { apply returns_bind_ignoring; [repo_call|]. intros; by apply returns_ret. }
    case_decide; [apply returns_fail|].
    eapply returns_bind; [repo_call|intros _ _].
    eapply returns_bind; [repo_call|]. intros; by apply returns_ret.
  - unfold service.ListPRsAssignedToUser.
    eapply returns_bind_or; [repo_call|intros _ _].
    eapply returns_bind; [repo_call|]. intros; by apply returns_ret.
  - unfold service.StatsAssignments.
    eapply returns_bind; [repo_call|]. intros; by apply returns_ret.
Qed.

(** ** Deactivating users *)

Section deactivate_facts.
Import postgres.

Lemma active_users_deactivated (teamID t : Z) (userIDs : list Z) (d : DB) :
  active_users t (deactivate_users teamID userIDs d).2
  = filter (λ u, ¬ (t = teamID ∧ ID u ∈ userIDs)) (active_users t d).
Proof.
  unfold active_users, deactivate_users. simpl.
  induction (users d) as [|u l IH]; [done|].
  rewrite fmap_cons, !filter_cons, IH.
  destruct (decide (TeamID u = Some teamID ∧ ID u ∈ userIDs)) as [[Ht Hi]|Hno].
  - simpl. rewrite decide_False by (intros [_ ?]; done).
    destruct (decide (TeamID u = Some t ∧ IsActive u = true)) as [[Ht' _]|?];
      [|done].
    rewrite filter_cons, decide_False; [done|].
    intros Hnot. apply Hnot. split; [congruence|done].
  - destruct (decide (TeamID u = Some t ∧ IsActive u = true)) as [[Ht' Ha]|?];
      [|done].
    rewrite filter_cons, decide_True; [done|].
    intros [-> Hi]. by apply Hno.
Qed.

End deactivate_facts.

(** X23. [DeactivateUsersInTeam], on a healthy connection, removes from the
    active users of the team the users whose identifier is listed, and no
    one else: the active users of every other team are the same, listed or
    not, no user is deleted, and the assignments of the deactivated users
    stay in [pr_reviewers]. *)
Theorem DeactivateUsersInTeam_turns_off_the_listed_users_of_the_team
    (teamID : Z) (userIDs : list Z) (p : postgres.Pool) :
  postgres.healthy 1 p →
  ∃ p',
    postgres.DeactivateUsersInTeam teamID userIDs p = (Ok (), p')
    ∧ postgres.active_users teamID (postgres.db p')
      = filter (λ u, ID u ∉ userIDs)
               (postgres.active_users teamID (postgres.db p))
    ∧ (∀ t, t ≠ teamID →
         postgres.active_users t (postgres.db p')
         = postgres.active_users t (postgres.db p))
    ∧ ID <$> postgres.users (postgres.db p')
      = ID <$> postgres.users (postgres.db p)
    ∧ postgres.pr_reviewers (postgres.db p')
      = postgres.pr_reviewers (postgres.db p).
Proof.
  intros Hh.
  exists (postgres.mkPool
            (postgres.deactivate_users teamID userIDs (postgres.db p)).2
            (tail (postgres.faults p))).
  split.
  { unfold postgres.DeactivateUsersInTeam, bind_or.
    by rewrite round_trip_healthy by done. }
  cbn [postgres.db]. split; [|split; [|split]].
  - rewrite (active_users_deactivated teamID teamID userIDs (postgres.db p)).
    apply list_filter_iff. intros u. split; [|tauto].
    intros Hnot Hin. by apply Hnot.
  - intros t Hne.
    rewrite (active_users_deactivated teamID t userIDs (postgres.db p)).
    induction (postgres.active_users t (postgres.db p)) as [|u l IH];
      [done|].
    rewrite filter_cons, decide_True by tauto. by rewrite IH.
  - unfold postgres.deactivate_users. simpl.
    rewrite <- list_fmap_compose. apply list_fmap_ext.
    intros i u _. simpl. by case_decide.
  - done.
Qed.

Lemma DeactivateUsersInTeam_turns_off_the_listed_users_of_the_team_witness :
  ∃ p',
    postgres.DeactivateUsersInTeam 1 [2; 6] (pool office_with_two_prs)
    = (Ok (), p')
    ∧ ID <$> postgres.active_users 1 (postgres.db p') = [1; 3; 4]
    ∧ ID <$> postgres.active_users 2 (postgres.db p') = [6; 7].
Proof.
  destruct (DeactivateUsersInTeam_turns_off_the_listed_users_of_the_team
              1 [2; 6] (pool office_with_two_prs))
    as (p' & E & H1 & H2 & _).
  - apply healthy_without_faults. vm_compute. reflexivity.
  - exists p'. split; [exact E|]. split.
    + rewrite H1. vm_compute. reflexivity.
    + rewrite (H2 2) by discriminate. vm_compute. reflexivity.
Defined.

(** ** The statuses the engine stores *)

(** Every stored PR is [OPEN] or [MERGED]. *)
Definition statuses_known (d : postgres.DB) : Prop :=
  ∀ p, p ∈ postgres.prs d →
       Status p = PRStatusOpen ∨ Status p = PRStatusMerged.

(** X24. The engine stores no status but [OPEN] and [MERGED]: if every stored
    PR has one of the two, so it is after any requests, whatever the network
    does.  On such a database [MergePR] never answers "can only merge OPEN
    pull requests". *)
Theorem stored_PRs_are_open_or_merged `{RandSource Rng} :
  (∀ (requests : list request) (s : Engine Rng),
     statuses_known (database s) →
     statuses_known (database (run requests s)))
  ∧ (∀ (prID : Z) (s s' : Engine Rng) (e : error),
       statuses_known (database s) →
       service.MergePR prID s = (Err e, s') →
       e ≠ service.Errorf_w service.ErrBadRequest
             "can only merge OPEN pull requests").
Proof.
  split.
  - intros requests s. apply run_carries.
    + intros name d Hd. unfold postgres.insert_team. by case_decide.
    + intros u d Hd. unfold postgres.insert_user. by case_match.
    + intros title authorID d Hd. unfold postgres.insert_pr.
      case_decide; [|done]. simpl.
      intros p [Hp| ->%list_elem_of_singleton]%elem_of_app; [by apply Hd|].
      by left.
    + intros id d Hd p (q & Hq & ->)%update_pr_status_rows.
      case_decide; [by right|by apply Hd].
    + intros prID uid d Hd. unfold postgres.insert_reviewer.
      by repeat case_decide.
    + intros prID uid d Hd. done.
  - intros prID s s' e Hs E.
    assert (answers (database (Rng := Rng)) statuses_known
              (service.MergePR prID)
              (λ _ _, True)
              (λ e _, e ≠ service.Errorf_w service.ErrBadRequest
                            "can only merge OPEN pull requests")) as Ha.
    { unfold service.MergePR.
      eapply answers_bind_or.
      { by apply (answers_query (repository.CallGetPRByID prID)
                    (postgres.select_pr prID) "get PR: " statuses_known). }
      { intros e0 d _. discriminate. }
      intros pr. case_decide as Hm.
      { apply (answers_fails_with _
                 (λ e, e ≠ service.Errorf_w service.ErrBadRequest
                             "can only merge OPEN pull requests")).
        apply fails_with_bind_ignoring. intros revs. apply fails_with_ret. }
      case_decide as Ho.
      { apply answers_fail. intros d [Hd Esel].
        apply select_pr_Ok in Esel as (_ & Hpr & _).
        destruct (Hd pr Hpr); done. }
      match goal with |- answers _ ?P ?op _ _ =>
        apply (answers_weaken _ P P op _ (λ _ _, True) _
                 (λ e _, from_storage e))
      end; [|done|done|].
      - apply answers_fails_with.
        apply fails_with_bind; [|intros _].
        { apply (statement_from_storage (repository.CallSetPRStatus _ _)
                   _ _ (λ _, ())). }
        apply fails_with_bind; [|intros; apply fails_with_ret].
        apply (statement_from_storage (repository.CallGetReviewersByPR _)
                 (postgres.select_reviewers _) _ (λ x, x)).
      - intros e0 d He0 ->. apply (from_storage_not_refusal _ He0).
        by eexists _, _. }
    specialize (Ha s Hs). rewrite E in Ha. exact Ha.
Qed.

Lemma stored_PRs_are_open_or_merged_witness :
  let d := database
             (run [ReqCreateTeam "Backend"; ReqCreateUser (Some 1) "Anna" true;
                   ReqCreateUser (Some 1) "Boris" true;
                   ReqCreatePR "Add login" 1; ReqMergePR 1;
                   ReqCreatePR "Add logout" 2]
                  boot) in
  Status <$> postgres.prs d = [PRStatusMerged; PRStatusOpen]
  ∧ statuses_known d.
Proof.
  cbv zeta. split; [vm_compute; reflexivity|].
  apply (proj1 stored_PRs_are_open_or_merged).
  intros p Hp. by apply elem_of_nil in Hp.
Defined.

(** ** The sampler on arguments the engine never passes *)

(** X25. [randomSample] panics when one of its arguments is negative: [make]
    panics on a negative length, and with a length that is not negative
    [res[:k]] panics on the negative bound.  It has no error to return. *)
Theorem randomSample_panics_on_a_negative_argument
    {St : Type} `{RandSource Rng} (n k : Z) (s : Service St Rng) :
  (n < 0 ∨ k < 0 → (randomSample n k s).1 = Panic)
  ∧ ∀ e, (randomSample n k s).1 ≠ Err e.
Proof.
  split.
  - intros Hneg. unfold randomSample.
    destruct (decide (n < 0)) as [Hn|Hn].
    + assert (make_ints n = None) as ->
        by (unfold make_ints; by rewrite decide_True).
      simpl. by case_decide.
    + assert (k < 0) as Hk by lia.
      rewrite decide_False by lia.
      rewrite make_fill_identity by lia.
      rewrite for_range_empty by lia.
      unfold slice_to. by rewrite decide_False by lia.
  - intros e. unfold randomSample. repeat case_match; simpl; done.
Qed.

Lemma randomSample_panics_on_a_negative_argument_witness :
  (randomSample (-1) 2 office).1 = Panic
  ∧ (randomSample 3 (-1) office).1 = Panic.
Proof.
  split.
  - apply (proj1 (randomSample_panics_on_a_negative_argument (-1) 2 office)).
    left. lia.
  - apply (proj1 (randomSample_panics_on_a_negative_argument 3 (-1) office)).
    right. lia.
Defined.

(** * [internal/api]: the handlers *)

(** A request reaches a handler decoded: a parameter of the route is the
    number [strconv.Atoi] read ([None]: it returned an error), a body is the
    struct [json.Decode] filled ([None]: it returned an error; a field the
    JSON leaves out has its zero value, a pointer field is [None]). *)
Module Handler.

(** What [writeJSON] and [writeError] encode. *)
Inductive Payload : Type :=
  | JSON_Team (t : Team)
  | JSON_User (u : User)
  | JSON_PR (pr : PRWithReviewers)
  | JSON_PRs (prs : list PRWithReviewers)
  | JSON_total_assignments (c : Z)
  | JSON_ErrorResponse (code message : string).

Record Response : Type := mkResponse {
  StatusCode : Z;
  Body : Payload
}.

Definition writeJSON (v : Payload) (code : Z) : Response := mkResponse code v.

Definition writeError (code message : string) (statusCode : Z) : Response :=
  mkResponse statusCode (JSON_ErrorResponse code message).

Section handlers.
Context `{repository.Repository St} `{RandSource Rng}.

Local Abbreviation Svc := (Service St Rng).

(** [res, err := h.svc.Method(..); if err != nil { on_error; return };
    on_success] *)
Definition respond {A} (call : M Svc A) (on_error : error → Response)
    (on_success : A → Response) : M Svc Response := λ s,
  match call s with
  | (Ok a, s') => (Ok (on_success a), s')
  | (Err e, s') => (Ok (on_error e), s')
  | (Panic, s') => (Panic, s')
  end.

Definition createTeam (body : option string) : M Svc Response :=
  match body with
  | None => ret (writeError "BAD_REQUEST" "invalid JSON" 400)
  | Some name =>
      if decide (name = "")
      then ret (writeError "BAD_REQUEST" "name is required" 400)
      else
        respond (service.CreateTeam name)
          (λ _, writeError "INTERNAL_ERROR" "failed to create team" 500)
          (λ t, writeJSON (JSON_Team t) 201)
  end.

Definition createUser (team_id : option Z)
    (body : option (string * option bool)) : M Svc Response :=
  match team_id with
  | None => ret (writeError "BAD_REQUEST" "valid team_id is required" 400)
  | Some teamID =>
      if decide (teamID ≤ 0)
      then ret (writeError "BAD_REQUEST" "valid team_id is required" 400)
      else
        match body with
        | None => ret (writeError "BAD_REQUEST" "invalid JSON" 400)
        | Some (name, is_active) =>
            if decide (name = "")
            then ret (writeError "BAD_REQUEST" "name is required" 400)
            else
              let isActive := default true is_active in
              respond (service.CreateUser (Some teamID) name isActive)
                (λ err, writeError "BAD_REQUEST" (Error err) 400)
                (λ u, writeJSON (JSON_User u) 201)
        end
  end.

Definition createPR (body : option (string * Z)) : M Svc Response :=
  match body with
  | None => ret (writeError "BAD_REQUEST" "invalid JSON" 400)
  | Some (title, authorID) =>
      if decide (title = "")
      then ret (writeError "BAD_REQUEST" "title is required" 400)
      else if decide (authorID ≤ 0)
      then ret (writeError "BAD_REQUEST" "valid author_id is required" 400)
      else
        respond (service.CreatePR title authorID)
          (λ err, writeError (api.createPR_error err).1 (Error err)
                             (api.createPR_error err).2)
          (λ pr, writeJSON (JSON_PR pr) 201)
  end.

Definition reassign (pr_id : option Z) (body : option Z) : M Svc Response :=
  match pr_id with
  | None => ret (writeError "BAD_REQUEST" "valid pr_id is required" 400)
  | Some prID =>
      if decide (prID ≤ 0)
      then ret (writeError "BAD_REQUEST" "valid pr_id is required" 400)
      else
        match body with
        | None => ret (writeError "BAD_REQUEST" "invalid JSON" 400)
        | Some oldUserID =>
            if decide (oldUserID ≤ 0)
            then ret (writeError "BAD_REQUEST"
                        "valid old_user_id is required" 400)
            else
              respond (service.ReassignReviewer prID oldUserID)
                (λ err, writeError (api.reassign_error err).1 (Error err)
                                   (api.reassign_error err).2)
                (λ res, writeJSON (JSON_PR res) 200)
        end
  end.

Definition merge (pr_id : option Z) : M Svc Response :=
  match pr_id with
  | None => ret (writeError "BAD_REQUEST" "valid pr_id is required" 400)
  | Some prID =>
      if decide (prID ≤ 0)
      then ret (writeError "BAD_REQUEST" "valid pr_id is required" 400)
      else
        respond (service.MergePR prID)
          (λ err, writeError (api.merge_error err).1 (Error err)
                             (api.merge_error err).2)
          (λ res, writeJSON (JSON_PR res) 200)
  end.

Definition listPRsForUser (user_id : option Z) : M Svc Response :=
  match user_id with
  | None => ret (writeError "BAD_REQUEST" "valid user_id is required" 400)
  | Some userID =>
      if decide (userID ≤ 0)
      then ret (writeError "BAD_REQUEST" "valid user_id is required" 400)
      else
        respond (service.ListPRsAssignedToUser userID)
          (λ err, writeError "BAD_REQUEST" (Error err) 400)
          (λ res, writeJSON (JSON_PRs res) 200)
  end.

Definition stats : M Svc Response :=
  respond service.StatsAssignments
    (λ _, writeError "INTERNAL_ERROR" "failed to get statistics" 500)
    (λ c, writeJSON (JSON_total_assignments c) 200).

(** [func (h *Handler) routes()] *)
Inductive Request : Type :=
  | POST_teams (body : option string)
  | POST_teams_users (team_id : option Z)
                     (body : option (string * option bool))
  | POST_prs (body : option (string * Z))
  | POST_prs_reassign (pr_id : option Z) (body : option Z)
  | POST_prs_merge (pr_id : option Z)
  | GET_users_prs (user_id : option Z)
  | GET_stats.

Definition routes (r : Request) : M Svc Response :=
  match r with
  | POST_teams body => createTeam body
  | POST_teams_users team_id body => createUser team_id body
  | POST_prs body => createPR body
  | POST_prs_reassign pr_id body => reassign pr_id body
  | POST_prs_merge pr_id => merge pr_id
  | GET_users_prs user_id => listPRsForUser user_id
  | GET_stats => stats
  end.

End handlers.
End Handler.

(** The server after it has answered the requests. *)
Definition answer_all `{RandSource Rng} (requests : list Handler.Request)
    (s : Engine Rng) : Engine Rng :=
  foldl (λ s r, exec (Handler.routes r) s) s requests.

(** ** What the handlers let through *)

Section handler_facts.
Context `{RandSource Rng}.
Implicit Types s : Engine Rng.

Lemma exec_respond {A} (call : M (Engine Rng) A)
    (on_error : error → Handler.Response) (on_success : A → Handler.Response)
    s :
  exec (Handler.respond call on_error on_success) s = exec call s.
Proof.
  unfold exec, Handler.respond. by destruct (call s) as [[a|e|] s'].
Qed.

(** A request changes the state as one request to the service does, or not
    at all; [CreateUser] is asked for users of a team only. *)
Lemma routes_serve (r : Handler.Request) s :
  exec (Handler.routes r) s = s
  ∨ ∃ req, exec (Handler.routes r) s = serve req s
           ∧ ∀ name isActive, req ≠ ReqCreateUser None name isActive.
Proof.
  destruct r as [[name|]|[teamID|] [[name a]|]|[[title authorID]|]
                |[prID|] [oldUserID|]|[prID|]|[userID|]|]; simpl;
    unfold Handler.createTeam, Handler.createUser, Handler.createPR,
      Handler.reassign, Handler.merge, Handler.listPRsForUser, Handler.stats;
    repeat case_decide; try (by left); right;
    rewrite exec_respond.
  - by exists (ReqCreateTeam name).
  - by exists (ReqCreateUser (Some teamID) name (default true a)).
  - by exists (ReqCreatePR title authorID).
  - by exists (ReqReassignReviewer prID oldUserID).
  - by exists (ReqMergePR prID).
  - by exists (ReqListPRsAssignedToUser userID).
  - by exists ReqStatsAssignments.
Qed.

End handler_facts.

Section api_runs.
Context `{RandSource Rng}.
Implicit Types s : Engine Rng.

(** The requests to the handlers are answered as some requests to the
    service are served, none of them for a user without a team. *)
Lemma answer_all_run (requests : list Handler.Request) s :
  ∃ served,
    answer_all requests s = run served s
    ∧ Forall (λ req, ∀ name isActive, req ≠ ReqCreateUser None name isActive)
             served.
Proof.
  revert s. unfold answer_all, run.
  induction requests as [|r requests IH]; intros s; simpl.
  - by exists [].
  - destruct (routes_serve r s) as [->|(req & -> & Hreq)].
    + apply IH.
    + destruct (IH (serve req s)) as (served & E & Hserved).
      exists (req :: served). simpl. split; [done|]. by constructor.
Qed.

End api_runs.

(** Every stored user has a team. *)
Definition users_have_teams (d : postgres.DB) : Prop :=
  ∀ u, u ∈ postgres.users d → TeamID u ≠ None.

(** X26. A user the API creates has a team: if every stored user has one, so
    it is after any requests to the handlers, whatever they decode to and
    whatever the network does.  On such a database a successful [CreatePR]
    has asked for the roster of the author's team: its path for an author
    without a team is not taken. *)
Theorem users_created_through_the_API_have_a_team `{RandSource Rng} :
  (∀ (requests : list Handler.Request) (s : Engine Rng),
     users_have_teams (database s) →
     users_have_teams (database (answer_all requests s)))
  ∧ (∀ (title : string) (authorID : Z) (s s' : Engine Rng)
       (r : PRWithReviewers),
       postgres.consistent (database s) → users_have_teams (database s) →
       service.CreatePR title authorID s = (Ok r, s') →
       ∃ t, repository.CallListActiveUsersInTeam t ∈ calls_since s s').
Proof.
  split.
  - intros requests s Hs.
    destruct (answer_all_run requests s) as (served & -> & Hserved).
    revert s Hs. unfold run.
    induction Hserved as [|req served Hreq _ IH]; intros s Hs; simpl; [done|].
    apply IH. clear IH.
    assert ((∃ t name a, req = ReqCreateUser (Some t) name a)
            ∨ (∀ teamID name a, req ≠ ReqCreateUser teamID name a))
      as [(t & name & a & ->)|Hother].
    { destruct req as [|[t|] name a| | | | |];
        try (right; intros; discriminate).
      - left. eauto.
      - by destruct (Hreq name a). }
    + simpl. apply (triple_exec users_have_teams); [|done].
      unfold service.CreateUser. case_decide; [by apply triple_fail|].
      apply triple_bind with (Q1 := λ _, users_have_teams).
      { apply triple_bind_or with (Q1 := λ _, users_have_teams);
          [|intros; by apply triple_ret].
        by apply (triple_call_read (repository.CallGetTeamByID t)
                    (postgres.select_team t) "get team: "). }
      intros _.
      apply triple_bind with (Q1 := λ _, users_have_teams);
        [|intros; by apply triple_ret].
      apply triple_call, (triple_statement _ _ _ (λ x, x)); [done|].
      intros d Hd.
      assert (users_have_teams
                (postgres.insert_user (mkUser 0 (Some t) name a 0) d).2)
        as Hd'.
      { unfold postgres.insert_user. case_match; simpl; [|done].
        intros u [Hu| ->%list_elem_of_singleton]%elem_of_app; [by apply Hd|].
        done. }
      by destruct (postgres.insert_user _ d) as [[u|e|] d'].
    + apply (serve_carries_apart_from_CreateUser users_have_teams);
        try done.
      * intros name d Hd. unfold postgres.insert_team. by case_decide.
      * intros title authorID d Hd. unfold postgres.insert_pr.
        by case_decide.
      * intros prID uid d Hd. unfold postgres.insert_reviewer.
        by repeat case_decide.
  - intros title authorID s s' r W Hs E.
    destruct (CreatePR_Ok_inv title authorID s r s' W E)
      as (author & Hin & _ & _ & _ & _ & _ & Hteam).
    destruct (TeamID author) as [t|] eqn:Ht; [|by destruct (Hs author Hin)].
    destruct Hteam as (idxs & _ & _ & _ & _ & _ & _ & ->).
    exists t. apply elem_of_app. left. in_list.
Qed.

Lemma users_created_through_the_API_have_a_team_witness :
  let d := database
             (answer_all
                [Handler.POST_teams (Some "Backend");
                 Handler.POST_teams_users (Some 1) (Some ("Anna", None));
                 Handler.POST_teams_users (Some 1) (Some ("Boris", Some false));
                 Handler.POST_teams_users (Some 0) (Some ("Clara", None));
                 Handler.POST_teams_users (Some 9) (Some ("Dmitri", None));
                 Handler.POST_prs (Some ("Add login", 1))]
                boot) in
  (ID <$> postgres.users d = [1; 2]) ∧ users_have_teams d.
Proof.
  cbv zeta. split; [vm_compute; reflexivity|].
  apply (proj1 users_created_through_the_API_have_a_team).
  intros u Hu. by apply elem_of_nil in Hu.
Defined.


